(** * AUTOMATED-VIDEO-EDITING: highlight detection and segment assembly

    A shallow embedding of [ai_video_editor/highlight.py],
    [ai_video_editor/transitions.py] and the selection and assembly part of
    [ai_video_editor/pipeline.py], with the properties the specification
    states about them; and, with further properties read off the code, of
    the word wrap, timing and layout of [captions.py], of [export.py] and
    the outputs a run logs, of [utils.safe_stem], of the time stamps of
    [transcription.py], of the style settings of [config.py], of the
    resolutions option of [cli.py], of the choice of the background track
    in [audio.py] and of the colour correction of [enhancements.py].

    Python values are modelled as follows.
    - [float] is IEEE-754 binary64: Rocq's primitive [float], with the
      comparison operators [<?], [<=?] and [=?] (all false on NaN).
    - [int] is [Z]; an [int] that meets a [float] in [/] is converted by
      correctly rounded conversion ([float_of_Z]).
    - lists are [list]; slices follow CPython's index adjustment
      ([py_slice]); the truth value of a list is [nonempty].
    - [str] is [string], for ASCII text; [int] on a string and the text
      measuring of the renderers are parameters of a section.
    - a NumPy [float32] is a [spec_float] with the operations of
      [SpecFloat] at 24 bits.
    - the OpenCV, NumPy and MoviePy calls are not part of the repository:
      the OpenCV and NumPy functions are parameters of a section; the
      MoviePy clips are terms of [Clip], built by the calls that return
      them, and [clip.subclip] is [clip_subclip], which raises
      [ValueError] for a start beyond the clip's duration; whether
      [resize] and [write_videofile] produce a file or raise is a
      parameter of the export section. *)

From Stdlib Require Import ZArith Lia Bool Floats String Ascii List.
From Stdlib Require Import Sorting.Sorted Sorting.Permutation.
From Stdlib Require Uint63.
Import ListNotations.

(** ** binary64 rounding, as [SpecFloat] computes it *)

Module Binary64.
Local Open Scope Z_scope.

Abbreviation fexp64 := (SpecFloat.fexp prec emax).

(** Where the fraction [A / B] lies between the integers around it:
    the location [SpecFloat] attaches to the quotient [A / B]. *)
Definition loc_of (A B : Z) : location :=
  let r := A mod B in
  if r =? 0 then loc_Exact else loc_Inexact (2 * r ?= B).

(** A shift record that holds the integer part and the location of [A / B]. *)
Definition located (A B : Z) (mrs : shr_record) : Prop :=
  shr_m mrs = A / B /\ loc_of_shr_record mrs = loc_of A B.

(** [A / B] rounded to the nearest integer, ties to even. *)
Definition rne (A B : Z) : Z := round_nearest_even (A / B) (loc_of A B).

(** The float with mantissa [M] and exponent [E], zero for [M = 0] and an
    infinity above the largest exponent. *)
Definition SFout (M E : Z) : spec_float :=
  match M with
  | 0 => S754_zero false
  | Z.pos p => if E <=? 971 then S754_finite false p E else S754_infinity false
  | Z.neg _ => S754_nan
  end.

(** A rounded mantissa that reached [2 ^ 53] moves to the next exponent. *)
Definition canon (M E : Z) : Z * Z :=
  if M =? 2 ^ 53 then (2 ^ 52, E + 1) else (M, E).

Definition round_out (M E : Z) : spec_float :=
  SFout (fst (canon M E)) (snd (canon M E)).

End Binary64.

(** ** Python exceptions *)

Module PyErr.

(** The exceptions the modelled functions raise themselves. *)
Inductive exn : Type :=
| ValueError (msg : string)
| ZeroDivisionError.

(** A returned value, or a raised exception. *)
Inductive result (A : Type) : Type :=
| Ok (a : A)
| Raise (e : exn).

Arguments Ok {A} a.
Arguments Raise {A} e.

Definition bind {A B : Type} (r : result A) (k : A -> result B) : result B :=
  match r with
  | Ok a => k a
  | Raise e => Raise e
  end.

Notation "x <- r ;; k" := (bind r (fun x => k))
  (at level 61, r at next level, right associativity).

End PyErr.

(** ** Python floats: the order decided by [<?], [<=?] and [=?] *)

Module PyFloat.
Import PyErr.

(** The place of a non-NaN value in the order [SFcompare] decides: a sign
    class, then exponent and mantissa (both negated below zero). *)
Definition SFrank (f : spec_float) : option (Z * Z * Z) :=
  match f with
  | S754_nan => None
  | S754_infinity true => Some (-2, 0, 0)%Z
  | S754_finite true m e => Some (-1, - e, Z.neg m)%Z
  | S754_zero _ => Some (0, 0, 0)%Z
  | S754_finite false m e => Some (1, e, Z.pos m)%Z
  | S754_infinity false => Some (2, 0, 0)%Z
  end.

Definition lex3 (a b : Z * Z * Z) : comparison :=
  let '(a1, a2, a3) := a in
  let '(b1, b2, b3) := b in
  match (a1 ?= b1)%Z with
  | Eq => match (a2 ?= b2)%Z with
          | Eq => (a3 ?= b3)%Z
          | c => c
          end
  | c => c
  end.

Definition lex3_le (a b : Z * Z * Z) : Prop :=
  let '(a1, a2, a3) := a in
  let '(b1, b2, b3) := b in
  (a1 < b1 \/ (a1 = b1 /\ (a2 < b2 \/ (a2 = b2 /\ a3 <= b3))))%Z.

Definition lex3_lt (a b : Z * Z * Z) : Prop :=
  let '(a1, a2, a3) := a in
  let '(b1, b2, b3) := b in
  (a1 < b1 \/ (a1 = b1 /\ (a2 < b2 \/ (a2 = b2 /\ a3 < b3))))%Z.

Definition rank (x : float) : option (Z * Z * Z) := SFrank (Prim2SF x).

(** Python's [max(a, b)] and [min(a, b)] on two arguments: the first
    argument is kept unless the second is strictly greater (smaller). *)
Definition py_max (a b : float) : float := if (a <? b)%float then b else a.
Definition py_min (a b : float) : float := if (b <? a)%float then b else a.

(** Python's [int] to [float] conversion (round to nearest, ties to even),
    as it happens when an [int] is divided by a [float]. (For an [int] of
    1024 bits or more Python raises [OverflowError]; no frame count comes
    near, and the value here is an infinity.) *)
Definition float_of_Z (z : Z) : float :=
  SF2Prim (binary_normalize prec emax z 0 false).

(** [z / x] for an [int] [z] and a [float] [x]: Python raises
    [ZeroDivisionError] when [x] is [0.0] or [-0.0]. *)
Definition truediv_int (z : Z) (x : float) : result float :=
  if (x =? 0)%float then Raise ZeroDivisionError
  else Ok (float_of_Z z / x)%float.

(** Truth value of a float: false exactly for [0.0] and [-0.0]. *)
Definition truthy (x : float) : bool := negb (x =? 0)%float.

End PyFloat.

(** ** Python lists: truth value, slices, [zip] *)

Module PyList.

Definition nonempty {A : Type} (l : list A) : bool :=
  match l with
  | [] => false
  | _ :: _ => true
  end.

(** CPython's adjustment of one slice bound for a list of length [len]:
    a negative bound counts from the end, and the result is clipped to
    [0 .. len]. *)
Definition adjust_index (len i : Z) : Z :=
  if (i <? 0)%Z then Z.max (i + len) 0 else Z.min i len.

(** [l[lo:hi]]; [None] is an omitted bound. *)
Definition py_slice {A : Type} (l : list A) (lo hi : option Z) : list A :=
  let len := Z.of_nat (length l) in
  let a := match lo with None => 0%Z | Some i => adjust_index len i end in
  let b := match hi with None => len | Some j => adjust_index len j end in
  firstn (Z.to_nat (b - a)) (skipn (Z.to_nat a) l).

(** [zip(l[:-1], l[1:])]: the pairs of neighbours of [l]. *)
Definition neighbours {A : Type} (l : list A) : list (A * A) :=
  combine (py_slice l None (Some (-1)%Z)) (py_slice l (Some 1%Z) None).

(** The same pairs by recursion on the list. *)
Fixpoint links {A : Type} (a : A) (l : list A) : list (A * A) :=
  match l with
  | [] => []
  | b :: r => (a, b) :: links b r
  end.

End PyList.

(** ** highlight.py *)

Module Highlight.
Import PyErr PyFloat PyList.

(** A candidate highlight: the tuple [(start_sec, end_sec, score)]. *)
Definition Highlight : Type := float * float * float.

Definition start_sec (h : Highlight) : float := fst (fst h).
Definition end_sec (h : Highlight) : float := snd (fst h).
Definition score (h : Highlight) : float := snd h.

(** Default arguments of [detect_scenes_and_highlights]. *)
Definition default_min_scene_len_sec : float := 2%float.
Definition default_motion_threshold : float := 12%float.
Definition default_fps_fallback : float := 30%float.

(** The literals [0.5] (scene cut) and [0.1] (threshold scaling), as the
    binary64 values Python reads them as. *)
Definition cut_threshold : float := 0.5%float.
Definition threshold_scale : float := 0x1.999999999999ap-4%float.

(** [highlights.sort(key=lambda x: x[2], reverse=True)]: Python's sort is
    stable and compares keys with [<]; with [reverse=True] an element moves
    behind exactly the elements whose key is strictly greater. *)
Fixpoint insert_by_score (h : Highlight) (l : list Highlight) : list Highlight :=
  match l with
  | [] => [h]
  | h' :: r =>
      if (score h <? score h')%float then h' :: insert_by_score h r
      else h :: l
  end.

Definition sort_by_score_desc (l : list Highlight) : list Highlight :=
  fold_right insert_by_score [] l.

Definition option_list {A : Type} (o : option A) : list A :=
  match o with
  | Some a => [a]
  | None => []
  end.

(** [between lo cuts hi]: [cuts] increases strictly, inside [(lo, hi)]. *)
Fixpoint between (lo : Z) (cuts : list Z) (hi : Z) : Prop :=
  match cuts with
  | [] => True
  | c :: r => (lo < c)%Z /\ (c < hi)%Z /\ between c r hi
  end.

Section Detect.

(** OpenCV and NumPy, as far as the function uses them. *)
Variables Frame Gray Hist : Type.
(** [cv2.cvtColor(frame, cv2.COLOR_BGR2GRAY)] *)
Variable cvtColor : Frame -> Gray.
(** [cv2.normalize(cv2.calcHist([gray], [0], None, [64], [0, 256])).flatten()] *)
Variable calcHist : Gray -> Hist.
(** [cv2.compareHist(prev_hist, hist, cv2.HISTCMP_BHATTACHARYYA)] *)
Variable compareHist : Hist -> Hist -> float.
(** [float(np.mean(mag))] of the Farneback flow from [prev_gray] to [gray] *)
Variable flow_magnitude : Gray -> Gray -> float.
(** [float(np.mean(seg_motion))] on a non-empty list *)
Variable np_mean : list float -> float.

(** [cv2.VideoCapture(str(video_path))]: whether it opened, the frame rate
    it reports, and the frames its successive [read()] calls return before
    [ret] is false. *)
Record VideoCapture : Type := {
  isOpened : bool;
  CAP_PROP_FPS : float;
  frames : list Frame
}.

(** The local variables of the [while True] loop. *)
Record LoopState : Type := {
  prev_gray : option Gray;
  prev_hist : option Hist;
  frame_idx : Z;
  scenes : list Z;
  motion_scores : list float
}.

Definition loop_init : LoopState :=
  {| prev_gray := None; prev_hist := None; frame_idx := 0;
     scenes := [0%Z]; motion_scores := [] |}.

(** One iteration of the loop, for a frame that was read. *)
Definition loop_body (st : LoopState) (frame : Frame) : LoopState :=
  let gray := cvtColor frame in
  let hist := calcHist gray in
  let scenes' :=
    match prev_hist st with
    | Some ph =>
        if (cut_threshold <? compareHist ph hist)%float
        then scenes st ++ [frame_idx st]
        else scenes st
    | None => scenes st
    end in
  let motion' :=
    match prev_gray st with
    | Some pg => motion_scores st ++ [flow_magnitude pg gray]
    | None => motion_scores st
    end in
  {| prev_gray := Some gray; prev_hist := Some hist;
     frame_idx := frame_idx st + 1;
     scenes := scenes'; motion_scores := motion' |}.

(** What the loop keeps true of [scenes], [frame_idx] and [prev_hist]. *)
Definition loop_inv (st : LoopState) : Prop :=
  (0 <= frame_idx st)%Z /\
  (prev_hist st <> None -> (1 <= frame_idx st)%Z) /\
  exists cuts,
    scenes st = 0%Z :: cuts /\ between 0 cuts (Z.max 1 (frame_idx st)).

Definition run_loop (fs : list Frame) : LoopState :=
  fold_left loop_body fs loop_init.

(** The list [scenes] after [scenes.append(frame_idx)]. *)
Definition scene_boundaries (fs : list Frame) : list Z :=
  let st := run_loop fs in
  scenes st ++ [frame_idx st].

(** [motion_scores[s : max(s, e - 1)] if motion_scores else []] *)
Definition seg_motion (motion : list float) (s e : Z) : list float :=
  if nonempty motion
  then py_slice motion (Some s) (Some (Z.max s (e - 1)))
  else [].

(** [float(np.mean(seg_motion)) if seg_motion else 0.0] *)
Definition scene_score (motion : list float) (s e : Z) : float :=
  let seg := seg_motion motion s e in
  if nonempty seg then np_mean seg else 0%float.

(** The body of [for s, e in zip(scenes[:-1], scenes[1:])] up to the
    [append]: what the scene [(s, e)] adds to [highlights], if anything. *)
Definition scene_highlight (fps min_scene_len_sec motion_threshold : float)
    (motion : list float) (se : Z * Z) : result (option Highlight) :=
  let '(s, e) := se in
  start_sec <- truediv_int s fps ;;
  end_sec <- truediv_int e fps ;;
  if (end_sec - start_sec <? min_scene_len_sec)%float then Ok None
  else
    let score := scene_score motion s e in
    if (motion_threshold * threshold_scale <=? score)%float
    then Ok (Some (start_sec, end_sec, score))
    else Ok None.

Definition for_body (fps min_scene_len_sec motion_threshold : float)
    (motion : list float) (highlights : list Highlight) (se : Z * Z)
    : result (list Highlight) :=
  o <- scene_highlight fps min_scene_len_sec motion_threshold motion se ;;
  Ok (match o with
      | Some h => highlights ++ [h]
      | None => highlights
      end).

(** [highlights] when the [for] loop is over, before the sort. *)
Definition collect_highlights (fps min_scene_len_sec motion_threshold : float)
    (motion : list float) (bounds : list Z) : result (list Highlight) :=
  fold_left
    (fun acc se =>
       highlights <- acc ;;
       for_body fps min_scene_len_sec motion_threshold motion highlights se)
    (neighbours bounds) (Ok []).

(** [fps = cap.get(cv2.CAP_PROP_FPS); if not fps or fps <= 0: fps = fps_fallback] *)
Definition effective_fps (cap : VideoCapture) (fps_fallback : float) : float :=
  let fps := CAP_PROP_FPS cap in
  if negb (truthy fps) || (fps <=? 0)%float then fps_fallback else fps.

Definition detect_scenes_and_highlights (cap : VideoCapture)
    (min_scene_len_sec motion_threshold fps_fallback : float)
    : result (list Highlight) :=
  if negb (isOpened cap) then Ok []
  else
    let fps := effective_fps cap fps_fallback in
    let st := run_loop (frames cap) in
    let bounds := scenes st ++ [frame_idx st] in
    highlights <- collect_highlights fps min_scene_len_sec motion_threshold
                    (motion_scores st) bounds ;;
    Ok (sort_by_score_desc highlights).

(** The same without the exception: what a scene adds when the frame rate
    is not zero, and the list [highlights] just before the sort, in the
    order in which the [for] loop meets the scenes (empty for a capture
    that did not open). *)
Definition kept_highlight (fps min_scene_len_sec motion_threshold : float)
    (motion : list float) (se : Z * Z) : option Highlight :=
  let '(s, e) := se in
  let start_sec := (float_of_Z s / fps)%float in
  let end_sec := (float_of_Z e / fps)%float in
  if (end_sec - start_sec <? min_scene_len_sec)%float then None
  else
    let score := scene_score motion s e in
    if (motion_threshold * threshold_scale <=? score)%float
    then Some (start_sec, end_sec, score)
    else None.

Definition highlights_before_sort (cap : VideoCapture)
    (min_scene_len_sec motion_threshold fps_fallback : float)
    : list Highlight :=
  if negb (isOpened cap) then []
  else
    let st := run_loop (frames cap) in
    flat_map
      (fun se => option_list
         (kept_highlight (effective_fps cap fps_fallback)
            min_scene_len_sec motion_threshold (motion_scores st) se))
      (neighbours (scenes st ++ [frame_idx st])).

(** The two outcomes of a call: the sorted list of the kept highlights, or
    [ZeroDivisionError] for an opened capture with a frame rate of zero. *)
Variant detect_outcome (cap : VideoCapture) (mn thr fb : float)
  : result (list Highlight) -> Prop :=
| detect_Ok :
    isOpened cap = false \/ (effective_fps cap fb =? 0)%float = false ->
    detect_outcome cap mn thr fb
      (Ok (sort_by_score_desc (highlights_before_sort cap mn thr fb)))
| detect_Raise :
    isOpened cap = true -> (effective_fps cap fb =? 0)%float = true ->
    detect_outcome cap mn thr fb (Raise ZeroDivisionError).

End Detect.

Arguments isOpened {Frame} _.
Arguments CAP_PROP_FPS {Frame} _.
Arguments frames {Frame} _.
Arguments prev_gray {Gray Hist} _.
Arguments prev_hist {Gray Hist} _.
Arguments frame_idx {Gray Hist} _.
Arguments scenes {Gray Hist} _.
Arguments motion_scores {Gray Hist} _.
Arguments loop_init {Gray Hist}.
Arguments loop_inv {Gray Hist} _.
Arguments loop_body {Frame Gray Hist} _ _ _ _ _ _.
Arguments run_loop {Frame Gray Hist} _ _ _ _ _.
Arguments scene_boundaries {Frame Gray Hist} _ _ _ _ _.
Arguments effective_fps {Frame} _ _.
Arguments highlights_before_sort {Frame Gray Hist} _ _ _ _ _ _ _ _ _.
Arguments detect_scenes_and_highlights {Frame Gray Hist} _ _ _ _ _ _ _ _ _.
Arguments detect_outcome {Frame Gray Hist} _ _ _ _ _ _ _ _ _ _.

(** The score order of the result and the test for "same score". *)
Definition score_ge (a b : Highlight) : Prop :=
  (score b <=? score a)%float = true.

Definition has_score (v : float) (h : Highlight) : bool :=
  (score h =? v)%float.


(** The time of frame [k] at frame rate [fps], as the [for] loop computes
    it, when [fps] is not zero. *)
Definition frame_time (fps : float) (k : Z) : float :=
  (float_of_Z k / fps)%float.

(** Two highlights whose time intervals do not overlap: one ends no later
    than the other starts. *)
Definition intervals_disjoint (h1 h2 : Highlight) : Prop :=
  (end_sec h1 <=? start_sec h2)%float = true \/
  (end_sec h2 <=? start_sec h1)%float = true.

(** A highlight whose interval is ordered and lies in [0, total]. *)
Definition interval_within (total : float) (h : Highlight) : Prop :=
  (0 <=? start_sec h)%float = true /\
  (start_sec h <=? end_sec h)%float = true /\
  (end_sec h <=? total)%float = true.

(** The elements of [l] whose index, counted from [i], lies in [lo, hi). *)
Fixpoint select_range {A : Type} (i lo hi : Z) (l : list A) : list A :=
  match l with
  | [] => []
  | x :: r =>
      if ((lo <=? i) && (i <? hi))%Z
      then x :: select_range (i + 1) lo hi r
      else select_range (i + 1) lo hi r
  end.

(** The sub-range the specification names: the motion magnitudes whose
    index in the series falls in [lo, hi). (Position [i] of the series holds
    the flow from frame [i] to frame [i + 1].) *)
Definition magnitudes_in_range (motion : list float) (lo hi : Z) : list float :=
  select_range 0 lo hi motion.

(** *** Scenes as a tiling of the frame range *)

(** [tiling a b l]: the intervals of [l] follow one another from [a] to [b];
    each starts where the one before ends, and only the last one may be
    empty. *)
Inductive tiling : Z -> Z -> list (Z * Z) -> Prop :=
| tiling_last (a b : Z) : (a <= b)%Z -> tiling a b [(a, b)]
| tiling_cons (a m b : Z) (l : list (Z * Z)) :
    (a < m)%Z -> tiling m b l -> tiling a b ((a, m) :: l).

Definition disjoint_in_order (p q : Z * Z) : Prop := (snd p <= fst q)%Z.

End Highlight.

(** ** transitions.py *)

Module Transitions.
Import PyErr PyFloat PyList.

(** What [VideoFileClip(str(video_path))] reads from the file, as far as
    the pipeline looks at it. *)
Record VideoFile : Type := { duration : float }.

(** MoviePy clips, by the calls that build them. *)
#[local] Unset Elimination Schemes.
Inductive Clip : Type :=
| VideoFileClip (video : VideoFile)
    (** [VideoFileClip(str(video_path))] *)
| subclip (clip : Clip) (t_start t_end : float)
    (** the part of [clip] from [t_start] to [t_end], as a call of
        [clip.subclip] that returns gives it *)
| concatenate_videoclips (clips : list Clip) (padding : float).
    (** [concatenate_videoclips(clips, method="compose", padding=padding)];
        MoviePy's default [padding] is 0, and with a negative [padding]
        each clip starts that much before the one it follows has ended. *)

#[local] Set Elimination Schemes.

(** [clip.subclip(t_start, t_end)] on the clip of a video file, as MoviePy
    computes it: a negative time counts back from the end of the clip, and
    a start beyond the clip's duration raises [ValueError] (MoviePy's
    message also gives the two numbers). *)
Definition start_beyond_duration : exn :=
  ValueError "t_start should be smaller than the clip's duration".

Definition clip_subclip (video : VideoFile) (t_start t_end : float)
    : result Clip :=
  let t_start :=
    if (t_start <? 0)%float then (duration video + t_start)%float
    else t_start in
  if (duration video <? t_start)%float
  then Raise start_beyond_duration
  else
    let t_end :=
      if (t_end <? 0)%float then (duration video + t_end)%float
      else t_end in
    Ok (subclip (VideoFileClip video) t_start t_end).

(** [str.lower()]. Strings are byte strings here; ASCII capitals are
    lowered and every other byte is kept, which decides membership in
    [{"crossfade", "fade"}] as Python's Unicode [lower] does. *)
Definition lower_ascii (c : ascii) : ascii :=
  let n := nat_of_ascii c in
  if ((65 <=? n) && (n <=? 90))%nat then ascii_of_nat (n + 32) else c.

Fixpoint lower (s : string) : string :=
  match s with
  | EmptyString => EmptyString
  | String c r => String (lower_ascii c) (lower r)
  end.

(** [kind or "crossfade"]: [None] and the empty string are false. *)
Definition kind_or_crossfade (kind : option string) : string :=
  match kind with
  | None => "crossfade"
  | Some k => if String.eqb k "" then "crossfade" else k
  end.

(** [kind in {"crossfade", "fade"}] *)
Definition is_fade (kind : string) : bool :=
  String.eqb kind "crossfade" || String.eqb kind "fade".

(** Whether [apply_transitions] takes the overlapping branch for [kind]. *)
Definition joins_with_overlap (kind : option string) : bool :=
  is_fade (lower (kind_or_crossfade kind)).

Definition apply_transitions (segments : list Clip) (kind : option string)
    (duration : float) : result Clip :=
  match segments with
  | [] => Raise (ValueError "No segments to stitch")
  | [segment] => Ok segment
  | _ :: _ :: _ =>
      let kind := lower (kind_or_crossfade kind) in
      if is_fade kind
      then Ok (concatenate_videoclips segments (- duration)%float)
      else Ok (concatenate_videoclips segments 0%float)
  end.

(** The time by which neighbouring segments of a joined timeline overlap:
    the opposite of the [padding] they were joined with. *)
Definition overlap (c : Clip) : option float :=
  match c with
  | concatenate_videoclips _ padding => Some (- padding)%float
  | _ => None
  end.

End Transitions.

(** ** pipeline.py: selection and assembly *)

Module Pipeline.
Import PyErr PyFloat PyList Highlight Transitions.

(** One entry of [video_item["trims"]]: [t["start"]] and [t["end"]]. *)
Record Trim : Type := { trim_start : float; trim_end : float }.

(** Defaults: [AppConfig.highlight_top_k] and the [pad] of [_build_sequence]. *)
Definition default_top_k : Z := 5.
Definition default_pad : float := 0.25%float.

(** The segment cut for one selected highlight [(s, e, _)]:
    [clip.subclip(max(0.0, s - pad), min(clip.duration, e + pad))]. The
    start is kept from falling below 0 and the end from passing the
    duration; a start that lies beyond the duration is left there, and
    [subclip] raises on it. *)
Definition padded_subclip (video : VideoFile) (pad : float) (h : Highlight)
    : result Clip :=
  let '(s, e, _) := h in
  let start := py_max 0%float (s - pad)%float in
  let end_ := py_min (duration video) (e + pad)%float in
  clip_subclip video start end_.

(** The loop [for s, e, _ in selected]: the segments in order, up to the
    first [subclip] that raises. *)
Fixpoint cut_segments (video : VideoFile) (pad : float)
    (selected : list Highlight) : result (list Clip) :=
  match selected with
  | [] => Ok []
  | h :: rest =>
      segment <- padded_subclip video pad h ;;
      segments <- cut_segments video pad rest ;;
      Ok (segment :: segments)
  end.

Definition _build_sequence (video : VideoFile) (highlights : list Highlight)
    (top_k : Z) (pad : float) : result (Clip * list Clip) :=
  let clip := VideoFileClip video in
  let selected := py_slice highlights None (Some top_k) in
  segments <- cut_segments video pad selected ;;
  let segments := if negb (nonempty segments) then [clip] else segments in
  Ok (clip, segments).

(** A highlight whose padded start does not lie beyond the source. *)
Definition starts_in_source (video : VideoFile) (pad : float)
    (h : Highlight) : Prop :=
  (duration video <? py_max 0%float (start_sec h - pad)%float)%float = false.

(** In [process_single_video]:
    [if not highlights and video_item.get("trims"):
       highlights = [(t["start"], t["end"], 1.0) for t in video_item.get("trims", [])]];
    [trims] is [None] when the item has no such key. *)
Definition substitute_trims (highlights : list Highlight)
    (trims : option (list Trim)) : list Highlight :=
  match trims with
  | Some ts =>
      if negb (nonempty highlights) && nonempty ts
      then map (fun t => (trim_start t, trim_end t, 1%float)) ts
      else highlights
  | None => highlights
  end.

(** [process_single_video] from the detected highlights to [seq_clip]:
    the segments of [_build_sequence] (called with the default [pad]) and
    their join by [apply_transitions]. *)
Definition build_segments (video : VideoFile) (detected : list Highlight)
    (trims : option (list Trim)) (top_k : Z) : result (list Clip) :=
  built <- _build_sequence video (substitute_trims detected trims) top_k
             default_pad ;;
  Ok (snd built).

Definition sequence_clip (video : VideoFile) (detected : list Highlight)
    (trims : option (list Trim)) (top_k : Z)
    (kind : option string) (transition_duration : float) : result Clip :=
  segments <- build_segments video detected trims top_k ;;
  apply_transitions segments kind transition_duration.

End Pipeline.

(** ** A small instance to run the definitions on *)

Module Demo.
Import PyErr PyFloat PyList Highlight Transitions Pipeline.

(** Stand-ins for the OpenCV and NumPy calls: a frame is one brightness
    value, which is also its gray image and its histogram; histogram
    distance and flow magnitude are both the absolute difference; the mean
    is the sum from the left divided by the length. *)
Definition to_gray (frame : float) : float := frame.
Definition to_hist (gray : float) : float := gray.
Definition distance (a b : float) : float := abs (a - b)%float.

Definition seq_mean (l : list float) : float :=
  (fold_left PrimFloat.add l 0 / float_of_Z (Z.of_nat (length l)))%float.

Definition boundaries_of (fs : list float) : list Z :=
  scene_boundaries to_gray to_hist distance distance fs.

Definition detect (cap : VideoCapture float) (mn thr fb : float)
    : result (list Highlight) :=
  detect_scenes_and_highlights to_gray to_hist distance distance seq_mean
    cap mn thr fb.

(** Seven frames at one frame per second, with a cut before frame 3. *)
Definition footage : list float :=
  [0; 0.125; 0.25; 5; 5.25; 5.5; 5.75]%float.

Definition cap : VideoCapture float :=
  {| isOpened := true; CAP_PROP_FPS := 1%float; frames := footage |}.

Definition closed_cap : VideoCapture float :=
  {| isOpened := false; CAP_PROP_FPS := 0%float; frames := [] |}.

Definition source : VideoFile := {| duration := 10%float |}.

Definition clip_a : Clip := subclip (VideoFileClip source) 0%float 3%float.
Definition clip_b : Clip := subclip (VideoFileClip source) 5%float 8%float.

End Demo.

(** ** Python strings (ASCII): whitespace, [split], [strip], [join] *)

Module PyStr.
Local Open Scope string_scope.

(** [c.isspace()] for an ASCII character: tab, line feed, vertical tab, form
    feed, carriage return, the four separators 0x1c to 0x1f, and space. *)
Definition is_space (c : ascii) : bool :=
  let n := nat_of_ascii c in
  (((9 <=? n) && (n <=? 13)) || ((28 <=? n) && (n <=? 32)))%nat.

Definition is_empty (s : string) : bool :=
  match s with
  | EmptyString => true
  | String _ _ => false
  end.

Fixpoint has_space (s : string) : bool :=
  match s with
  | EmptyString => false
  | String c r => is_space c || has_space r
  end.

(** [s.lstrip()], [s.rstrip()] and [s.strip()]. *)
Fixpoint lstrip (s : string) : string :=
  match s with
  | EmptyString => EmptyString
  | String c r => if is_space c then lstrip r else s
  end.

Fixpoint rstrip (s : string) : string :=
  match s with
  | EmptyString => EmptyString
  | String c r =>
      let r' := rstrip r in
      if is_space c && is_empty r' then EmptyString else String c r'
  end.

Definition strip (s : string) : string := lstrip (rstrip s).

(** [s.split()]: the maximal runs of characters that are not whitespace.
    [cur] is the run being read. *)
Fixpoint split_ws_from (cur : string) (s : string) : list string :=
  match s with
  | EmptyString => if is_empty cur then [] else [cur]
  | String c r =>
      if is_space c
      then (if is_empty cur then split_ws_from "" r
            else cur :: split_ws_from "" r)
      else split_ws_from (cur ++ String c "") r
  end.

Definition split_ws (s : string) : list string := split_ws_from "" s.

(** [s.split(sep)] for a separator of one character: the pieces between the
    occurrences of [sep], empty pieces included; never the empty list. *)
Fixpoint split_char (sep : ascii) (s : string) : list string :=
  match s with
  | EmptyString => [EmptyString]
  | String c r =>
      if Ascii.eqb c sep then EmptyString :: split_char sep r
      else match split_char sep r with
           | [] => [String c EmptyString]
           | p :: ps => String c p :: ps
           end
  end.

(** [sep in s] for a separator of one character. *)
Fixpoint contains_char (sep : ascii) (s : string) : bool :=
  match s with
  | EmptyString => false
  | String c r => Ascii.eqb c sep || contains_char sep r
  end.

(** [sep.join(l)] *)
Fixpoint join (sep : string) (l : list string) : string :=
  match l with
  | [] => ""
  | [s] => s
  | s :: r => s ++ sep ++ join sep r
  end.

(** [s.replace(a, b)] for single characters [a] and [b]. *)
Fixpoint replace_char (a b : ascii) (s : string) : string :=
  match s with
  | EmptyString => EmptyString
  | String c r => String (if Ascii.eqb c a then b else c) (replace_char a b r)
  end.

(** [s.startswith(p)] and [s.partition(sep)]: the text before the first
    occurrence of [sep], [sep] itself and the text after it, or
    [(s, "", "")] when [sep] does not occur. *)
Fixpoint startswith (p s : string) : bool :=
  match p, s with
  | EmptyString, _ => true
  | String a p', String c s' => Ascii.eqb a c && startswith p' s'
  | String _ _, EmptyString => false
  end.

Fixpoint drop (n : nat) (s : string) : string :=
  match n, s with
  | O, _ => s
  | S n', String _ r => drop n' r
  | S _, EmptyString => EmptyString
  end.

Fixpoint partition (sep : string) (s : string) : string * string * string :=
  if startswith sep s then (EmptyString, sep, drop (String.length sep) s)
  else match s with
       | EmptyString => (EmptyString, EmptyString, EmptyString)
       | String c r =>
           let '(before, found, rest) := partition sep r in
           (String c before, found, rest)
       end.

(** [sep in s] for a string [sep]. *)
Fixpoint contains_str (sep : string) (s : string) : bool :=
  startswith sep s ||
  match s with
  | EmptyString => false
  | String _ r => contains_str sep r
  end.

(** A word as [split()] yields it: not empty and free of whitespace. *)
Definition is_word (w : string) : Prop := w <> "" /\ has_space w = false.

(** A string that is not empty and that [strip] leaves alone. *)
Definition tight (s : string) : Prop :=
  s <> "" /\ lstrip s = s /\ rstrip s = s.

(** [s.isspace() or not s]: nothing but whitespace. *)
Fixpoint all_space (s : string) : bool :=
  match s with
  | EmptyString => true
  | String c r => is_space c && all_space r
  end.

End PyStr.

(** ** Calls that return or raise, for any type of exceptions *)

Module PyRaise.

Inductive outcome (E A : Type) : Type :=
| Return (a : A)
| Throw (e : E).

Arguments Return {E A} a.
Arguments Throw {E A} e.

Definition and_then {E A B : Type} (o : outcome E A)
    (k : A -> outcome E B) : outcome E B :=
  match o with
  | Return a => k a
  | Throw e => Throw e
  end.

Notation "x <~ o ;; k" := (and_then o (fun x => k))
  (at level 61, o at next level, right associativity).

(** The value returned, or [d] after an exception. *)
Definition returned {E A : Type} (d : A) (o : outcome E A) : A :=
  match o with
  | Return a => a
  | Throw _ => d
  end.

End PyRaise.

(** ** captions.py: word wrap and caption timing *)

Module Captions.
Import PyFloat PyList PyStr.
Local Open Scope string_scope.

(** [margin_x = 40], and the literal [0.05] as a binary64 value. *)
Definition margin_x : Z := 40.
Definition min_caption_duration : float := 0x1.999999999999ap-5%float.

Section Wrap.

(** The width in pixels the renderer in use measures for a line:
    [pg_font.size(test)[0]] with pygame, [cv2.getTextSize(...)[0][0]] with
    OpenCV. *)
Variable text_width : string -> Z.

(** The loop variables [lines] and [cur], and one round of
    [for w in words]. *)
Definition wrap_body (max_width : Z) (st : list string * string) (w : string)
    : list string * string :=
  let '(lines, cur) := st in
  let test := strip (cur ++ " " ++ w) in
  if (text_width test <=? max_width)%Z || is_empty cur
  then (lines, test)
  else ((lines ++ [cur])%list, w).

(** The word-wrap of both renderers, from [lines = []; cur = ""] to
    [if cur: lines.append(cur)]. *)
Definition wrap_words (max_width : Z) (words : list string) : list string :=
  let '(lines, cur) := fold_left (wrap_body max_width) words ([], "") in
  if is_empty cur then lines else (lines ++ [cur])%list.

(** The lines of a caption on a frame [W] pixels wide:
    [max_width = W - 2 * margin_x] and [words = text.split()]. *)
Definition wrap_text (W : Z) (text : string) : list string :=
  wrap_words (W - 2 * margin_x) (split_ws text).

(** What [burn_captions] fixes of one caption clip: [set_start(start)],
    [set_duration(dur)] and the wrapped text that is rendered. *)
Record CaptionClip : Type := {
  cap_start : float;
  cap_duration : float;
  cap_lines : list string
}.

(** The loop [for start, end, text in entries]: an entry whose text is
    blank is skipped; [dur = max(0.05, end - start)]. *)
Definition caption_of (W : Z) (entry : float * float * string)
    : option CaptionClip :=
  let '(start, end_, text) := entry in
  if is_empty (strip text) then None
  else Some {| cap_start := start;
               cap_duration := py_max min_caption_duration (end_ - start)%float;
               cap_lines := wrap_text W text |}.

Definition caption_clips (W : Z) (entries : list (float * float * string))
    : list CaptionClip :=
  flat_map (fun entry => match caption_of W entry with
                         | Some c => [c]
                         | None => []
                         end) entries.

(** A line of the wrap that is acceptable: it holds at least one word, and
    it fits the width unless it is a single word. *)
Definition line_ok (max_width : Z) (group : list string) : Prop :=
  group <> [] /\
  ((text_width (join " " group) <= max_width)%Z \/ length group = 1%nat).

(** A break that was forced: the first word of the new line [g'] did not
    fit at the end of the line [g] before it. *)
Definition break_forced (max_width : Z) (g g' : list string) : Prop :=
  match g' with
  | w :: _ => (max_width < text_width (join " " (g ++ [w])%list))%Z
  | [] => True
  end.

Fixpoint breaks_forced_from (max_width : Z) (g : list string)
    (rest : list (list string)) : Prop :=
  match rest with
  | [] => True
  | g' :: r => break_forced max_width g g' /\ breaks_forced_from max_width g' r
  end.

(** Every break between consecutive lines was forced. *)
Definition breaks_forced (max_width : Z) (groups : list (list string)) : Prop :=
  match groups with
  | [] => True
  | g :: r => breaks_forced_from max_width g r
  end.

(** The first of the lines [gs ++ [glast]] starts with the words [g]. *)
Definition starts_with (g : list string) (gs : list (list string))
    (glast : list string) : Prop :=
  match gs with
  | [] => exists t, glast = (g ++ t)%list
  | g1 :: _ => exists t, g1 = (g ++ t)%list
  end.

End Wrap.

(** *** Where the lines are drawn (the pygame renderer) *)

Section Layout.
Local Open Scope Z_scope.

Definition margin_y : Z := 40.

(** [sum(heights) + int(0.4 * fontsize) * (len(lines) - 1)], with [gap] for
    [int(0.4 * fontsize)]. *)
Definition total_h (gap : Z) (heights : list Z) : Z :=
  fold_left Z.add heights 0 + gap * (Z.of_nat (length heights) - 1).

(** [y = H - margin_y - total_h if position == "bottom" else margin_y] *)
Definition first_y (H gap : Z) (position : string) (heights : list Z) : Z :=
  if String.eqb position "bottom" then H - margin_y - total_h gap heights
  else margin_y.

(** [x = (W - line_surf.get_width()) // 2] *)
Definition line_x (W width : Z) : Z := (W - width) / 2.

(** The loop [for line in lines]: each line is drawn at the current [y],
    and then [y += line_surf.get_height() + int(0.4 * fontsize)]. The
    result pairs the [y] of each line with its height. *)
Fixpoint place_lines (y gap : Z) (heights : list Z) : list (Z * Z) :=
  match heights with
  | [] => []
  | h :: r => (y, h) :: place_lines (y + h + gap) gap r
  end.

Definition line_positions (H gap : Z) (position : string)
    (heights : list Z) : list (Z * Z) :=
  place_lines (first_y H gap position heights) gap heights.

End Layout.

End Captions.

(** ** utils.py *)

Module Utils.
Import PyStr.
Local Open Scope string_scope.

(** [safe_stem]: [path.stem.replace(" ", "_")], as a function of the stem. *)
Definition safe_stem (stem : string) : string := replace_char " " "_" stem.

End Utils.

(** ** export.py *)

Module Exports.
Import PyErr PyStr PyRaise Transitions.
Local Open Scope string_scope.

(** [RES_MAP], and [d.get(k)] on a dict given by its items. *)
Definition RES_MAP : list (string * (Z * Z)) :=
  [("1080p", (1920, 1080)); ("720p", (1280, 720)); ("480p", (854, 480))]%Z.

Fixpoint dict_get {V : Type} (d : list (string * V)) (k : string) : option V :=
  match d with
  | [] => None
  | (k', v) :: r => if String.eqb k k' then Some v else dict_get r k
  end.

(** [w, h = parts]: unpacking a list into two names, with CPython's
    messages. *)
Definition unpack2 (parts : list string) : result (string * string) :=
  match parts with
  | [w; h] => Ok (w, h)
  | [] => Raise (ValueError "not enough values to unpack (expected 2, got 0)")
  | [_] => Raise (ValueError "not enough values to unpack (expected 2, got 1)")
  | _ :: _ :: _ :: _ =>
      Raise (ValueError "too many values to unpack (expected 2)")
  end.

(** What ends an export early: an exception raised while a resolution is
    read, or one raised by MoviePy. *)
Inductive error (L : Type) : Type :=
| Reading (e : exn)
| Library (e : L).

Arguments Reading {L} e.
Arguments Library {L} e.

Section Resolutions.

(** [int(s)] on a string: the integer it denotes, or the [ValueError]
    raised when it denotes none. *)
Variable py_int : string -> result Z.

(** The value of [size] at [if not size] for the resolution [r]; [None]
    is the only false value it takes, a pair of integers being true. *)
Definition resolution_size (r : string) : result (option (Z * Z)) :=
  if contains_char "x" r then
    wh <- unpack2 (split_char "x" (lower r)) ;;
    w <- py_int (fst wh) ;;
    h <- py_int (snd wh) ;;
    Ok (Some (w, h))
  else Ok (dict_get RES_MAP (lower r)).

(** The file name [f"{out_base.stem}_{r}{out_base.suffix}"]; the file is
    written beside [out_base]. *)
Definition out_name (stem suffix r : string) : string :=
  stem ++ "_" ++ r ++ suffix.

(** MoviePy's exceptions, and the outcome of producing the file
    [out_path]: [clip.resize(newsize=size)], when a size is given, followed
    by [write_videofile(str(out_path), codec="libx264", audio_codec="aac")].
    [None]: the calls return and the file is written; [Some e]: one of
    them raises [e], as [resize] does for the size (0, 0), and the file
    does not count as written. *)
Variable LibraryError : Type.
Variable write_videofile : option (Z * Z) -> string -> option LibraryError.

(** [export_preview(seq_clip, preview_path)]: [subclip] and
    [write_videofile], with the same reading of the outcome. *)
Variable export_preview : string -> option LibraryError.

(** [export_resolutions], as the loop goes through [resolutions] with
    [paths] so far: the files written, with the size each was resized to,
    and then the returned [paths] or the exception raised. *)
Fixpoint export_from (stem suffix : string) (resolutions : list string)
    (paths : list string) (written : list (string * (Z * Z)))
    : list (string * (Z * Z)) * outcome (error LibraryError) (list string) :=
  match resolutions with
  | [] => (written, Return paths)
  | r :: rest =>
      match resolution_size r with
      | Raise e => (written, Throw (Reading e))
      | Ok None => export_from stem suffix rest paths written
      | Ok (Some size) =>
          let out_path := out_name stem suffix r in
          match write_videofile (Some size) out_path with
          | Some e => (written, Throw (Library e))
          | None =>
              export_from stem suffix rest
                (paths ++ [out_path])%list
                (written ++ [(out_path, size)])%list
          end
      end
  end.

Definition export_resolutions (stem suffix : string)
    (resolutions : list string)
    : list (string * (Z * Z)) * outcome (error LibraryError) (list string) :=
  export_from stem suffix resolutions [] [].

(** The loop gets past the resolution [r]: it has no size, or its file is
    written. *)
Definition passes (stem suffix r : string) : Prop :=
  match resolution_size r with
  | Ok None => True
  | Ok (Some size) =>
      write_videofile (Some size) (out_name stem suffix r) = None
  | Raise _ => False
  end.

(** The loop ends at the resolution [r] with [err]: reading it raises, or
    producing its file does. *)
Definition stops (stem suffix r : string) (err : error LibraryError) : Prop :=
  match resolution_size r with
  | Raise e => err = Reading e
  | Ok (Some size) =>
      exists e, write_videofile (Some size) (out_name stem suffix r) = Some e /\
                err = Library e
  | Ok None => False
  end.

(** Whether a file is written for the resolution [r]. *)
Definition sized (r : string) : bool :=
  match resolution_size r with
  | Ok (Some _) => true
  | _ => false
  end.

(** *** pipeline.py: [result_log["outputs"]] *)

(** With [config.dry_run]: nothing is written, and the log lists the
    master, one name for each entry of [config.export.resolutions], and the
    preview if asked for. [stem] is [out_base.stem]; the suffix of
    [out_base] is [".mp4"]. *)
Definition dry_run_outputs (stem : string) (resolutions : list string)
    (preview : bool) : list string :=
  let master := stem ++ ".mp4" in
  let pv := if preview then [stem ++ "_preview.mp4"] else [] in
  ([master] ++ map (out_name stem ".mp4") resolutions ++ pv)%list.

(** Without it: the master is written, then [export_resolutions] runs, then
    the preview is exported. The names of the files written, in order, and
    the outputs logged, or the exception that ends the run. *)
Definition real_run_outputs (stem : string) (resolutions : list string)
    (preview : bool)
    : list string * outcome (error LibraryError) (list string) :=
  let master := stem ++ ".mp4" in
  match write_videofile None master with
  | Some e => ([], Throw (Library e))
  | None =>
      match export_resolutions stem ".mp4" resolutions with
      | (written, Throw err) => (master :: map fst written, Throw err)
      | (written, Return paths) =>
          if preview then
            let preview_path := stem ++ "_preview.mp4" in
            match export_preview preview_path with
            | Some e => (master :: map fst written, Throw (Library e))
            | None =>
                (((master :: map fst written) ++ [preview_path])%list,
                 Return (([master] ++ paths) ++ [preview_path])%list)
            end
          else (master :: map fst written, Return ([master] ++ paths)%list)
      end
  end.

End Resolutions.

End Exports.

(** ** transcription.py: the time stamps of an SRT file *)

Module Transcription.
Import PyFloat PyStr PyRaise.
Local Open Scope string_scope.

(** The exceptions the two functions raise. *)
Inductive error : Type :=
| ValueError
| OverflowError.

(** An [int] where a [float] is needed: the nearest binary64 value, and
    [OverflowError] when that is out of range. *)
Definition to_float (z : Z) : outcome error float :=
  let f := float_of_Z z in
  if is_infinity f then Throw OverflowError else Return f.

Section Srt.

(** [int(s)] on a string: the integer it denotes, if any; [ValueError] is
    raised when there is none. *)
Variable py_int : string -> option Z.

Definition int (s : string) : outcome error Z :=
  match py_int s with
  | Some z => Return z
  | None => Throw ValueError
  end.

(** [h, m, rest = t.split(":")], [sec, ms = rest.split(",")] and
    [int(h) * 3600 + int(m) * 60 + int(sec) + int(ms) / 1000.0]: the sum of
    the first three terms is an [int]; the quotient is computed, as a
    float, before that sum is added to it. *)
Definition _srt_time_to_seconds (t : string) : outcome error float :=
  match split_char ":" t with
  | [h; m; rest] =>
      match split_char "," rest with
      | [sec; ms] =>
          zh <~ int h ;;
          zm <~ int m ;;
          zs <~ int sec ;;
          zms <~ int ms ;;
          fms <~ to_float zms ;;
          whole <~ to_float (zh * 3600 + zm * 60 + zs) ;;
          Return (whole + fms / 1000)%float
      | _ => Throw ValueError
      end
  | _ => Throw ValueError
  end.

(** [start_str, _, end_str = line.partition(" --> ")] *)
Definition _srt_time_range_to_seconds (line : string)
    : outcome error (float * float) :=
  let '(start_str, _, end_str) := partition " --> " line in
  start_s <~ _srt_time_to_seconds start_str ;;
  end_s <~ _srt_time_to_seconds end_str ;;
  Return (start_s, end_s).

End Srt.

End Transcription.

(** ** config.py: the style settings; cli.py: the resolutions option *)

Module Config.
Import PyStr PyList PyRaise Transitions Exports.
Local Open Scope string_scope.

(** A value read from the metadata file or given on the command line, as
    far as the code looks at it: [None], a [bool], an [int], a [float], a
    [str], a [bytes] (YAML's [!!binary]), or anything else the loaders
    give (a list, a set, a date), which has no method [lower] and of which
    only the truth value matters. *)
Inductive pyval : Type :=
| PNone
| PBool (b : bool)
| PInt (z : Z)
| PFloat (f : float)
| PStr (s : string)
| PBytes (b : string)
| POther (truth : bool).

Definition truth (v : pyval) : bool :=
  match v with
  | PNone => false
  | PBool b => b
  | PInt z => negb (z =? 0)%Z
  | PFloat f => negb (f =? 0)%float
  | PStr s => negb (is_empty s)
  | PBytes b => negb (is_empty b)
  | POther t => t
  end.

Inductive error : Type :=
| TypeError
| AttributeError.

(** [metadata.get("style")]: a dict, given by its items, or another value
    ([None] when the key is missing). *)
Inductive style_value : Type :=
| SDict (items : list (string * pyval))
| SVal (v : pyval).

(** The dataclass [StyleConfig], its field names and its defaults. *)
Record StyleConfig : Type := {
  name : pyval;
  stabilize : pyval;
  color_correct : pyval;
  denoise_video : pyval;
  exposure_boost : pyval;
  contrast_gain : pyval
}.

Definition fields : list string :=
  ["name"; "stabilize"; "color_correct"; "denoise_video";
   "exposure_boost"; "contrast_gain"].

Definition defaults : list (string * pyval) :=
  [("name", PNone); ("stabilize", PBool true); ("color_correct", PBool true);
   ("denoise_video", PBool false);
   ("exposure_boost", PFloat 0x1.47ae147ae147bp-7);
   ("contrast_gain", PFloat 0x1.0cccccccccccdp+0)].

Definition mem (k : string) (l : list string) : bool :=
  existsb (String.eqb k) l.

Fixpoint has_dup (l : list string) : bool :=
  match l with
  | [] => false
  | k :: r => mem k r || has_dup r
  end.

(** The value a field gets from the keyword arguments [kwargs]. *)
Definition arg (kwargs : list (string * pyval)) (k : string) : pyval :=
  match dict_get kwargs k with
  | Some v => v
  | None => match dict_get defaults k with
            | Some v => v
            | None => PNone
            end
  end.

(** [StyleConfig] called with the keyword arguments [kwargs], which the
    source spreads from dicts: a keyword given twice is a [TypeError] of the
    call, a keyword that is no field a [TypeError] of [__init__]. *)
Definition new_StyleConfig (kwargs : list (string * pyval))
    : outcome error StyleConfig :=
  let keys := map fst kwargs in
  if has_dup keys || negb (forallb (fun k => mem k fields) keys)
  then Throw TypeError
  else Return {| name := arg kwargs "name";
                 stabilize := arg kwargs "stabilize";
                 color_correct := arg kwargs "color_correct";
                 denoise_video := arg kwargs "denoise_video";
                 exposure_boost := arg kwargs "exposure_boost";
                 contrast_gain := arg kwargs "contrast_gain" |}.

(** The field of a configuration by its name. *)
Definition field (cfg : StyleConfig) (k : string) : option pyval :=
  dict_get [("name", name cfg); ("stabilize", stabilize cfg);
            ("color_correct", color_correct cfg);
            ("denoise_video", denoise_video cfg);
            ("exposure_boost", exposure_boost cfg);
            ("contrast_gain", contrast_gain cfg)] k.

(** The dict [_style_preset] returns for the lowered name. The literals
    are 0.02, 1.08, 0.015, 1.04, 0.025, 1.1, 0.01 and 1.05. *)
Definition preset_of (lowered : string) : list (string * pyval) :=
  if String.eqb lowered "cinematic" then
    [("exposure_boost", PFloat 0x1.47ae147ae147bp-6);
     ("contrast_gain", PFloat 0x1.147ae147ae148p+0)]
  else if String.eqb lowered "vlog" then
    [("exposure_boost", PFloat 0x1.eb851eb851eb8p-7);
     ("contrast_gain", PFloat 0x1.0a3d70a3d70a4p+0)]
  else if mem lowered ["reel"; "instagram"; "short"] then
    [("exposure_boost", PFloat 0x1.999999999999ap-6);
     ("contrast_gain", PFloat 0x1.199999999999ap+0)]
  else if String.eqb lowered "youtube" then
    [("exposure_boost", PFloat 0x1.47ae147ae147bp-7);
     ("contrast_gain", PFloat 0x1.0cccccccccccdp+0)]
  else [].

(** [name = (name or "").lower()]: a false value gives [""]; a true
    [bytes] value is lowered to [bytes], which equal no string, so that
    none of the tests holds and the result is [{}]; any other true value
    that is no string has no [lower]. *)
Definition _style_preset (name : pyval)
    : outcome error (list (string * pyval)) :=
  if negb (truth name) then Return (preset_of (lower ""))
  else match name with
       | PStr s => Return (preset_of (lower s))
       | PBytes _ => Return []
       | _ => Throw AttributeError
       end.

(** The preset a style name selects when [_style_preset] returns. *)
Definition preset_for (name : pyval) : list (string * pyval) :=
  match name with
  | PStr s => preset_of (lower s)
  | _ => []
  end.

(** The command-line [style], [None] or a string, as a value; and
    [style or style_value]. *)
Definition of_option (style : option string) : pyval :=
  match style with
  | Some s => PStr s
  | None => PNone
  end.

(** [style or ""] *)
Definition style_name (style : option string) : string :=
  match style with
  | Some s => s
  | None => ""
  end.

Definition style_or (style : option string) (v : pyval) : pyval :=
  if truth (of_option style) then of_option style else v.

(** [style_cfg] in [load_config]. *)
Definition style_cfg (style : option string) (sv : style_value)
    : outcome error StyleConfig :=
  match sv with
  | SDict items =>
      preset_params <~ _style_preset (of_option style) ;;
      new_StyleConfig (("name", of_option style) :: preset_params ++ items)%list
  | SVal v =>
      preset_params <~ _style_preset (style_or style v) ;;
      new_StyleConfig (("name", style_or style v) :: preset_params)
  end.

(** cli.py: [[x.strip() for x in args.resolutions.split(",") if x.strip()]],
    and [resolutions or ["1080p", "720p"]] in [load_config]. *)
Definition parse_resolutions (option : string) : list string :=
  flat_map (fun x => if is_empty (strip x) then [] else [strip x])
           (split_char "," option).

Definition config_resolutions (resolutions : list string) : list string :=
  if nonempty resolutions then resolutions else ["1080p"; "720p"].

End Config.

(** ** audio.py: the choice of the background track *)

Module Audio.
Import PyFloat PyList Transitions.
Local Open Scope string_scope.

Definition supported : list string := [".mp3"; ".wav"; ".flac"; ".m4a"].

Section Tracks.

(** Paths, with [p.suffix] and [load_audio(p).duration_seconds]. *)
Variable Path : Type.
Variable suffix : Path -> string.
Variable duration_seconds : Path -> float.

(** [p.suffix.lower() in supported] *)
Definition is_supported (p : Path) : bool :=
  existsb (String.eqb (lower (suffix p))) supported.

(** [tracks.sort(key=lambda p: load_audio(p).duration_seconds)]: the sort
    is stable and compares keys with [<]; an element moves behind exactly
    the elements whose key is strictly smaller. *)
Fixpoint insert_by_duration (p : Path) (l : list Path) : list Path :=
  match l with
  | [] => [p]
  | q :: r =>
      if (duration_seconds q <? duration_seconds p)%float
      then q :: insert_by_duration p r
      else p :: l
  end.

Definition sort_by_duration (l : list Path) : list Path :=
  fold_right insert_by_duration [] l.

(** [listing] is [None] when [music_dir] is [None] or does not exist, and
    otherwise what [music_dir.iterdir()] yields, in its order. *)
Definition choose_background_track (listing : option (list Path))
    : option Path :=
  match listing with
  | None => None
  | Some entries =>
      let tracks := filter is_supported entries in
      if negb (nonempty tracks) then None
      else hd_error (sort_by_duration tracks)
  end.

End Tracks.

End Audio.

(** ** enhancements.py: colour correction of one channel value *)

Module Enhancements.
Local Open Scope Z_scope.

(** NumPy's [float32]: binary32 values, with the operations of
    [SpecFloat] at 24 bits of precision. *)
Definition prec32 : Z := 24.
Definition emax32 : Z := 128.

(** A Python float as a [float32] operand, and [astype(np.float32)] of a
    [uint8] value. *)
Definition to_float32 (x : float) : spec_float :=
  match Prim2SF x with
  | S754_finite s m e =>
      binary_normalize prec32 emax32 (cond_Zopp s (Zpos m)) e s
  | f => f
  end.

Definition uint8_to_float32 (v : Z) : spec_float :=
  binary_normalize prec32 emax32 v 0 false.

Definition mul32 : spec_float -> spec_float -> spec_float :=
  SFmul prec32 emax32.
Definition add32 : spec_float -> spec_float -> spec_float :=
  SFadd prec32 emax32.
Definition div32 : spec_float -> spec_float -> spec_float :=
  SFdiv prec32 emax32.

Definition is_nan32 (x : spec_float) : bool :=
  match x with
  | S754_nan => true
  | _ => false
  end.

(** [np.clip(a, lo, hi)], that is [np.minimum(np.maximum(a, lo), hi)];
    both keep a NaN. *)
Definition np_maximum (a b : spec_float) : spec_float :=
  if is_nan32 a then a else if is_nan32 b then b
  else if SFltb a b then b else a.

Definition np_minimum (a b : spec_float) : spec_float :=
  if is_nan32 a then a else if is_nan32 b then b
  else if SFltb b a then b else a.

Definition np_clip (a lo hi : spec_float) : spec_float :=
  np_minimum (np_maximum a lo) hi.

(** [astype("uint8")] of a [float32]: the fraction is dropped; the
    conversion is defined for the values whose integer part lies in
    0 .. 255 only. *)
Definition trunc_uint8 (x : spec_float) : option Z :=
  match x with
  | S754_zero _ => Some 0
  | S754_finite s m e =>
      let z := if 0 <=? e then Zpos m * 2 ^ e else Zpos m / 2 ^ (- e) in
      if s then (if z =? 0 then Some 0 else None)
      else if z <? 256 then Some z else None
  | _ => None
  end.

(** [_fx] of [apply_color_correction] on one channel value [v] of the
    frame:
    [arr = frame.astype(np.float32) / 255.0],
    [arr = np.clip(arr * contrast_gain + exposure_boost, 0.0, 1.0)],
    [(arr * 255.0).astype("uint8")]. *)
Definition _fx (exposure_boost contrast_gain : float) (v : Z) : option Z :=
  let arr := div32 (uint8_to_float32 v) (to_float32 255) in
  let arr := np_clip (add32 (mul32 arr (to_float32 contrast_gain))
                            (to_float32 exposure_boost))
                     (to_float32 0) (to_float32 1) in
  trunc_uint8 (mul32 arr (to_float32 255)).

(** A check of the [n] values from [v] on: each result is defined, at most
    255, at least the value itself and above it unless it is 255, and at
    least [prev], the result for the value before. *)
Fixpoint brightens_from (exposure_boost contrast_gain : float)
    (n : nat) (v prev : Z) : bool :=
  match n with
  | O => true
  | S n' =>
      match _fx exposure_boost contrast_gain v with
      | Some o =>
          (v <=? o) && (prev <=? o) && (o <=? 255) &&
          ((v <? o) || (o =? 255)) &&
          brightens_from exposure_boost contrast_gain n' (v + 1) o
      | None => false
      end
  end.

End Enhancements.

(** ** Stand-ins for text measuring and [int] on the small instance *)

Module DemoText.
Import PyErr PyStr.
Local Open Scope string_scope.

(** A fixed-pitch font, 20 pixels to the character. *)
Definition fixed_pitch (s : string) : Z := 20 * Z.of_nat (String.length s).

(** [int(s)] for strings of decimal digits; every other string is taken
    to denote no integer. *)
Fixpoint digits_value (acc : Z) (s : string) : option Z :=
  match s with
  | EmptyString => Some acc
  | String c r =>
      let n := nat_of_ascii c in
      if ((48 <=? n) && (n <=? 57))%nat
      then digits_value (10 * acc + Z.of_nat (n - 48)) r
      else None
  end.

Definition digits (s : string) : option Z :=
  match s with
  | EmptyString => None
  | String _ _ => digits_value 0 s
  end.

Definition int_of_digits (s : string) : result Z :=
  match digits s with
  | Some z => Ok z
  | None => Raise (ValueError "invalid literal for int()")
  end.

(** A stand-in for MoviePy's file production: it fails exactly for a
    size with a side that is not positive. *)
Definition produce (size : option (Z * Z)) (path : string) : option string :=
  match size with
  | Some (w, h) =>
      if ((w <=? 0) || (h <=? 0))%Z then Some "resize failed" else None
  | None => None
  end.

Definition produce_preview (path : string) : option string := None.

(** A music folder: each file is given by its suffix and its length in
    seconds. *)
Definition track_suffix (p : string * float) : string := fst p.
Definition track_seconds (p : string * float) : float := snd p.

Definition music_folder : list (string * float) :=
  [(".txt", 1); (".MP3", 30); (".wav", 12); (".flac", 12)]%float.

(** An opened capture that reports no usable frame rate. *)
Definition nan_cap : Highlight.VideoCapture float :=
  {| Highlight.isOpened := true; Highlight.CAP_PROP_FPS := nan;
     Highlight.frames := Demo.footage |}.

End DemoText.

(** * Properties *)

(** ** The float order *)

Section FloatOrder.
Import PyFloat.

Lemma SFcompare_rank (f g : spec_float) :
  SFcompare f g =
  match SFrank f, SFrank g with
  | Some a, Some b => Some (lex3 a b)
  | _, _ => None
  end.
Proof.
  destruct f as [s | s | | s m e], g as [s' | s' | | s' m' e'];
    try destruct s; try destruct s'; try reflexivity.
  cbn. rewrite Z.compare_opp, (Z.compare_antisym e e').
  destruct (e ?= e')%Z; reflexivity.
Qed.

Lemma lex3_spec (a b : Z * Z * Z) :
  match lex3 a b with
  | Lt => lex3_lt a b
  | Eq => a = b
  | Gt => lex3_lt b a
  end.
Proof.
  destruct a as [[a1 a2] a3], b as [[b1 b2] b3]; cbn.
  destruct (Z.compare_spec a1 b1); [ | lia | lia].
  destruct (Z.compare_spec a2 b2); [ | lia | lia].
  destruct (Z.compare_spec a3 b3); [ | lia | lia].
  congruence.
Qed.

Lemma leb_rank (x y : float) :
  (x <=? y)%float = true <->
  exists a b, rank x = Some a /\ rank y = Some b /\ lex3_le a b.
Proof.
  rewrite FloatAxioms.leb_spec. unfold SFleb, rank. rewrite SFcompare_rank.
  destruct (SFrank (Prim2SF x)) as [a|], (SFrank (Prim2SF y)) as [b|].
  2-4: split; [discriminate | intros (? & ? & ? & ? & _); discriminate].
  pose proof (lex3_spec a b) as H.
  destruct a as [[a1 a2] a3], b as [[b1 b2] b3].
  split.
  - intros E. exists (a1, a2, a3), (b1, b2, b3). repeat split.
    destruct (lex3 _ _); try discriminate; cbn in *.
    + injection H as -> -> ->. lia.
    + lia.
  - intros (a' & b' & [= <-] & [= <-] & L).
    destruct (lex3 _ _); try reflexivity. cbn in *. lia.
Qed.

Lemma ltb_rank (x y : float) :
  (x <? y)%float = true <->
  exists a b, rank x = Some a /\ rank y = Some b /\ lex3_lt a b.
Proof.
  rewrite FloatAxioms.ltb_spec. unfold SFltb, rank. rewrite SFcompare_rank.
  destruct (SFrank (Prim2SF x)) as [a|], (SFrank (Prim2SF y)) as [b|].
  2-4: split; [discriminate | intros (? & ? & ? & ? & _); discriminate].
  pose proof (lex3_spec a b) as H.
  destruct a as [[a1 a2] a3], b as [[b1 b2] b3].
  split.
  - intros E. exists (a1, a2, a3), (b1, b2, b3). repeat split.
    destruct (lex3 _ _); try discriminate; cbn in *. lia.
  - intros (a' & b' & [= <-] & [= <-] & L).
    destruct (lex3 _ _); try reflexivity; cbn in *.
    + injection H as -> -> ->. lia.
    + lia.
Qed.

Lemma eqb_rank (x y : float) :
  (x =? y)%float = true <->
  exists a, rank x = Some a /\ rank y = Some a.
Proof.
  rewrite FloatAxioms.eqb_spec. unfold SFeqb, rank. rewrite SFcompare_rank.
  destruct (SFrank (Prim2SF x)) as [a|], (SFrank (Prim2SF y)) as [b|].
  2-4: split; [discriminate | intros (? & ? & ?); discriminate].
  pose proof (lex3_spec a b) as H.
  destruct a as [[a1 a2] a3], b as [[b1 b2] b3].
  split.
  - intros E. destruct (lex3 _ _); try discriminate.
    exists (a1, a2, a3). split; congruence.
  - intros (a' & [= <-] & [= <- <- <-]).
    destruct (lex3 _ _); try reflexivity; cbn in *; lia.
Qed.

Lemma is_nan_rank (x : float) : is_nan x = true <-> rank x = None.
Proof.
  unfold is_nan. rewrite negb_true_iff, <- not_true_iff_false, eqb_rank.
  destruct (rank x) as [a|].
  - split; [intros H; exfalso; apply H; eauto | discriminate].
  - split; [reflexivity | intros _ (a & E & _); discriminate].
Qed.

Lemma not_nan_rank (x : float) :
  is_nan x = false <-> exists a, rank x = Some a.
Proof.
  rewrite <- not_true_iff_false, is_nan_rank.
  destruct (rank x) as [a|].
  - split; [eauto | discriminate].
  - split; [congruence | intros (a & E); discriminate].
Qed.

Ltac lex3_lia :=
  repeat match goal with
         | a : (Z * Z * Z)%type |- _ => destruct a as [[? ?] ?]
         | H : Some _ = Some _ |- _ => injection H as ? ? ?; subst
         end;
  cbn in *; lia.

(** [<=?] is a total preorder on the values that are not NaN. *)
Lemma leb_trans (x y z : float) :
  (x <=? y)%float = true -> (y <=? z)%float = true -> (x <=? z)%float = true.
Proof.
  rewrite !leb_rank.
  intros (a & b & Ea & Eb & L1) (b' & c & Eb' & Ec & L2).
  rewrite Eb in Eb'. exists a, c. repeat split; trivial. lex3_lia.
Qed.

Lemma leb_not_nan (x y : float) :
  (x <=? y)%float = true -> is_nan x = false /\ is_nan y = false.
Proof.
  rewrite leb_rank, !not_nan_rank. intros (a & b & Ea & Eb & _). eauto.
Qed.

Lemma leb_refl (x : float) : is_nan x = false -> (x <=? x)%float = true.
Proof.
  rewrite not_nan_rank, leb_rank. intros (a & E).
  exists a, a. repeat split; trivial. lex3_lia.
Qed.

Lemma ltb_leb (x y : float) :
  (x <? y)%float = true -> (x <=? y)%float = true.
Proof.
  rewrite ltb_rank, leb_rank. intros (a & b & Ea & Eb & L).
  exists a, b. repeat split; trivial. lex3_lia.
Qed.

(** Away from NaN, "not below" is "at least". *)
Lemma ltb_false_leb (x y : float) :
  is_nan x = false -> is_nan y = false ->
  (x <? y)%float = false -> (y <=? x)%float = true.
Proof.
  rewrite !not_nan_rank, <- not_true_iff_false, ltb_rank, leb_rank.
  intros (a & Ea) (b & Eb) N. exists b, a. repeat split; trivial.
  assert (~ lex3_lt a b) as N' by (intros L; apply N; eauto).
  clear N. lex3_lia.
Qed.

Lemma leb_ltb_false (x y : float) :
  (x <=? y)%float = true -> (y <? x)%float = false.
Proof.
  rewrite <- not_true_iff_false, ltb_rank, leb_rank.
  intros (a & b & Ea & Eb & L) (b' & a' & Eb' & Ea' & L').
  rewrite Ea in Ea'. rewrite Eb in Eb'. lex3_lia.
Qed.

Lemma ltb_eqb_false (v x y : float) :
  (x <? y)%float = true -> (x =? v)%float = true -> (y =? v)%float = false.
Proof.
  rewrite <- not_true_iff_false, ltb_rank, !eqb_rank.
  intros (a & b & Ea & Eb & L) (a' & Ea' & Ev) (b' & Eb' & Ev').
  rewrite Ea in Ea'. rewrite Eb in Eb'. rewrite Ev in Ev'. lex3_lia.
Qed.

Lemma leb_antisym_eqb (x y : float) :
  (x <=? y)%float = true -> (y <=? x)%float = true -> (x =? y)%float = true.
Proof.
  rewrite !leb_rank, eqb_rank.
  intros (a & b & Ea & Eb & L) (b' & a' & Eb' & Ea' & L').
  rewrite Ea in Ea'. rewrite Eb in Eb'. exists a. split; [trivial|].
  rewrite Eb. f_equal.
  destruct a as [[a1 a2] a3], b as [[b1 b2] b3].
  injection Ea' as <-. injection Eb' as <-.
  cbn in L, L'. f_equal; [f_equal|]; lia.
Qed.

End FloatOrder.

(** ** Slices and neighbours *)

Section Slices.
Import PyList.

Lemma py_slice_all_but_last {A : Type} (l : list A) :
  py_slice l None (Some (-1)%Z) = removelast l.
Proof.
  unfold py_slice, adjust_index. cbn [Z.ltb Z.compare]. cbn [skipn Z.to_nat].
  rewrite removelast_firstn_len. f_equal. lia.
Qed.

Lemma py_slice_from_1 {A : Type} (l : list A) :
  py_slice l (Some 1%Z) None = tl l.
Proof.
  unfold py_slice, adjust_index. cbn [Z.ltb Z.compare].
  destruct l as [|a r]; [reflexivity|].
  replace (Z.min 1 (Z.of_nat (length (a :: r)))) with 1%Z by (cbn [length]; lia).
  change (Z.to_nat 1) with 1%nat. cbn [skipn tl].
  rewrite firstn_all2; [reflexivity | cbn [length]; lia].
Qed.

Lemma py_slice_nil {A : Type} (lo hi : option Z) :
  py_slice (@nil A) lo hi = [].
Proof.
  unfold py_slice. now rewrite skipn_nil, firstn_nil.
Qed.

Lemma py_slice_prefix {A : Type} (l : list A) (k : Z) :
  (0 <= k)%Z -> py_slice l None (Some k) = firstn (Z.to_nat k) l.
Proof.
  intros Hk. unfold py_slice, adjust_index.
  destruct (Z.ltb_spec k 0); [lia|]. cbn [Z.to_nat skipn].
  rewrite Z.sub_0_r.
  destruct (Z.le_ge_cases k (Z.of_nat (length l))).
  - now rewrite Z.min_l.
  - rewrite Z.min_r by trivial. rewrite Nat2Z.id.
    rewrite !firstn_all2; trivial; lia.
Qed.

Lemma combine_removelast_tl {A : Type} (a : A) (l : list A) :
  combine (removelast (a :: l)) l = links a l.
Proof.
  revert a. induction l as [|b r IH]; intros a; [reflexivity|].
  change (removelast (a :: b :: r)) with (a :: removelast (b :: r)).
  cbn [combine links]. now rewrite IH.
Qed.

Lemma neighbours_cons {A : Type} (a : A) (l : list A) :
  neighbours (a :: l) = links a l.
Proof.
  unfold neighbours. rewrite py_slice_all_but_last, py_slice_from_1.
  apply combine_removelast_tl.
Qed.

End Slices.

(** ** Scene boundaries (C1) *)

Section SceneBoundaries.
Import PyList Highlight.
Local Open Scope Z_scope.

Variables Frame Gray Hist : Type.
Variable cvtColor : Frame -> Gray.
Variable calcHist : Gray -> Hist.
Variable compareHist : Hist -> Hist -> float.
Variable flow_magnitude : Gray -> Gray -> float.

Abbreviation LoopState := (LoopState Gray Hist).
Abbreviation loop_inv := (@loop_inv Gray Hist).
Abbreviation loop_body := (loop_body cvtColor calcHist compareHist flow_magnitude).
Abbreviation run_loop := (run_loop cvtColor calcHist compareHist flow_magnitude).
Abbreviation scene_boundaries :=
  (scene_boundaries cvtColor calcHist compareHist flow_magnitude).

Lemma between_weaken (lo : Z) (cuts : list Z) (hi hi' : Z) :
  hi <= hi' -> between lo cuts hi -> between lo cuts hi'.
Proof.
  intros Hh. revert lo.
  induction cuts as [|c r IH]; intros lo; cbn; [trivial|].
  intros (H1 & H2 & H3). repeat split; [lia .. | auto].
Qed.

Lemma between_snoc (lo : Z) (cuts : list Z) (k : Z) :
  lo < k -> between lo cuts k -> between lo (cuts ++ [k]) (k + 1).
Proof.
  revert lo. induction cuts as [|c r IH]; intros lo Hk; cbn.
  - intros _. repeat split; lia.
  - intros (H1 & H2 & H3). repeat split; [lia .. | auto].
Qed.

Lemma between_tight (lo : Z) (cuts : list Z) (n : Z) :
  between lo cuts (Z.max (lo + 1) n) -> between lo cuts n.
Proof.
  destruct (Z.le_gt_cases (lo + 1) n) as [H|H].
  - now rewrite Z.max_r.
  - rewrite Z.max_l by lia. destruct cuts as [|c r]; cbn; [trivial | lia].
Qed.

Lemma loop_inv_init : loop_inv loop_init.
Proof.
  repeat split; cbn; try lia; [congruence|]. now exists [].
Qed.

Lemma loop_inv_body (st : LoopState) (f : Frame) :
  loop_inv st -> loop_inv (loop_body st f).
Proof.
  intros (H0 & Hp & cuts & Hs & Hb).
  unfold loop_inv, loop_body; cbn [frame_idx prev_hist scenes].
  split; [lia|]. split; [lia|].
  destruct (prev_hist st) as [ph|] eqn:E.
  - assert (1 <= frame_idx st) as H1 by (apply Hp; congruence).
    rewrite Z.max_r in Hb by trivial. rewrite Z.max_r by lia.
    destruct (PrimFloat.ltb _ _).
    + exists (cuts ++ [frame_idx st]). rewrite Hs. split; [reflexivity|].
      apply between_snoc; [lia | trivial].
    + exists cuts. split; [trivial|]. apply between_weaken with (2 := Hb). lia.
  - exists cuts. split; [trivial|]. apply between_weaken with (2 := Hb). lia.
Qed.

Lemma fold_loop_inv (fs : list Frame) (st : LoopState) :
  loop_inv st -> loop_inv (fold_left loop_body fs st).
Proof.
  revert st. induction fs as [|f r IH]; intros st H; cbn; [trivial|].
  apply IH, loop_inv_body, H.
Qed.

Lemma fold_frame_idx (fs : list Frame) (st : LoopState) :
  frame_idx (fold_left loop_body fs st) = frame_idx st + Z.of_nat (length fs).
Proof.
  revert st. induction fs as [|f r IH]; intros st; cbn [fold_left length].
  - lia.
  - rewrite IH. cbn [loop_body frame_idx]. lia.
Qed.

Lemma run_loop_frame_idx (fs : list Frame) :
  frame_idx (run_loop fs) = Z.of_nat (length fs).
Proof.
  unfold Highlight.run_loop. rewrite fold_frame_idx. reflexivity.
Qed.

(** The boundary list is [0], the cuts in increasing order, the frame count. *)
Lemma scene_boundaries_shape (fs : list Frame) :
  exists cuts,
    scene_boundaries fs = 0 :: cuts ++ [Z.of_nat (length fs)] /\
    between 0 cuts (Z.of_nat (length fs)).
Proof.
  destruct (fold_loop_inv fs _ loop_inv_init) as (_ & _ & cuts & Hs & Hb).
  fold (run_loop fs) in Hs, Hb. rewrite run_loop_frame_idx in Hb.
  exists cuts. split.
  - unfold Highlight.scene_boundaries. cbv zeta.
    now rewrite Hs, run_loop_frame_idx.
  - now apply between_tight.
Qed.

Lemma tiling_links (a : Z) (cuts : list Z) (n : Z) :
  a <= n -> between a cuts n -> tiling a n (links a (cuts ++ [n])).
Proof.
  revert a. induction cuts as [|c r IH]; intros a Ha; cbn.
  - intros _. now constructor.
  - intros (H1 & H2 & H3). constructor; [trivial|]. apply IH; [lia | trivial].
Qed.

Lemma tiling_bounds (a b : Z) (l : list (Z * Z)) :
  tiling a b l -> Forall (fun p => a <= fst p /\ fst p <= snd p /\ snd p <= b) l.
Proof.
  induction 1 as [a b H | a m b l H T IH].
  - constructor; [cbn; lia | constructor].
  - assert (m <= b) as Hm.
    { inversion T; subst; inversion IH; subst; cbn in *; lia. }
    constructor; [cbn; lia|].
    apply Forall_impl with (2 := IH). intros p. lia.
Qed.

Lemma tiling_disjoint (a b : Z) (l : list (Z * Z)) :
  tiling a b l -> ForallOrdPairs disjoint_in_order l.
Proof.
  induction 1 as [a b H | a m b l H T IH].
  - repeat constructor.
  - constructor; [|trivial].
    apply Forall_impl with (2 := tiling_bounds _ _ _ T).
    intros p. unfold disjoint_in_order; cbn. lia.
Qed.

Lemma tiling_cover (a b : Z) (l : list (Z * Z)) (i : Z) :
  tiling a b l -> a <= i < b ->
  exists s e, In (s, e) l /\ s <= i < e.
Proof.
  induction 1 as [a b H | a m b l H T IH]; intros Hi.
  - exists a, b. split; [now left | trivial].
  - destruct (Z.lt_ge_cases i m) as [L|G].
    + exists a, m. split; [now left | lia].
    + destruct IH as (s & e & Hin & Hse); [lia|].
      exists s, e. split; [now right | trivial].
Qed.

(** The scenes tile the frame range. *)
Lemma scenes_tiling (fs : list Frame) :
  tiling 0 (Z.of_nat (length fs)) (neighbours (scene_boundaries fs)).
Proof.
  destruct (scene_boundaries_shape fs) as (cuts & Hb & Hc).
  rewrite Hb, neighbours_cons. apply tiling_links; [lia | trivial].
Qed.

(** C1. For every sequence of frames the loop reads, the boundary list
    starts with 0 and ends with the number of frames; the scenes, the pairs
    of neighbouring boundaries, follow one another from 0 to the frame
    count, each starting where the one before ends; they are pairwise
    non-overlapping, and every frame index lies in one of them. *)
Theorem scene_boundaries_partition (fs : list Frame) :
  let n := Z.of_nat (length fs) in
  let bounds := scene_boundaries fs in
  hd_error bounds = Some 0 /\
  last bounds 0 = n /\
  tiling 0 n (neighbours bounds) /\
  ForallOrdPairs disjoint_in_order (neighbours bounds) /\
  (forall i, 0 <= i < n ->
     exists s e, In (s, e) (neighbours bounds) /\ s <= i < e).
Proof.
  intros n bounds.
  destruct (scene_boundaries_shape fs) as (cuts & Hb & Hc).
  fold n in Hb, Hc. fold bounds in Hb.
  pose proof (scenes_tiling fs) as T. fold n bounds in T.
  rewrite Hb at 1 2. repeat split.
  - change (0 :: cuts ++ [n]) with ((0 :: cuts) ++ [n]). apply last_last.
  - exact T.
  - exact (tiling_disjoint _ _ _ T).
  - intros i Hi. exact (tiling_cover _ _ _ i T Hi).
Qed.

End SceneBoundaries.

(** ** The sort by score (C3) *)

Section SortByScore.
Import PyFloat PyList Highlight.

Lemma insert_by_score_perm (h : Highlight) (l : list Highlight) :
  Permutation (insert_by_score h l) (h :: l).
Proof.
  induction l as [|h' r IH]; cbn; [reflexivity|].
  destruct (score h <? score h')%float; [|reflexivity].
  rewrite IH. apply perm_swap.
Qed.

Lemma sort_by_score_desc_perm (l : list Highlight) :
  Permutation (sort_by_score_desc l) l.
Proof.
  induction l as [|h r IH]; cbn; [reflexivity|].
  fold (sort_by_score_desc r). rewrite insert_by_score_perm. now constructor.
Qed.

Lemma sort_by_score_desc_In (l : list Highlight) (h : Highlight) :
  In h (sort_by_score_desc l) <-> In h l.
Proof.
  split; apply Permutation_in;
    [|symmetry]; apply sort_by_score_desc_perm.
Qed.

#[local] Instance score_ge_trans : RelationClasses.Transitive score_ge.
Proof.
  intros a b c Hab Hbc. unfold score_ge in *. eapply leb_trans; eassumption.
Qed.

Lemma insert_by_score_hd (x h : Highlight) (l : list Highlight) :
  score_ge x h -> HdRel score_ge x l -> HdRel score_ge x (insert_by_score h l).
Proof.
  intros Hxh Hl. destruct l as [|h' r]; cbn; [now constructor|].
  destruct (score h <? score h')%float; constructor; trivial.
  now inversion Hl.
Qed.

Lemma insert_by_score_sorted (h : Highlight) (l : list Highlight) :
  is_nan (score h) = false ->
  Forall (fun x => is_nan (score x) = false) l ->
  Sorted score_ge l -> Sorted score_ge (insert_by_score h l).
Proof.
  intros Hh Hl Hs. induction Hs as [|h' r Hr IH Hd]; cbn.
  - repeat constructor.
  - inversion Hl as [|? ? Hh' Hr']; subst.
    destruct (score h <? score h')%float eqn:E.
    + constructor; [auto|].
      apply insert_by_score_hd; [|trivial].
      now apply ltb_leb.
    + constructor; [now constructor|]. constructor.
      now apply ltb_false_leb.
Qed.

Lemma sort_by_score_desc_sorted (l : list Highlight) :
  Forall (fun x => is_nan (score x) = false) l ->
  StronglySorted score_ge (sort_by_score_desc l).
Proof.
  intros Hl. apply Sorted_StronglySorted; [exact score_ge_trans|].
  induction Hl as [|h r Hh Hr IH]; cbn; [constructor|].
  fold (sort_by_score_desc r). apply insert_by_score_sorted; trivial.
  apply Forall_forall. intros x Hx.
  apply (proj1 (sort_by_score_desc_In _ _)) in Hx.
  exact (proj1 (Forall_forall _ _) Hr x Hx).
Qed.

(** The sort is stable: the highlights of any one score keep their order. *)
Lemma insert_by_score_stable (v : float) (h : Highlight) (l : list Highlight) :
  filter (has_score v) (insert_by_score h l) = filter (has_score v) (h :: l).
Proof.
  induction l as [|h' r IH]; [reflexivity|].
  cbn [insert_by_score].
  destruct (score h <? score h')%float eqn:E; [|reflexivity].
  cbn [filter] in *. rewrite IH.
  destruct (has_score v h) eqn:Ev; [|reflexivity].
  unfold has_score in *. now rewrite (ltb_eqb_false _ _ _ E Ev).
Qed.

Lemma sort_by_score_desc_stable (v : float) (l : list Highlight) :
  filter (has_score v) (sort_by_score_desc l) = filter (has_score v) l.
Proof.
  induction l as [|h r IH]; [reflexivity|].
  cbn [sort_by_score_desc fold_right]. fold (sort_by_score_desc r).
  rewrite insert_by_score_stable. cbn [filter]. now rewrite IH.
Qed.

(** Any stable arrangement by falling score is the one the model computes:
    two lists with the same elements, both sorted by score, in which the
    highlights of every score come in the same order, are equal. *)
Lemma stable_sorted_unique (l1 l2 : list Highlight) :
  Forall (fun x => is_nan (score x) = false) l1 ->
  Permutation l1 l2 ->
  StronglySorted score_ge l1 -> StronglySorted score_ge l2 ->
  (forall v, filter (has_score v) l1 = filter (has_score v) l2) ->
  l1 = l2.
Proof.
  revert l2. induction l1 as [|x r1 IH]; intros l2 Hn P S1 S2 F.
  - now apply Permutation_nil in P.
  - destruct l2 as [|y r2].
    { apply Permutation_sym, Permutation_nil in P. discriminate. }
    inversion Hn as [|? ? Hx Hr]; subst.
    inversion S1 as [|? ? S1' G1]; subst.
    inversion S2 as [|? ? S2' G2]; subst.
    assert (score_ge x y) as Gxy.
    { assert (In y (x :: r1)) as I
        by (apply (Permutation_in _ (Permutation_sym P)); now left).
      destruct I as [<-|I]; [now apply leb_refl|].
      exact (proj1 (Forall_forall _ _) G1 y I). }
    assert (score_ge y x) as Gyx.
    { assert (In x (y :: r2)) as I by (apply (Permutation_in _ P); now left).
      destruct I as [<-|I]; [now apply leb_refl|].
      exact (proj1 (Forall_forall _ _) G2 x I). }
    unfold score_ge in Gxy, Gyx.
    pose proof (F (score x)) as Fx. cbn [filter] in Fx. unfold has_score in Fx.
    rewrite (leb_antisym_eqb _ _ Gxy Gyx) in Fx.
    rewrite (leb_antisym_eqb _ _ (leb_refl _ Hx) (leb_refl _ Hx)) in Fx.
    injection Fx as <- _.
    f_equal. apply IH; trivial.
    + now apply Permutation_cons_inv in P.
    + intros v. specialize (F v). cbn [filter] in F.
      destruct (has_score v x); [now injection F | trivial].
Qed.

End SortByScore.

(** ** Scoring, filtering and ranking (C3, C5, C6, C7) *)

Section DetectFacts.
Import PyErr PyFloat PyList Highlight.

Variables Frame Gray Hist : Type.
Variable cvtColor : Frame -> Gray.
Variable calcHist : Gray -> Hist.
Variable compareHist : Hist -> Hist -> float.
Variable flow_magnitude : Gray -> Gray -> float.
Variable np_mean : list float -> float.

Abbreviation run_loop' := (run_loop cvtColor calcHist compareHist flow_magnitude).
Abbreviation scene_boundaries' :=
  (scene_boundaries cvtColor calcHist compareHist flow_magnitude).
Abbreviation scene_highlight' := (scene_highlight np_mean).
Abbreviation kept_highlight' := (kept_highlight np_mean).
Abbreviation collect_highlights' := (collect_highlights np_mean).
Abbreviation highlights_before_sort' :=
  (highlights_before_sort cvtColor calcHist compareHist flow_magnitude np_mean).
Abbreviation detect_outcome :=
  (detect_outcome cvtColor calcHist compareHist flow_magnitude np_mean).
Abbreviation detect_scenes_and_highlights' :=
  (detect_scenes_and_highlights
     cvtColor calcHist compareHist flow_magnitude np_mean).

Lemma scene_highlight_kept (fps mn thr : float) (motion : list float)
    (se : Z * Z) :
  (fps =? 0)%float = false ->
  scene_highlight' fps mn thr motion se =
  Ok (kept_highlight' fps mn thr motion se).
Proof.
  intros Hf. destruct se as [s e].
  unfold scene_highlight, kept_highlight, truediv_int. rewrite Hf.
  cbn [bind].
  destruct (_ <? mn)%float; [reflexivity|].
  now destruct (_ <=? _)%float.
Qed.

Lemma scene_highlight_zero_fps (fps mn thr : float) (motion : list float)
    (se : Z * Z) :
  (fps =? 0)%float = true ->
  scene_highlight' fps mn thr motion se = Raise ZeroDivisionError.
Proof.
  intros Hf. destruct se as [s e].
  unfold scene_highlight, truediv_int. now rewrite Hf.
Qed.

Lemma fold_for_body_kept (fps mn thr : float) (motion : list float)
    (l : list (Z * Z)) (acc : list Highlight) :
  (fps =? 0)%float = false ->
  fold_left
    (fun acc se => highlights <- acc ;;
                   for_body np_mean fps mn thr motion highlights se)
    l (Ok acc) =
  Ok (acc ++ flat_map
        (fun se => option_list (kept_highlight' fps mn thr motion se)) l).
Proof.
  intros Hf. revert acc.
  induction l as [|se r IH]; intros acc; cbn [fold_left flat_map].
  - now rewrite app_nil_r.
  - cbn [bind]. unfold for_body at 2.
    rewrite scene_highlight_kept by trivial. cbn [bind].
    rewrite IH.
    destruct (kept_highlight' fps mn thr motion se); cbn [option_list].
    + now rewrite <- app_assoc.
    + reflexivity.
Qed.

Lemma fold_raise {A B : Type} (f : result A -> B -> result A)
    (l : list B) (e : exn) :
  (forall b, f (Raise e) b = Raise e) ->
  fold_left f l (Raise e) = Raise e.
Proof.
  intros Hf. induction l as [|b r IH]; cbn [fold_left]; [reflexivity|].
  now rewrite Hf.
Qed.

(** With a frame rate that is not zero the [for] loop raises nothing and
    keeps what [kept_highlight] keeps, in scene order. *)
Lemma collect_highlights_kept (fps mn thr : float) (motion : list float)
    (bounds : list Z) :
  (fps =? 0)%float = false ->
  collect_highlights' fps mn thr motion bounds =
  Ok (flat_map (fun se => option_list (kept_highlight' fps mn thr motion se))
        (neighbours bounds)).
Proof.
  intros Hf. unfold collect_highlights. now rewrite fold_for_body_kept.
Qed.

(** With a frame rate of zero the first division raises. *)
Lemma collect_highlights_zero_fps (fps mn thr : float) (motion : list float)
    (a b : Z) (r : list Z) :
  (fps =? 0)%float = true ->
  collect_highlights' fps mn thr motion (a :: b :: r) =
  Raise ZeroDivisionError.
Proof.
  intros Hf. unfold collect_highlights. rewrite neighbours_cons.
  cbn [links fold_left bind]. unfold for_body at 2.
  rewrite scene_highlight_zero_fps by trivial. cbn [bind].
  now apply fold_raise.
Qed.

(** What a kept scene looks like, and why it was kept. *)
Lemma kept_highlight_Some (fps mn thr : float) (motion : list float)
    (s e : Z) (h : Highlight) :
  kept_highlight' fps mn thr motion (s, e) = Some h ->
  h = ((float_of_Z s / fps)%float, (float_of_Z e / fps)%float,
       scene_score np_mean motion s e) /\
  (end_sec h - start_sec h <? mn)%float = false /\
  (thr * threshold_scale <=? score h)%float = true.
Proof.
  unfold kept_highlight.
  destruct (_ <? mn)%float eqn:Ed; [discriminate|].
  destruct (_ <=? _)%float eqn:Es; [|discriminate].
  intros [= <-]. auto.
Qed.

(** The function returns the sorted list of the kept highlights, unless the
    capture opened and the frame rate in use is zero: then it raises. *)
Lemma detect_returns (cap : VideoCapture Frame) (mn thr fb : float) :
  isOpened cap = false \/ (effective_fps cap fb =? 0)%float = false ->
  detect_scenes_and_highlights' cap mn thr fb =
  Ok (sort_by_score_desc (highlights_before_sort' cap mn thr fb)).
Proof.
  unfold detect_scenes_and_highlights, highlights_before_sort.
  destruct (isOpened cap); cbn [negb]; [|reflexivity].
  intros [H|H]; [discriminate|].
  now rewrite collect_highlights_kept.
Qed.

Lemma detect_zero_fps (cap : VideoCapture Frame) (mn thr fb : float) :
  isOpened cap = true -> (effective_fps cap fb =? 0)%float = true ->
  detect_scenes_and_highlights' cap mn thr fb = Raise ZeroDivisionError.
Proof.
  intros Ho Hf. unfold detect_scenes_and_highlights. rewrite Ho. cbn [negb].
  destruct (scene_boundaries_shape Frame Gray Hist cvtColor calcHist
              compareHist flow_magnitude (frames cap)) as (cuts & Hb & _).
  unfold scene_boundaries in Hb. cbv zeta in Hb. rewrite Hb.
  destruct cuts as [|c r]; cbn [app];
    now rewrite collect_highlights_zero_fps.
Qed.

Lemma detect_cases (cap : VideoCapture Frame) (mn thr fb : float) :
  detect_outcome cap mn thr fb (detect_scenes_and_highlights' cap mn thr fb).
Proof.
  destruct (isOpened cap) eqn:Ho.
  - destruct (effective_fps cap fb =? 0)%float eqn:Hf.
    + rewrite detect_zero_fps by trivial. now constructor.
    + rewrite detect_returns by auto. constructor. auto.
  - rewrite detect_returns by auto. constructor. auto.
Qed.

Lemma highlights_before_sort_In (cap : VideoCapture Frame) (mn thr fb : float)
    (h : Highlight) :
  In h (highlights_before_sort' cap mn thr fb) <->
  isOpened cap = true /\
  exists se, In se (neighbours (scene_boundaries' (frames cap))) /\
             kept_highlight' (effective_fps cap fb) mn thr
               (motion_scores (run_loop' (frames cap))) se = Some h.
Proof.
  unfold highlights_before_sort. destruct (isOpened cap); cbn [negb].
  - rewrite in_flat_map. split.
    + intros (se & Hin & H). split; [reflexivity|]. exists se. split; [trivial|].
      destruct (kept_highlight' _ _ _ _ se) as [h'|]; cbn in H.
      * destruct H as [->|[]]. reflexivity.
      * destruct H.
    + intros (_ & se & Hin & H). exists se. split; [trivial|].
      rewrite H. now left.
  - split; [intros [] | intros [? _]; discriminate].
Qed.

Lemma highlights_before_sort_not_nan (cap : VideoCapture Frame)
    (mn thr fb : float) :
  Forall (fun h => is_nan (score h) = false)
         (highlights_before_sort' cap mn thr fb).
Proof.
  apply Forall_forall. intros h Hin.
  apply highlights_before_sort_In in Hin.
  destruct Hin as (_ & [s e] & _ & Hse).
  apply kept_highlight_Some in Hse. destruct Hse as (_ & _ & Hs).
  now apply leb_not_nan in Hs.
Qed.

(** C3. For every input, when the function returns a list (it raises only
    [ZeroDivisionError], and only for an opened capture with a frame rate of
    zero in use), the list is sorted by score, highest first; it holds the
    same highlights as the list the scene loop built, and the highlights of
    any one score are in the order in which that loop, which runs through
    the scenes in order, appended them. These three properties leave one
    list only, so the result does not depend on how the sort proceeds. *)
Theorem highlights_sorted_by_score_stable
    (cap : VideoCapture Frame) (mn thr fb : float) :
  match detect_scenes_and_highlights' cap mn thr fb with
  | Ok out =>
      let before := highlights_before_sort' cap mn thr fb in
      StronglySorted score_ge out /\
      Permutation out before /\
      (forall v, filter (has_score v) out = filter (has_score v) before) /\
      (forall l,
         Permutation l before -> StronglySorted score_ge l ->
         (forall v, filter (has_score v) l = filter (has_score v) before) ->
         l = out) /\
      before =
        (if isOpened cap
         then flat_map
                (fun se => option_list
                   (kept_highlight' (effective_fps cap fb) mn thr
                      (motion_scores (run_loop' (frames cap))) se))
                (neighbours (scene_boundaries' (frames cap)))
         else [])
  | Raise e =>
      e = ZeroDivisionError /\ isOpened cap = true /\
      (effective_fps cap fb =? 0)%float = true
  end.
Proof.
  destruct (detect_cases cap mn thr fb) as [H|Ho Hf]; [|auto].
  cbv zeta.
  pose proof (highlights_before_sort_not_nan cap mn thr fb) as Hn.
  split; [|split; [|split; [|split]]].
  - now apply sort_by_score_desc_sorted.
  - apply sort_by_score_desc_perm.
  - intros v. apply sort_by_score_desc_stable.
  - intros l P S F. apply stable_sorted_unique; trivial.
    + apply Forall_forall. intros x Hx. apply (Permutation_in _ P) in Hx.
      exact (proj1 (Forall_forall _ _) Hn x Hx).
    + rewrite P. symmetry. apply sort_by_score_desc_perm.
    + now apply sort_by_score_desc_sorted.
    + intros v. rewrite F. symmetry. apply sort_by_score_desc_stable.
  - unfold highlights_before_sort. now destruct (isOpened cap).
Qed.

(** C5. Every returned highlight passed both filters: its duration
    [end_sec - start_sec] is not below the minimum scene length, and is at
    least the minimum whenever neither of the two is NaN, and its score is
    at least [motion_threshold * 0.1]. Conversely a scene whose duration is
    below the minimum adds no highlight, whatever its score, and neither
    does a scene that is long enough but scores below the scaled threshold;
    the returned highlights are exactly those the scenes add. *)
Theorem highlights_pass_both_filters
    (cap : VideoCapture Frame) (mn thr fb : float) :
  (forall out h,
     detect_scenes_and_highlights' cap mn thr fb = Ok out -> In h out ->
     (end_sec h - start_sec h <? mn)%float = false /\
     (is_nan mn = false -> is_nan (end_sec h - start_sec h) = false ->
      (mn <=? end_sec h - start_sec h)%float = true) /\
     (thr * threshold_scale <=? score h)%float = true) /\
  (forall fps motion s e,
     (float_of_Z e / fps - float_of_Z s / fps <? mn)%float = true ->
     kept_highlight' fps mn thr motion (s, e) = None) /\
  (forall fps motion s e,
     (scene_score np_mean motion s e <? thr * threshold_scale)%float = true ->
     kept_highlight' fps mn thr motion (s, e) = None) /\
  (forall out h,
     detect_scenes_and_highlights' cap mn thr fb = Ok out ->
     (In h out <->
      isOpened cap = true /\
      exists se, In se (neighbours (scene_boundaries' (frames cap))) /\
                 kept_highlight' (effective_fps cap fb) mn thr
                   (motion_scores (run_loop' (frames cap))) se = Some h)) /\
  (forall fps motion se,
     (fps =? 0)%float = false ->
     scene_highlight' fps mn thr motion se =
     Ok (kept_highlight' fps mn thr motion se)).
Proof.
  assert (forall out h,
            detect_scenes_and_highlights' cap mn thr fb = Ok out ->
            (In h out <-> In h (highlights_before_sort' cap mn thr fb))) as Hin.
  { intros out h E. destruct (detect_cases cap mn thr fb); [|discriminate].
    injection E as <-. apply sort_by_score_desc_In. }
  split; [|split; [|split; [|split]]].
  - intros out h E H. apply (Hin out h E) in H.
    apply highlights_before_sort_In in H. destruct H as (_ & [s e] & _ & Hse).
    apply kept_highlight_Some in Hse. destruct Hse as (_ & Hlt & Hs).
    split; [trivial|]. split; [|trivial].
    intros Hm Hd. now apply ltb_false_leb.
  - intros fps motion s e Hd. unfold kept_highlight. now rewrite Hd.
  - intros fps motion s e Hs. unfold kept_highlight.
    destruct (_ <? mn)%float; [reflexivity|].
    destruct (_ <=? _)%float eqn:E; [|reflexivity].
    apply leb_ltb_false in E. congruence.
  - intros out h E. rewrite (Hin out h E). apply highlights_before_sort_In.
  - intros fps motion se. apply scene_highlight_kept.
Qed.

Lemma select_range_firstn_skipn {A : Type} (l : list A) (i lo hi : Z) :
  select_range i lo hi l =
  firstn (Z.to_nat (hi - Z.max lo i)) (skipn (Z.to_nat (lo - i)) l).
Proof.
  revert i. induction l as [|x r IH]; intros i; cbn [select_range].
  - now rewrite skipn_nil, firstn_nil.
  - rewrite IH.
    destruct (Z.leb_spec lo i) as [Hlo|Hlo]; cbn [andb].
    + replace (Z.to_nat (lo - i)) with 0%nat by lia.
      replace (Z.to_nat (lo - (i + 1))) with 0%nat by lia.
      cbn [skipn]. rewrite Z.max_r by lia. rewrite Z.max_r by lia.
      destruct (Z.ltb_spec i hi) as [Hhi|Hhi].
      * replace (Z.to_nat (hi - i)) with (S (Z.to_nat (hi - (i + 1)))) by lia.
        reflexivity.
      * replace (Z.to_nat (hi - i)) with 0%nat by lia.
        replace (Z.to_nat (hi - (i + 1))) with 0%nat by lia.
        reflexivity.
    + replace (Z.to_nat (lo - i)) with (S (Z.to_nat (lo - (i + 1)))) by lia.
      cbn [skipn]. rewrite !Z.max_l by lia. reflexivity.
Qed.

Lemma py_slice_nonneg {A : Type} (l : list A) (a b : Z) :
  (0 <= a)%Z -> (0 <= b)%Z ->
  py_slice l (Some a) (Some b) =
  firstn (Z.to_nat (b - a)) (skipn (Z.to_nat a) l).
Proof.
  intros Ha Hb. unfold py_slice, adjust_index.
  destruct (Z.ltb_spec a 0); [lia|]. destruct (Z.ltb_spec b 0); [lia|].
  set (len := Z.of_nat (length l)).
  destruct (Z.le_gt_cases len a) as [Hl|Hl].
  - rewrite (Z.min_r a) by trivial.
    rewrite !skipn_all2 by lia. now rewrite !firstn_nil.
  - rewrite (Z.min_l a) by lia.
    destruct (Z.le_gt_cases b len) as [Hbl|Hbl].
    + now rewrite Z.min_l.
    + rewrite Z.min_r by lia.
      rewrite !firstn_all2; trivial; rewrite length_skipn; lia.
Qed.

Lemma seg_motion_range (motion : list float) (s e : Z) :
  (0 <= s)%Z -> seg_motion motion s e = magnitudes_in_range motion s (e - 1).
Proof.
  intros Hs. unfold seg_motion, magnitudes_in_range.
  rewrite select_range_firstn_skipn.
  destruct motion as [|m r]; cbn [nonempty].
  - now rewrite skipn_nil, firstn_nil.
  - rewrite py_slice_nonneg by lia.
    rewrite (Z.max_l s 0) by lia. rewrite Z.sub_0_r.
    f_equal. lia.
Qed.

Lemma select_range_empty {A : Type} (l : list A) (i lo hi : Z) :
  (hi <= lo)%Z -> select_range i lo hi l = [].
Proof.
  intros H. rewrite select_range_firstn_skipn.
  replace (Z.to_nat (hi - Z.max lo i)) with 0%nat by lia. reflexivity.
Qed.

(** C6. For a scene [(s, e)] with [0 <= s] and any motion series, the
    magnitudes that enter the score are those whose index in the series
    falls in [s, e - 1); the score is their mean as NumPy computes it when
    there is at least one, and exactly 0.0 when there is none, which is the
    case when [e - 1 <= s] and when the series is empty. *)
Theorem scene_score_mean_of_range (motion : list float) (s e : Z) :
  (0 <= s)%Z ->
  let seg := magnitudes_in_range motion s (e - 1) in
  seg_motion motion s e = seg /\
  scene_score np_mean motion s e =
    (if nonempty seg then np_mean seg else 0%float) /\
  ((e - 1 <= s)%Z -> seg = [] /\ scene_score np_mean motion s e = 0%float) /\
  (motion = [] -> seg = [] /\ scene_score np_mean motion s e = 0%float).
Proof.
  intros Hs seg. pose proof (seg_motion_range motion s e Hs) as E.
  fold seg in E. unfold scene_score. rewrite E.
  split; [reflexivity|]. split; [reflexivity|]. split.
  - intros He. assert (seg = []) as ->; [|now split].
    apply select_range_empty. lia.
  - intros ->. now split.
Qed.

(** C7. For a capture that did not open the function returns the empty
    list, at once and without raising. The caller goes on with the empty
    list as with any empty detection: without trims its segments are the
    whole clip alone, and with trims they are built from the trims. *)
Theorem unopened_source_yields_no_highlights
    (cap : VideoCapture Frame) (mn thr fb : float) :
  isOpened cap = false ->
  detect_scenes_and_highlights' cap mn thr fb = Ok [] /\
  (forall video top_k,
     Pipeline.build_segments video [] None top_k =
     Ok [Transitions.VideoFileClip video]) /\
  (forall video t ts top_k,
     Pipeline.build_segments video [] (Some (t :: ts)) top_k =
     Pipeline.build_segments video
       (map (fun t => (Pipeline.trim_start t, Pipeline.trim_end t, 1%float))
            (t :: ts))
       None top_k).
Proof.
  intros H. split; [|split].
  - unfold detect_scenes_and_highlights. now rewrite H.
  - intros video top_k.
    unfold Pipeline.build_segments, Pipeline._build_sequence.
    cbn [Pipeline.substitute_trims]. now rewrite py_slice_nil.
  - reflexivity.
Qed.

End DetectFacts.

(** ** Division by a positive frame rate is monotone *)

Section FloatMonotone.
Import PyFloat Binary64.
Local Open Scope Z_scope.

(** *** The number of binary digits *)

Lemma digits2_pos_bounds (p : positive) :
  2 ^ (Z.pos (digits2_pos p) - 1) <= Z.pos p < 2 ^ Z.pos (digits2_pos p).
Proof.
  induction p as [p IH | p IH |]; cbn [digits2_pos].
  - rewrite Pos2Z.inj_succ.
    replace (Z.succ (Z.pos (digits2_pos p)) - 1) with (Z.pos (digits2_pos p)) by lia.
    rewrite Z.pow_succ_r by lia.
    assert (2 ^ Z.pos (digits2_pos p) = 2 * 2 ^ (Z.pos (digits2_pos p) - 1)) as E.
    { rewrite <- Z.pow_succ_r by lia. f_equal. lia. }
    lia.
  - rewrite Pos2Z.inj_succ.
    replace (Z.succ (Z.pos (digits2_pos p)) - 1) with (Z.pos (digits2_pos p)) by lia.
    rewrite Z.pow_succ_r by lia.
    assert (2 ^ Z.pos (digits2_pos p) = 2 * 2 ^ (Z.pos (digits2_pos p) - 1)) as E.
    { rewrite <- Z.pow_succ_r by lia. f_equal. lia. }
    lia.
  - cbn. lia.
Qed.

Lemma Zdigits2_bounds (m : Z) :
  0 < m -> 2 ^ (Zdigits2 m - 1) <= m < 2 ^ Zdigits2 m.
Proof.
  destruct m as [|p|p]; try lia. intros _. apply digits2_pos_bounds.
Qed.

Lemma Zdigits2_nonneg (m : Z) : 0 <= Zdigits2 m.
Proof. destruct m; cbn; lia. Qed.

Lemma Zdigits2_pos (m : Z) : 0 < m -> 0 < Zdigits2 m.
Proof. destruct m; cbn; lia. Qed.

Lemma pow2_lt_inv (a b : Z) : 0 <= b -> 2 ^ a < 2 ^ b -> a < b.
Proof.
  intros Hb H. destruct (Z.lt_ge_cases a b) as [|G]; [trivial|].
  exfalso. assert (2 ^ b <= 2 ^ a) by (apply Z.pow_le_mono_r; lia). lia.
Qed.

Lemma Zdigits2_unique (m d : Z) :
  0 < m -> 2 ^ (d - 1) <= m < 2 ^ d -> Zdigits2 m = d.
Proof.
  intros Hm [H1 H2]. pose proof (Zdigits2_bounds m Hm) as [B1 B2].
  pose proof (Zdigits2_pos m Hm) as Hd.
  assert (0 < d) as Hd'.
  { destruct (Z.lt_ge_cases 0 d); [trivial|]. exfalso.
    destruct (Z.eq_dec d 0) as [->|]; [cbn in H2; lia|].
    rewrite Z.pow_neg_r in H2 by lia. lia. }
  assert (Zdigits2 m - 1 < d) by (apply pow2_lt_inv; lia).
  assert (d - 1 < Zdigits2 m) by (apply pow2_lt_inv; lia).
  lia.
Qed.

Lemma Zdigits2_lt_pow (m d : Z) : 0 <= m -> 0 <= d -> m < 2 ^ d -> Zdigits2 m <= d.
Proof.
  intros Hm Hd H. destruct (Z.eq_dec m 0) as [->|N]; [cbn; lia|].
  pose proof (Zdigits2_bounds m ltac:(lia)) as [B1 _].
  assert (Zdigits2 m - 1 < d) by (apply pow2_lt_inv; lia). lia.
Qed.

Lemma Zdigits2_ge_pow (m d : Z) : 0 <= d -> 2 ^ d <= m -> d + 1 <= Zdigits2 m.
Proof.
  intros Hd H. assert (0 < 2 ^ d) by (apply Z.pow_pos_nonneg; lia).
  pose proof (Zdigits2_bounds m ltac:(lia)) as [_ B2].
  pose proof (Zdigits2_nonneg m).
  assert (d < Zdigits2 m) by (apply pow2_lt_inv; lia). lia.
Qed.


(** *** Shifting right keeps the value located *)

Lemma loc_of_shr_record_of_loc (m : Z) (l : location) :
  loc_of_shr_record (shr_record_of_loc m l) = l.
Proof. destruct l as [|[]]; reflexivity. Qed.

Lemma shr_m_shr_record_of_loc (m : Z) (l : location) :
  shr_m (shr_record_of_loc m l) = m.
Proof. destruct l as [|[]]; reflexivity. Qed.

Lemma located_init (A B : Z) :
  located A B (shr_record_of_loc (A / B) (loc_of A B)).
Proof.
  split; [apply shr_m_shr_record_of_loc | apply loc_of_shr_record_of_loc].
Qed.

Lemma shr_1_m (mrs : shr_record) :
  0 <= shr_m mrs ->
  shr_m (shr_1 mrs) = shr_m mrs / 2 /\
  shr_r (shr_1 mrs) = Z.odd (shr_m mrs) /\
  shr_s (shr_1 mrs) = shr_r mrs || shr_s mrs.
Proof.
  destruct mrs as [m r s]. cbn [shr_m shr_r shr_s]. intros Hm.
  destruct m as [|[p|p|]|p]; try lia; cbn [shr_1 shr_m shr_r shr_s].
  - repeat split.
  - split; [|split; reflexivity]. rewrite Pos2Z.inj_xI.
    replace (2 * Z.pos p + 1) with (1 + Z.pos p * 2) by lia.
    rewrite Z.div_add by lia. reflexivity.
  - split; [|split; reflexivity]. rewrite Pos2Z.inj_xO.
    replace (2 * Z.pos p) with (Z.pos p * 2) by lia.
    now rewrite Z.div_mul by lia.
  - repeat split.
Qed.

Lemma shr_1_located (A B : Z) (mrs : shr_record) :
  0 <= A -> 0 < B -> located A B mrs -> located A (2 * B) (shr_1 mrs).
Proof.
  intros HA HB [Hm Hl].
  assert (0 <= shr_m mrs) as Hm0 by (rewrite Hm; apply Z.div_pos; lia).
  destruct (shr_1_m mrs Hm0) as (E1 & E2 & E3).
  pose proof (Z.div_mod A B ltac:(lia)) as DA.
  pose proof (Z.mod_pos_bound A B HB) as RA.
  pose proof (Z.div_mod (A / B) 2 ltac:(lia)) as DQ.
  pose proof (Z.mod_pos_bound (A / B) 2 ltac:(lia)) as RQ.
  assert (A / (2 * B) = A / B / 2) as Ediv.
  { rewrite (Z.mul_comm 2 B). now rewrite Z.div_div by lia. }
  assert (A mod (2 * B) = (A / B) mod 2 * B + A mod B) as Emod.
  { pose proof (Z.div_mod A (2 * B) ltac:(lia)) as D2. rewrite Ediv in D2. nia. }
  split.
  - rewrite E1, Hm. now rewrite Ediv.
  - unfold loc_of_shr_record. destruct (shr_1 mrs) as [m' r' s'].
    cbn [shr_m shr_r shr_s] in *. subst r' s'.
    unfold loc_of in *. cbv zeta in *. rewrite Emod.
    rewrite Hm. rewrite Zodd_mod.
    destruct mrs as [m r s]. cbn [shr_m shr_r shr_s loc_of_shr_record] in *.
    destruct (Z.eqb_spec (A mod B) 0) as [R0|R0].
    + destruct r, s; try discriminate. cbn [orb].
      destruct (Z.eqb_spec ((A / B) mod 2) 1) as [Q1|Q1].
      * rewrite Q1, R0.
        destruct (Z.eqb_spec (1 * B + 0) 0); [lia|].
        f_equal. symmetry. apply Z.compare_eq_iff. lia.
      * assert ((A / B) mod 2 = 0) as -> by lia. rewrite R0. reflexivity.
    + assert (r || s = true) as -> by (destruct r, s; try discriminate; reflexivity).
      destruct (Z.eqb_spec ((A / B) mod 2) 1) as [Q1|Q1].
      * rewrite Q1.
        destruct (Z.eqb_spec (1 * B + A mod B) 0); [lia|].
        f_equal. symmetry. apply Z.compare_gt_iff. lia.
      * assert ((A / B) mod 2 = 0) as -> by lia.
        destruct (Z.eqb_spec (0 * B + A mod B) 0); [lia|].
        f_equal. symmetry. apply Z.compare_lt_iff. lia.
Qed.

Lemma iter_pos_located (p : positive) (A B : Z) (mrs : shr_record) :
  0 <= A -> 0 < B -> located A B mrs ->
  located A (B * 2 ^ Z.pos p) (iter_pos shr_1 p mrs).
Proof.
  intros HA. revert B mrs.
  induction p as [p IH | p IH |]; intros B mrs HB H; cbn [iter_pos].
  - apply shr_1_located in H; trivial.
    apply IH in H; [|lia]. apply IH in H.
    2:{ assert (0 < 2 ^ Z.pos p) by (apply Z.pow_pos_nonneg; lia). nia. }
    replace (B * 2 ^ Z.pos p~1) with (2 * B * 2 ^ Z.pos p * 2 ^ Z.pos p); [exact H|].
    replace (Z.pos p~1) with (Z.pos p + Z.pos p + 1) by lia.
    rewrite !Z.pow_add_r by lia. rewrite Z.pow_1_r. ring.
  - apply IH in H; [|lia]. apply IH in H.
    2:{ assert (0 < 2 ^ Z.pos p) by (apply Z.pow_pos_nonneg; lia). nia. }
    replace (B * 2 ^ Z.pos p~0) with (B * 2 ^ Z.pos p * 2 ^ Z.pos p); [exact H|].
    replace (Z.pos p~0) with (Z.pos p + Z.pos p) by lia.
    rewrite !Z.pow_add_r by lia. ring.
  - apply shr_1_located in H; trivial.
    replace (B * 2 ^ 1) with (2 * B) by (rewrite Z.pow_1_r; ring). exact H.
Qed.

Lemma shr_located (A B : Z) (mrs : shr_record) (e n : Z) :
  0 <= A -> 0 < B -> 0 <= n -> located A B mrs ->
  snd (shr mrs e n) = e + n /\
  located A (B * 2 ^ n) (fst (shr mrs e n)).
Proof.
  intros HA HB Hn H. destruct n as [|p|p]; try lia; cbn [shr fst snd].
  - split; [lia|]. now rewrite Z.pow_0_r, Z.mul_1_r.
  - split; [reflexivity|]. now apply iter_pos_located.
Qed.


(** *** Rounding to nearest, ties to even *)

Lemma rne_cases (A B : Z) :
  0 < B ->
  let q := A / B in let r := A mod B in
  (2 * r < B /\ rne A B = q) \/
  (2 * r = B /\ rne A B = q + (q mod 2)) \/
  (2 * r > B /\ rne A B = q + 1).
Proof.
  intros HB q r. unfold rne, loc_of. fold r q. cbv zeta.
  pose proof (Z.mod_pos_bound A B HB) as RA. fold r in RA.
  destruct (Z.eqb_spec r 0) as [R0|R0].
  - left. split; [lia | reflexivity].
  - cbn [round_nearest_even].
    destruct (Z.compare_spec (2 * r) B) as [E|L|G].
    + right; left. split; [trivial|].
      rewrite Zeven_mod. 
      pose proof (Z.mod_pos_bound q 2 ltac:(lia)).
      destruct (Z.eqb_spec (q mod 2) 0); lia.
    + left. split; [lia | reflexivity].
    + right; right. split; [lia | reflexivity].
Qed.

Lemma rne_mono (A1 B1 A2 B2 : Z) :
  0 < B1 -> 0 < B2 -> A1 * B2 <= A2 * B1 -> rne A1 B1 <= rne A2 B2.
Proof.
  intros H1 H2 H.
  pose proof (Z.div_mod A1 B1 ltac:(lia)) as D1.
  pose proof (Z.mod_pos_bound A1 B1 H1) as R1.
  pose proof (Z.div_mod A2 B2 ltac:(lia)) as D2.
  pose proof (Z.mod_pos_bound A2 B2 H2) as R2.
  pose proof (Z.mod_pos_bound (A1 / B1) 2 ltac:(lia)) as P1.
  pose proof (Z.mod_pos_bound (A2 / B2) 2 ltac:(lia)) as P2.
  assert (A1 / B1 <= A2 / B2) as Q.
  { destruct (Z.le_gt_cases (A1 / B1) (A2 / B2)) as [|G]; [trivial|]. exfalso.
    assert (B1 * (A2 / B2 + 1) <= A1) as L1 by nia.
    assert (A2 < B2 * (A2 / B2 + 1)) as L2 by lia.
    assert (B1 * (A2 / B2 + 1) * B2 <= A1 * B2) as L3
      by (apply Z.mul_le_mono_nonneg_r; lia).
    assert (A2 * B1 < B2 * (A2 / B2 + 1) * B1) as L4
      by (apply Z.mul_lt_mono_pos_r; lia).
    lia. }
  destruct (Z.eq_dec (A1 / B1) (A2 / B2)) as [E|N].
  - destruct (rne_cases A1 B1 H1) as [[C1 ->]|[[C1 ->]|[C1 ->]]];
      destruct (rne_cases A2 B2 H2) as [[C2 ->]|[[C2 ->]|[C2 ->]]];
      rewrite <- ?E in *; try lia; exfalso; nia.
  - destruct (rne_cases A1 B1 H1) as [[C1 ->]|[[C1 ->]|[C1 ->]]];
      destruct (rne_cases A2 B2 H2) as [[C2 ->]|[[C2 ->]|[C2 ->]]]; lia.
Qed.

Lemma rne_lower (A B k : Z) : 0 < B -> k * B <= A -> k <= rne A B.
Proof.
  intros HB H.
  pose proof (Z.div_mod A B ltac:(lia)) as D.
  pose proof (Z.mod_pos_bound A B HB) as R.
  pose proof (Z.mod_pos_bound (A / B) 2 ltac:(lia)) as P.
  assert (k <= A / B) by (apply Z.div_le_lower_bound; lia).
  destruct (rne_cases A B HB) as [[C ->]|[[C ->]|[C ->]]]; lia.
Qed.

Lemma rne_upper (A B k : Z) : 0 < B -> A <= k * B -> rne A B <= k.
Proof.
  intros HB H.
  pose proof (Z.div_mod A B ltac:(lia)) as D.
  pose proof (Z.mod_pos_bound A B HB) as R.
  pose proof (Z.mod_pos_bound (A / B) 2 ltac:(lia)) as P.
  destruct (rne_cases A B HB) as [[C ->]|[[C ->]|[C ->]]]; nia.
Qed.


(** *** [binary_round_aux] on a located value *)

Lemma fexp64_eq (e : Z) : fexp64 e = Z.max (e - 53) (-1074).
Proof. reflexivity. Qed.


Lemma pow2_pos (k : Z) : 0 <= k -> 0 < 2 ^ k.
Proof. intros. apply Z.pow_pos_nonneg; lia. Qed.

Lemma located_lt_pow (A B : Z) :
  0 <= A -> 0 < B -> A < 2 ^ Zdigits2 (A / B) * B.
Proof.
  intros HA HB.
  pose proof (Z.div_mod A B ltac:(lia)) as D.
  pose proof (Z.mod_pos_bound A B HB) as R.
  assert (0 <= A / B) as Q by (apply Z.div_pos; lia).
  destruct (Z.eq_dec (A / B) 0) as [E|N].
  - rewrite E in *. change (Zdigits2 0) with 0. rewrite Z.pow_0_r. lia.
  - pose proof (Zdigits2_bounds (A / B) ltac:(lia)) as [_ U].
    assert (B * (A / B + 1) <= B * 2 ^ Zdigits2 (A / B))
      by (apply Z.mul_le_mono_nonneg_l; lia).
    lia.
Qed.

Lemma located_ge_pow (A B : Z) :
  0 <= A -> 0 < B -> 0 < A / B -> 2 ^ (Zdigits2 (A / B) - 1) * B <= A.
Proof.
  intros HA HB Q.
  pose proof (Z.div_mod A B ltac:(lia)) as D.
  pose proof (Z.mod_pos_bound A B HB) as R.
  pose proof (Zdigits2_bounds (A / B) Q) as [L _].
  assert (B * 2 ^ (Zdigits2 (A / B) - 1) <= B * (A / B))
    by (apply Z.mul_le_mono_nonneg_l; lia).
  lia.
Qed.

Section RoundAux.

Variables A B e : Z.
Hypothesis HA : 0 <= A.
Hypothesis HB : 0 < B.
Let m := A / B.
Let E := fexp64 (Zdigits2 m + e).
Hypothesis precise : e <= E.
Let M := rne A (B * 2 ^ (E - e)).

(** The exponent [E] the value is rounded at, and the rounded mantissa
    [M]; [precise] says that the input is at least as fine as [E]. *)
Lemma round_E_ge : -1074 <= E.
Proof. unfold E. rewrite fexp64_eq. lia. Qed.

Lemma round_M_nonneg : 0 <= M.
Proof.
  unfold M. apply rne_lower.
  - pose proof (pow2_pos (E - e) ltac:(lia)). nia.
  - lia.
Qed.

Lemma round_M_le : M <= 2 ^ 53.
Proof.
  unfold M. apply rne_upper.
  - pose proof (pow2_pos (E - e) ltac:(lia)). nia.
  - pose proof (located_lt_pow A B HA HB) as U. fold m in U.
    pose proof (Zdigits2_nonneg m) as Hd.
    assert (Zdigits2 m <= 53 + (E - e)) as Hde.
    { unfold E. rewrite fexp64_eq. lia. }
    assert (2 ^ Zdigits2 m <= 2 ^ (53 + (E - e))) as P
      by (apply Z.pow_le_mono_r; lia).
    rewrite Z.pow_add_r in P by lia.
    pose proof (pow2_pos (E - e) ltac:(lia)).
    pose proof (pow2_pos (Zdigits2 m) ltac:(lia)).
    nia.
Qed.

Lemma binary_round_aux_located :
  binary_round_aux prec emax false m e (loc_of A B) = round_out M E.
Proof.
  unfold binary_round_aux, shr_fexp. fold m E.
  pose proof (located_init A B) as L0. fold m in L0.
  destruct (shr_located A B _ e (E - e) HA HB ltac:(lia) L0) as [Es [Lm Ll]].
  destruct (shr (shr_record_of_loc m (loc_of A B)) e (E - e)) as [mrs' e'].
  cbn [fst snd] in *. subst e'. replace (e + (E - e)) with E by lia.
  rewrite Lm, Ll. fold (rne A (B * 2 ^ (E - e))). fold M.
  pose proof round_M_nonneg as M0. pose proof round_M_le as M1.
  pose proof round_E_ge as E0.
  unfold round_out, canon.
  destruct (Z.eqb_spec M (2 ^ 53)) as [Em|Nm]; cbn [fst snd].
  - rewrite Em. replace (Zdigits2 (2 ^ 53)) with 54 by reflexivity.
    rewrite fexp64_eq. replace (Z.max (54 + E - 53) (-1074) - E) with 1 by lia.
    cbn [shr shr_record_of_loc iter_pos]. 
    change (shr_m (shr_1 {| shr_m := 2 ^ 53; shr_r := false; shr_s := false |}))
      with (2 ^ 52).
    reflexivity.
  - assert (Zdigits2 M <= 53) as Hd.
    { apply Zdigits2_lt_pow; lia. }
    rewrite fexp64_eq.
    assert (Z.max (Zdigits2 M + E - 53) (-1074) - E <= 0) as Hn by lia.
    destruct (Z.max (Zdigits2 M + E - 53) (-1074) - E) as [|p|p] eqn:En;
      try lia; cbn [shr shr_record_of_loc shr_m]; reflexivity.
Qed.

End RoundAux.

Lemma SFout_le (M1 E1 M2 E2 : Z) :
  0 <= M1 -> 0 <= M2 ->
  M1 = 0 \/ (E1 < E2 /\ 0 < M2) \/ (E1 = E2 /\ M1 <= M2) ->
  SFleb (SFout M1 E1) (SFout M2 E2) = true.
Proof.
  intros H1 H2 H. unfold SFout.
  destruct M1 as [|p1|p1]; try lia.
  - destruct M2 as [|p2|p2]; try lia; [reflexivity|].
    now destruct (E2 <=? 971).
  - destruct M2 as [|p2|p2]; try lia.
    destruct (Z.leb_spec E1 971), (Z.leb_spec E2 971); try reflexivity.
    + unfold SFleb, SFcompare.
      destruct (Z.compare_spec E1 E2) as [Ee|Lt|Gt]; try reflexivity; try lia.
      change (Pos.compare_cont Eq p1 p2) with (Pos.compare p1 p2).
      destruct (Pos.compare_spec p1 p2); try reflexivity. lia.
    + lia.
Qed.

Lemma canon_spec (M E : Z) :
  0 <= M <= 2 ^ 53 ->
  0 <= fst (canon M E) < 2 ^ 53 /\
  ((M < 2 ^ 53 /\ canon M E = (M, E)) \/
   (M = 2 ^ 53 /\ canon M E = (2 ^ 52, E + 1))).
Proof.
  intros H. unfold canon. destruct (Z.eqb_spec M (2 ^ 53)) as [->|N]; cbn [fst].
  - split; [lia|]. right. auto.
  - split; [lia|]. left. split; [lia | reflexivity].
Qed.

Lemma round_out_le (M1 E1 M2 E2 : Z) :
  0 <= M1 <= 2 ^ 53 -> 0 <= M2 <= 2 ^ 53 ->
  (E1 = E2 /\ M1 <= M2) \/ (E1 < E2 /\ 2 ^ 52 <= M2) ->
  SFleb (round_out M1 E1) (round_out M2 E2) = true.
Proof.
  intros H1 H2 H. unfold round_out.
  destruct (canon_spec M1 E1 H1) as (B1 & C1).
  destruct (canon_spec M2 E2 H2) as (B2 & C2).
  apply SFout_le; [lia | lia |].
  destruct C1 as [[L1 ->]|[-> ->]], C2 as [[L2 ->]|[-> ->]]; cbn [fst snd] in *; lia.
Qed.

(** *** Rounding is monotone in the value located *)
Section RoundMono.

Variables A1 B1 e1 A2 B2 e2 : Z.
Hypothesis HA1 : 0 <= A1.
Hypothesis HB1 : 0 < B1.
Hypothesis HA2 : 0 <= A2.
Hypothesis HB2 : 0 < B2.
Hypothesis precise1 : e1 <= fexp64 (Zdigits2 (A1 / B1) + e1).
Hypothesis precise2 : e2 <= fexp64 (Zdigits2 (A2 / B2) + e2).
Hypothesis value_le :
  A1 * B2 * 2 ^ (e1 - Z.min e1 e2) <= A2 * B1 * 2 ^ (e2 - Z.min e1 e2).

Let E1 := fexp64 (Zdigits2 (A1 / B1) + e1).
Let E2 := fexp64 (Zdigits2 (A2 / B2) + e2).

(** Two located values, the first no larger than the second. *)
Lemma round_exponent_mono : E1 <= E2.
Proof.
  unfold E1, E2. rewrite !fexp64_eq.
  assert (0 <= A1 / B1) as Q1 by (apply Z.div_pos; lia).
  destruct (Z.eq_dec (A1 / B1) 0) as [Z1|N1].
  - rewrite Z1 in *. change (Zdigits2 0) with 0 in *.
    rewrite fexp64_eq in precise1. lia.
  - pose proof (located_ge_pow A1 B1 HA1 HB1 ltac:(lia)) as L.
    pose proof (located_lt_pow A2 B2 HA2 HB2) as U.
    pose proof (Zdigits2_pos (A1 / B1) ltac:(lia)) as D1.
    pose proof (Zdigits2_nonneg (A2 / B2)) as D2.
    set (d1 := Zdigits2 (A1 / B1)) in *. set (d2 := Zdigits2 (A2 / B2)) in *.
    set (g := Z.min e1 e2) in *.
    assert (0 < 2 ^ (e1 - g)) as P1 by (apply pow2_pos; lia).
    assert (0 < 2 ^ (e2 - g)) as P2 by (apply pow2_pos; lia).
    assert (2 ^ (d1 - 1) * 2 ^ (e1 - g) * (B1 * B2) < 2 ^ d2 * 2 ^ (e2 - g) * (B1 * B2)) as K.
    { assert (2 ^ (d1 - 1) * B1 * (B2 * 2 ^ (e1 - g)) <= A1 * (B2 * 2 ^ (e1 - g)))
        by (apply Z.mul_le_mono_nonneg_r; nia).
      assert (A2 * (B1 * 2 ^ (e2 - g)) < 2 ^ d2 * B2 * (B1 * 2 ^ (e2 - g)))
        by (apply Z.mul_lt_mono_pos_r; nia).
      nia. }
    apply Z.mul_lt_mono_pos_r in K; [|nia].
    rewrite <- !Z.pow_add_r in K by lia.
    apply pow2_lt_inv in K; lia.
Qed.

Theorem binary_round_aux_mono :
  SFleb (binary_round_aux prec emax false (A1 / B1) e1 (loc_of A1 B1))
        (binary_round_aux prec emax false (A2 / B2) e2 (loc_of A2 B2)) = true.
Proof.
  rewrite !binary_round_aux_located by trivial. fold E1 E2.
  pose proof round_exponent_mono as HE.
  pose proof (round_M_nonneg A1 B1 e1 HA1 HB1 precise1) as M10.
  pose proof (round_M_le A1 B1 e1 HA1 HB1 precise1) as M11.
  pose proof (round_M_nonneg A2 B2 e2 HA2 HB2 precise2) as M20.
  pose proof (round_M_le A2 B2 e2 HA2 HB2 precise2) as M21.
  fold E1 in M10, M11. fold E2 in M20, M21.
  apply round_out_le; [lia | lia |].
  fold E1 in precise1. fold E2 in precise2.
  destruct (Z.eq_dec E1 E2) as [Ee|Ne].
  - left. split; [trivial|]. rewrite <- Ee.
    assert (0 < 2 ^ (E1 - e1)) as P1 by (apply pow2_pos; lia).
    assert (0 < 2 ^ (E1 - e2)) as P2 by (apply pow2_pos; lia).
    apply rne_mono; [nia | nia |].
    set (g := Z.min e1 e2) in *.
    set (k := E1 - e1 - e2 + g).
    assert (0 <= k) as Hk by (unfold k, g; lia).
    replace (E1 - e2) with (k + (e1 - g)) by (unfold k; lia).
    replace (E1 - e1) with (k + (e2 - g)) by (unfold k; lia).
    rewrite !Z.pow_add_r by (unfold g; lia).
    assert (0 < 2 ^ k) by (apply pow2_pos; lia).
    assert (A1 * B2 * 2 ^ (e1 - g) * 2 ^ k <= A2 * B1 * 2 ^ (e2 - g) * 2 ^ k)
      by (apply Z.mul_le_mono_nonneg_r; lia).
    lia.
  - right. split; [lia|].
    assert (-1074 < E2) as G2.
    { pose proof (round_E_ge A1 B1 e1) as G. fold E1 in G. lia. }
    unfold E2 in G2. rewrite fexp64_eq in G2.
    assert (0 <= A2 / B2) as Q2 by (apply Z.div_pos; lia).
    assert (A2 / B2 <> 0) as N2.
    { intros Z2. unfold E2 in precise2. rewrite fexp64_eq in precise2.
      rewrite Z2 in *. change (Zdigits2 0) with 0 in *. lia. }
    pose proof (located_ge_pow A2 B2 HA2 HB2 ltac:(lia)) as L.
    set (d2 := Zdigits2 (A2 / B2)) in *.
    assert (E2 = d2 + e2 - 53) as EE by (unfold E2; rewrite fexp64_eq; fold d2; lia).
    apply rne_lower.
    + assert (0 < 2 ^ (E2 - e2)) by (apply pow2_pos; lia). nia.
    + replace (2 ^ 52 * (B2 * 2 ^ (E2 - e2))) with (2 ^ (d2 - 1) * B2); [exact L|].
      replace (d2 - 1) with (52 + (E2 - e2)) by lia.
      rewrite Z.pow_add_r by lia. ring.
Qed.

End RoundMono.

(** *** Division: the located quotient *)
Lemma new_location_loc_of (A B : Z) :
  0 < B -> new_location B (A mod B) = loc_of A B.
Proof.
  intros HB. pose proof (Z.mod_pos_bound A B HB) as R.
  unfold new_location, loc_of, new_location_even, new_location_odd. cbv zeta.
  destruct (Z.even B) eqn:Ev; [reflexivity|].
  destruct (Z.eqb_spec (A mod B) 0); [reflexivity|]. f_equal.
  assert (Z.odd B = true) as Od by (rewrite <- Z.negb_even, Ev; reflexivity).
  apply Z.odd_spec in Od. destruct Od as [k Hk].
  destruct (Z.compare_spec (2 * (A mod B) + 1) B);
    destruct (Z.compare_spec (2 * (A mod B)) B); try reflexivity; lia.
Qed.

Lemma shift_match (m s : Z) :
  0 <= s ->
  match s with
  | 0 => m
  | Z.pos _ => Z.shiftl m s
  | Z.neg _ => 0
  end = m * 2 ^ s.
Proof.
  intros Hs. destruct s as [|p|p]; try lia.
  now rewrite Z.shiftl_mul_pow2 by lia.
Qed.

Section DivCore.

Variables mx my : positive.
Variables ex ey : Z.

Let d1 := Zdigits2 (Z.pos mx).
Let d2 := Zdigits2 (Z.pos my).
Let e' := Z.min (fexp64 (d1 + ex - (d2 + ey))) (ex - ey).
Let s := ex - ey - e'.
Let A := Z.pos mx * 2 ^ s.
Let B := Z.pos my.

Lemma div_core_s_nonneg : 0 <= s.
Proof. unfold s, e'. lia. Qed.

Lemma div_core_located :
  SFdiv_core_binary prec emax (Z.pos mx) ex (Z.pos my) ey =
  (A / B, e', loc_of A B).
Proof.
  unfold SFdiv_core_binary. fold d1 d2 e' s.
  pose proof div_core_s_nonneg as Hs.
  rewrite (shift_match (Z.pos mx) s Hs). fold A B. unfold Z.div, Z.modulo.
  pose proof (new_location_loc_of A B ltac:(unfold B; lia)) as NL.
  unfold Z.modulo in NL.
  destruct (Z.div_eucl A B) as [q r]. now rewrite NL.
Qed.

Lemma div_core_precise : e' <= fexp64 (Zdigits2 (A / B) + e').
Proof.
  rewrite fexp64_eq.
  destruct (Z.le_gt_cases e' (-1074)) as [L|G]; [lia|].
  assert (e' <= d1 + ex - (d2 + ey) - 53) as He.
  { unfold e' in *. rewrite fexp64_eq in *. lia. }
  pose proof div_core_s_nonneg as Hs.
  assert (53 - d1 + d2 <= s) as Hs' by (unfold s; lia).
  pose proof (Zdigits2_bounds (Z.pos mx) ltac:(lia)) as [L1 _].
  pose proof (Zdigits2_bounds (Z.pos my) ltac:(lia)) as [_ U2].
  pose proof (Zdigits2_pos (Z.pos mx) ltac:(lia)) as P1.
  pose proof (Zdigits2_pos (Z.pos my) ltac:(lia)) as P2.
  fold d1 in L1, P1. fold d2 in U2, P2.
  assert (2 ^ 52 <= A / B) as Q.
  { apply Z.div_le_lower_bound; [unfold B; lia|].
    unfold A, B.
    assert (2 ^ (d1 - 1) * 2 ^ s <= Z.pos mx * 2 ^ s) as K1.
    { apply Z.mul_le_mono_nonneg_r; [|trivial].
      pose proof (pow2_pos s Hs). lia. }
    rewrite <- Z.pow_add_r in K1 by lia.
    assert (2 ^ (d2 + 52) <= 2 ^ (d1 - 1 + s)) as K2
      by (apply Z.pow_le_mono_r; lia).
    rewrite Z.pow_add_r in K2 by lia.
    assert (Z.pos my * 2 ^ 52 <= 2 ^ d2 * 2 ^ 52) as K3
      by (apply Z.mul_le_mono_nonneg_r; lia).
    lia. }
  pose proof (Zdigits2_ge_pow (A / B) 52 ltac:(lia) Q). lia.
Qed.

End DivCore.

(** *** Canonical mantissas: the order of [SFcompare] is the order of values *)
Lemma canonical_digits (m : positive) (e : Z) :
  canonical_mantissa prec emax m e = true ->
  Zdigits2 (Z.pos m) <= 53 /\ (-1074 <= e) /\
  (-1074 < e -> Zdigits2 (Z.pos m) = 53).
Proof.
  unfold canonical_mantissa. rewrite Z.eqb_eq, fexp64_eq.
  change (Z.pos (digits2_pos m)) with (Zdigits2 (Z.pos m)). lia.
Qed.

Lemma SFleb_value (m1 : positive) (e1 : Z) (m2 : positive) (e2 : Z) (c : Z) :
  canonical_mantissa prec emax m1 e1 = true ->
  canonical_mantissa prec emax m2 e2 = true ->
  SFleb (S754_finite false m1 e1) (S754_finite false m2 e2) = true ->
  c <= e1 -> c <= e2 ->
  Z.pos m1 * 2 ^ (e1 - c) <= Z.pos m2 * 2 ^ (e2 - c).
Proof.
  intros C1 C2 H Hc1 Hc2.
  apply canonical_digits in C1. destruct C1 as (D1 & G1 & N1).
  apply canonical_digits in C2. destruct C2 as (D2 & G2 & N2).
  pose proof (Zdigits2_bounds (Z.pos m1) ltac:(lia)) as [L1 U1].
  pose proof (Zdigits2_bounds (Z.pos m2) ltac:(lia)) as [L2 U2].
  unfold SFleb, SFcompare in H.
  destruct (Z.compare_spec e1 e2) as [Ee|Lt|Gt].
  - subst e2. change (Pos.compare_cont Eq m1 m2) with (Pos.compare m1 m2) in H.
    apply Z.mul_le_mono_nonneg_r; [pose proof (pow2_pos (e1 - c)); lia|].
    destruct (Pos.compare_spec m1 m2); try discriminate; lia.
  - specialize (N2 ltac:(lia)). rewrite N2 in L2.
    assert (Z.pos m1 < 2 ^ 53) as B1.
    { apply Z.lt_le_trans with (1 := U1). apply Z.pow_le_mono_r; lia. }
    replace (e2 - c) with ((e2 - e1 - 1) + 1 + (e1 - c)) by lia.
    rewrite !Z.pow_add_r by lia. rewrite Z.pow_1_r.
    pose proof (pow2_pos (e1 - c) ltac:(lia)) as P1.
    pose proof (pow2_pos (e2 - e1 - 1) ltac:(lia)) as P2.
    change (2 ^ (53 - 1)) with (2 ^ 52) in L2.
    assert (Z.pos m1 * 2 ^ (e1 - c) <= 2 ^ 53 * 2 ^ (e1 - c))
      by (apply Z.mul_le_mono_nonneg_r; lia).
    assert (2 ^ 52 * (1 * 2 * 2 ^ (e1 - c)) <= Z.pos m2 * (2 ^ (e2 - e1 - 1) * 2 * 2 ^ (e1 - c))).
    { apply Z.mul_le_mono_nonneg; try lia.
      apply Z.mul_le_mono_nonneg_r; [lia|]. lia. }
    change (2 ^ 53) with (2 ^ 52 * 2) in *. lia.
  - discriminate.
Qed.

(** *** Conversion of an integer *)
Lemma iter_xO_pow (m d : positive) :
  Z.pos (Pos.iter xO m d) = Z.pos m * 2 ^ Z.pos d.
Proof.
  induction d as [|d IH] using Pos.peano_ind.
  - cbn. lia.
  - rewrite Pos.iter_succ, Pos2Z.inj_xO, IH, Pos2Z.inj_succ.
    rewrite Z.pow_succ_r by lia. ring.
Qed.

Lemma shl_align_spec (mx : positive) (ex ex' : Z) :
  let '(mz, ez) := shl_align mx ex ex' in
  ez = Z.min ex ex' /\ Z.pos mz = Z.pos mx * 2 ^ (ex - ez).
Proof.
  unfold shl_align. destruct (ex' - ex) as [|d|d] eqn:Ed.
  - split; [lia|]. replace (ex - ex) with 0 by lia. rewrite Z.pow_0_r. lia.
  - split; [lia|]. replace (ex - ex) with 0 by lia. rewrite Z.pow_0_r. lia.
  - split; [lia|]. rewrite iter_xO_pow. f_equal. f_equal. lia.
Qed.

Lemma Zdigits2_shift (m k : Z) :
  0 < m -> 0 <= k -> Zdigits2 (m * 2 ^ k) = Zdigits2 m + k.
Proof.
  intros Hm Hk. pose proof (pow2_pos k Hk) as P.
  pose proof (Zdigits2_bounds m Hm) as [L U].
  pose proof (Zdigits2_pos m Hm) as D.
  apply Zdigits2_unique; [nia|].
  replace (Zdigits2 m + k - 1) with (Zdigits2 m - 1 + k) by lia.
  rewrite !Z.pow_add_r by lia. split.
  - apply Z.mul_le_mono_nonneg_r; lia.
  - apply Z.mul_lt_mono_pos_r; lia.
Qed.

Section Convert.

Variable p : positive.

Let ez := Z.min 0 (fexp64 (Zdigits2 (Z.pos p))).
Let A := Z.pos p * 2 ^ (0 - ez).

Lemma convert_A_pos : 0 < A.
Proof.
  unfold A. pose proof (pow2_pos (0 - ez) ltac:(unfold ez; lia)). nia.
Qed.

Lemma convert_located :
  binary_normalize prec emax (Z.pos p) 0 false =
  binary_round_aux prec emax false (A / 1) ez (loc_of A 1).
Proof.
  cbn [binary_normalize]. unfold binary_round.
  pose proof (shl_align_spec p 0 (fexp64 (Z.pos (digits2_pos p) + 0))) as S.
  destruct (shl_align p 0 (fexp64 (Z.pos (digits2_pos p) + 0))) as [mz ez'].
  destruct S as [S1 S2].
  rewrite Z.add_0_r in S1. change (Z.pos (digits2_pos p)) with (Zdigits2 (Z.pos p)) in S1.
  fold ez in S1. subst ez'. fold A in S2.
  rewrite Z.div_1_r, <- S2. unfold loc_of. rewrite Z.mod_1_r. reflexivity.
Qed.

Lemma convert_precise : ez <= fexp64 (Zdigits2 (A / 1) + ez).
Proof.
  rewrite Z.div_1_r. unfold A.
  rewrite Zdigits2_shift by (unfold ez; lia).
  replace (Zdigits2 (Z.pos p) + (0 - ez) + ez) with (Zdigits2 (Z.pos p)) by lia.
  unfold ez. lia.
Qed.

Lemma convert_round_out :
  binary_normalize prec emax (Z.pos p) 0 false =
  round_out (rne A (1 * 2 ^ (fexp64 (Zdigits2 (A / 1) + ez) - ez)))
            (fexp64 (Zdigits2 (A / 1) + ez)).
Proof.
  rewrite convert_located.
  apply binary_round_aux_located;
    [pose proof convert_A_pos; lia | lia | apply convert_precise].
Qed.

End Convert.

Lemma SFleb_zero_round_out (M E : Z) :
  0 <= M <= 2 ^ 53 -> SFleb (S754_zero false) (round_out M E) = true.
Proof.
  intros H. change (S754_zero false) with (SFout 0 0). unfold round_out.
  destruct (canon_spec M E H) as (B & _).
  apply SFout_le; lia.
Qed.

Lemma binary_normalize_mono (z1 z2 : Z) :
  0 <= z1 <= z2 ->
  SFleb (binary_normalize prec emax z1 0 false)
        (binary_normalize prec emax z2 0 false) = true.
Proof.
  intros [H1 H2].
  destruct z2 as [|p2|p2]; try lia.
  - assert (z1 = 0) as -> by lia. reflexivity.
  - destruct z1 as [|p1|p1]; try lia.
    + rewrite convert_round_out. cbn [binary_normalize].
      apply SFleb_zero_round_out. split.
      * apply round_M_nonneg; [pose proof (convert_A_pos p2); lia | lia
                              | apply convert_precise].
      * apply round_M_le; [pose proof (convert_A_pos p2); lia | lia
                          | apply convert_precise].
    + rewrite !convert_located.
      apply binary_round_aux_mono;
        try (pose proof (convert_A_pos p1); pose proof (convert_A_pos p2); lia);
        try apply convert_precise.
      set (e1 := Z.min 0 (fexp64 (Zdigits2 (Z.pos p1)))).
      set (e2 := Z.min 0 (fexp64 (Zdigits2 (Z.pos p2)))).
      set (g := Z.min e1 e2).
      rewrite !Z.mul_1_r. rewrite <- !Z.mul_assoc, <- !Z.pow_add_r by lia.
      replace (0 - e1 + (e1 - g)) with (0 - g) by lia.
      replace (0 - e2 + (e2 - g)) with (0 - g) by lia.
      apply Z.mul_le_mono_nonneg_r; [|lia].
      pose proof (pow2_pos (0 - g) ltac:(lia)). lia.
Qed.



(** Below 2^63 the conversion is the one of [of_uint63], whose result is
    a valid binary64 number. *)
Lemma float_of_Z_spec (a : Z) :
  0 <= a < 2 ^ 63 ->
  Prim2SF (float_of_Z a) = binary_normalize prec emax a 0 false.
Proof.
  intros Ha. unfold float_of_Z. apply Prim2SF_SF2Prim.
  pose proof (of_uint63_spec (Uint63.of_Z a)) as S.
  rewrite Uint63.of_Z_spec in S. rewrite Z.mod_small in S by (exact Ha).
  rewrite <- S. apply Prim2SF_valid.
Qed.

(** A converted frame count below 2^63 is a zero or a finite positive
    number. *)
Lemma convert_finite (p : positive) :
  Z.pos p < 2 ^ 63 ->
  exists m e, binary_normalize prec emax (Z.pos p) 0 false = S754_finite false m e.
Proof.
  intros Hp. rewrite convert_round_out.
  set (ez := Z.min 0 (fexp64 (Zdigits2 (Z.pos p)))).
  set (A := Z.pos p * 2 ^ (0 - ez)).
  pose proof (convert_A_pos p) as HA. fold ez A in HA.
  pose proof (convert_precise p) as HP. fold ez A in HP.
  set (E := fexp64 (Zdigits2 (A / 1) + ez)) in *.
  pose proof (round_M_le A 1 ez ltac:(lia) ltac:(lia) HP) as M1. fold E in M1.
  assert (1 <= rne A (1 * 2 ^ (E - ez))) as M0.
  { apply rne_lower.
    - pose proof (pow2_pos (E - ez) ltac:(lia)). lia.
    - rewrite Z.mul_1_l, Z.mul_1_l.
      pose proof (Zdigits2_bounds (Z.pos p) ltac:(lia)) as [L U].
      pose proof (Zdigits2_pos (Z.pos p) ltac:(lia)) as D.
      assert (E - ez <= Zdigits2 (Z.pos p) - 1 + (0 - ez)) as Hle.
      { unfold E. rewrite Z.div_1_r. unfold A.
        rewrite Zdigits2_shift by (unfold ez; lia).
        rewrite fexp64_eq. unfold ez. rewrite fexp64_eq. lia. }
      apply Z.le_trans with (2 ^ (Zdigits2 (Z.pos p) - 1 + (0 - ez))).
      + apply Z.pow_le_mono_r; lia.
      + rewrite Z.pow_add_r by (unfold ez; lia). unfold A.
        apply Z.mul_le_mono_nonneg_r; [|lia].
        pose proof (pow2_pos (0 - ez) ltac:(unfold ez; lia)). lia. }
  assert (E <= 10) as HE.
  { unfold E. rewrite Z.div_1_r. unfold A.
    rewrite Zdigits2_shift by (unfold ez; lia).
    assert (Zdigits2 (Z.pos p) <= 63) by (apply Zdigits2_lt_pow; lia).
    rewrite fexp64_eq. lia. }
  unfold round_out.
  destruct (canon_spec (rne A (1 * 2 ^ (E - ez))) E ltac:(lia)) as (B & C).
  destruct C as [[L ->]|[Em ->]]; cbn [fst snd].
  - unfold SFout. destruct (rne A (1 * 2 ^ (E - ez))) as [|q|q]; try lia.
    destruct (Z.leb_spec E 971); [eauto | lia].
  - unfold SFout. change (2 ^ 52) with (Z.pos (2 ^ 52)%positive).
    destruct (Z.leb_spec (E + 1) 971); [eauto | lia].
Qed.

(** Division by a positive divisor is monotone in an integer numerator. *)
Lemma SFdiv_finite_mono (m1 : positive) (e1 : Z) (m2 : positive) (e2 : Z)
    (my : positive) (ey : Z) :
  canonical_mantissa prec emax m1 e1 = true ->
  canonical_mantissa prec emax m2 e2 = true ->
  SFleb (S754_finite false m1 e1) (S754_finite false m2 e2) = true ->
  SFleb (SFdiv prec emax (S754_finite false m1 e1) (S754_finite false my ey))
        (SFdiv prec emax (S754_finite false m2 e2) (S754_finite false my ey))
  = true.
Proof.
  intros C1 C2 H. cbn [SFdiv xorb].
  rewrite !div_core_located.
  pose proof (div_core_s_nonneg m1 my e1 ey) as S1.
  pose proof (div_core_s_nonneg m2 my e2 ey) as S2.
  pose proof (div_core_precise m1 my e1 ey) as P1.
  pose proof (div_core_precise m2 my e2 ey) as P2.
  set (d1 := Z.min (fexp64 (Zdigits2 (Z.pos m1) + e1 - (Zdigits2 (Z.pos my) + ey))) (e1 - ey)) in *.
  set (d2 := Z.min (fexp64 (Zdigits2 (Z.pos m2) + e2 - (Zdigits2 (Z.pos my) + ey))) (e2 - ey)) in *.
  pose proof (pow2_pos _ S1). pose proof (pow2_pos _ S2).
  apply binary_round_aux_mono; trivial; try nia; try lia.
  set (g := Z.min d1 d2).
  pose proof (SFleb_value m1 e1 m2 e2 (ey + g) C1 C2 H
                ltac:(unfold g, d1; lia) ltac:(unfold g, d2; lia)) as V.
  assert (Z.pos m1 * 2 ^ (e1 - ey - d1) * Z.pos my * 2 ^ (d1 - g) =
          Z.pos m1 * 2 ^ (e1 - (ey + g)) * Z.pos my) as ->.
  { replace (e1 - (ey + g)) with ((e1 - ey - d1) + (d1 - g)) by lia.
    rewrite Z.pow_add_r by (unfold g; lia). ring. }
  assert (Z.pos m2 * 2 ^ (e2 - ey - d2) * Z.pos my * 2 ^ (d2 - g) =
          Z.pos m2 * 2 ^ (e2 - (ey + g)) * Z.pos my) as ->.
  { replace (e2 - (ey + g)) with ((e2 - ey - d2) + (d2 - g)) by lia.
    rewrite Z.pow_add_r by (unfold g; lia). ring. }
  apply Z.mul_le_mono_nonneg_r; lia.
Qed.

Lemma SFdiv_round_out (m : positive) (e : Z) (my : positive) (ey : Z) :
  exists M E, 0 <= M <= 2 ^ 53 /\
    SFdiv prec emax (S754_finite false m e) (S754_finite false my ey) =
    round_out M E.
Proof.
  cbn [SFdiv xorb]. rewrite div_core_located.
  pose proof (div_core_s_nonneg m my e ey) as S1.
  pose proof (div_core_precise m my e ey) as P1.
  pose proof (pow2_pos _ S1).
  eexists _, _. split; [|apply binary_round_aux_located; trivial; nia].
  split.
  - apply round_M_nonneg; trivial; nia.
  - apply round_M_le; trivial; nia.
Qed.

(** The time of a frame does not decrease with the frame index, for a
    positive frame rate (finite or not) and frame indices below 2^63. *)
Theorem frame_time_mono (fps : float) (a b : Z) :
  (0 <? fps)%float = true ->
  0 <= a -> a <= b -> b < 2 ^ 63 ->
  (float_of_Z a / fps <=? float_of_Z b / fps)%float = true.
Proof.
  intros Hf Ha Hab Hb.
  rewrite FloatAxioms.leb_spec, !FloatAxioms.div_spec, !float_of_Z_spec by lia.
  pose proof (binary_normalize_mono a b ltac:(lia)) as Hle.
  pose proof (Prim2SF_valid (float_of_Z a)) as Va.
  pose proof (Prim2SF_valid (float_of_Z b)) as Vb.
  rewrite float_of_Z_spec in Va, Vb by lia.
  rewrite FloatAxioms.ltb_spec in Hf. change (Prim2SF 0) with (S754_zero false) in Hf.
  assert (forall z, 0 <= z < 2 ^ 63 ->
            binary_normalize prec emax z 0 false = S754_zero false \/
            exists m e, binary_normalize prec emax z 0 false =
                        S754_finite false m e) as Shape.
  { intros z Hz. destruct z as [|p|p]; try lia; [now left|].
    right. apply convert_finite. lia. }
  unfold SF64div.
  destruct (Shape a ltac:(lia)) as [Za|(ma & ea & Fa)];
    destruct (Shape b ltac:(lia)) as [Zb|(mb & eb & Fb)];
    rewrite ?Za, ?Zb, ?Fa, ?Fb in *.
  - destruct (Prim2SF fps) as [s|s| |s my ey]; try destruct s; try discriminate;
      reflexivity.
  - destruct (Prim2SF fps) as [s|s| |s my ey]; try destruct s; try discriminate;
      [reflexivity|].
    destruct (SFdiv_round_out mb eb my ey) as (M & E & HM & ->).
    cbn [SFdiv xorb]. now apply SFleb_zero_round_out.
  - discriminate.
  - destruct (Prim2SF fps) as [s|s| |s my ey]; try destruct s; try discriminate;
      [reflexivity|].
    cbn [valid_binary] in Va, Vb. unfold bounded in Va, Vb.
    apply andb_prop in Va, Vb. destruct Va as [Ca _], Vb as [Cb _].
    now apply SFdiv_finite_mono.
Qed.

End FloatMonotone.

(** ** Assembly and transitions (C2, C4, C8, C9) *)

Section Assembly.
Import PyErr PyFloat PyList Highlight Transitions Pipeline.
Local Open Scope string_scope.

Lemma py_max_zero_le (x : float) : (0 <=? py_max 0 x)%float = true.
Proof.
  unfold py_max. destruct (0 <? x)%float eqn:E.
  - now apply ltb_leb.
  - reflexivity.
Qed.

Lemma py_min_le (d y : float) :
  is_nan d = false -> (py_min d y <=? d)%float = true.
Proof.
  intros Hd. unfold py_min. destruct (y <? d)%float eqn:E.
  - now apply ltb_leb.
  - now apply leb_refl.
Qed.

Lemma In_of_firstn {A : Type} (n : nat) (l : list A) (x : A) :
  In x (firstn n l) -> In x l.
Proof.
  rewrite <- (firstn_skipn n l) at 2. intros H. apply in_or_app. now left.
Qed.

Lemma In_of_skipn {A : Type} (n : nat) (l : list A) (x : A) :
  In x (skipn n l) -> In x l.
Proof.
  rewrite <- (firstn_skipn n l) at 2. intros H. apply in_or_app. now right.
Qed.

Lemma py_slice_In {A : Type} (l : list A) (lo hi : option Z) (x : A) :
  In x (py_slice l lo hi) -> In x l.
Proof.
  unfold py_slice. intros H. apply In_of_firstn, In_of_skipn in H. exact H.
Qed.

(** The start handed to [subclip] is never negative, so only the test
    against the duration and the end are left of MoviePy's adjustments. *)
Lemma padded_subclip_cases (video : VideoFile) (pad : float) (h : Highlight) :
  padded_subclip video pad h =
  let start := py_max 0 (start_sec h - pad) in
  let end_ := py_min (duration video) (end_sec h + pad) in
  if (duration video <? start)%float then Raise start_beyond_duration
  else Ok (subclip (VideoFileClip video) start
             (if (end_ <? 0)%float then (duration video + end_)%float
              else end_)).
Proof.
  destruct h as [[s e] sc]. unfold padded_subclip, clip_subclip.
  cbn [start_sec end_sec fst snd].
  rewrite (leb_ltb_false _ _ (py_max_zero_le (s - pad))). reflexivity.
Qed.

Lemma padded_subclip_Ok (video : VideoFile) (pad : float) (h : Highlight) :
  starts_in_source video pad h ->
  exists c, padded_subclip video pad h = Ok c.
Proof.
  intros H. rewrite padded_subclip_cases. cbv zeta.
  unfold starts_in_source in H. rewrite H. eexists. reflexivity.
Qed.

(** The loop over the selection: one segment for each selected highlight,
    in order, or the exception of the first highlight that starts beyond
    the source. *)
Lemma cut_segments_spec (video : VideoFile) (pad : float)
    (selected : list Highlight) :
  match cut_segments video pad selected with
  | Ok segments =>
      Forall2 (fun h c => padded_subclip video pad h = Ok c)
              selected segments /\
      Forall (starts_in_source video pad) selected
  | Raise e =>
      e = start_beyond_duration /\
      exists h,
        In h selected /\ padded_subclip video pad h = Raise e /\
        (duration video <? py_max 0 (start_sec h - pad))%float = true
  end.
Proof.
  induction selected as [|h r IH]; cbn [cut_segments].
  - split; constructor.
  - pose proof (padded_subclip_cases video pad h) as P. cbv zeta in P.
    destruct (duration video <? py_max 0 (start_sec h - pad))%float eqn:E.
    + rewrite P. cbn [bind]. split; [reflexivity|].
      exists h. split; [now left|]. split; [exact P | exact E].
    + rewrite P. cbn [bind].
      destruct (cut_segments video pad r) as [segments|e]; cbn [bind].
      * destruct IH as [F2 F]. split; constructor; trivial.
      * destruct IH as (-> & h' & Hin & Hp & Hs). split; [reflexivity|].
        exists h'. split; [now right|]. split; trivial.
Qed.

Lemma cut_segments_returns (video : VideoFile) (pad : float)
    (selected : list Highlight) :
  Forall (starts_in_source video pad) selected ->
  exists segments, cut_segments video pad selected = Ok segments.
Proof.
  intros F. pose proof (cut_segments_spec video pad selected) as S.
  destruct (cut_segments video pad selected) as [segments|e]; [eauto|].
  destruct S as (_ & h & Hin & _ & Hs).
  pose proof (proj1 (Forall_forall _ _) F h Hin) as Hok.
  unfold starts_in_source in Hok. congruence.
Qed.

(** What [_build_sequence] returns, from what the loop gave. *)
Lemma build_sequence_of_cut (video : VideoFile) (highlights : list Highlight)
    (top_k : Z) (pad : float) :
  _build_sequence video highlights top_k pad =
  match cut_segments video pad (py_slice highlights None (Some top_k)) with
  | Ok [] => Ok (VideoFileClip video, [VideoFileClip video])
  | Ok segments => Ok (VideoFileClip video, segments)
  | Raise e => Raise e
  end.
Proof.
  unfold _build_sequence. cbv zeta.
  destruct (cut_segments _ _ _) as [[|c cs]|e]; reflexivity.
Qed.

(** C2, as the code has it. [_build_sequence] returns unless the padded
    start of a selected highlight lies beyond the source, where [subclip]
    raises. Whenever it returns, it returns at least one segment: one
    padded sub-range for each of the selected highlights
    [highlights[:top_k]], in their order, when there is one, and otherwise
    (in particular for an empty highlight list, for which it always
    returns) the whole source clip alone. *)
Theorem build_sequence_never_empty (video : VideoFile)
    (highlights : list Highlight) (top_k : Z) (pad : float) :
  let selected := py_slice highlights None (Some top_k) in
  match _build_sequence video highlights top_k pad with
  | Ok (clip, segments) =>
      clip = VideoFileClip video /\
      nonempty segments = true /\
      length segments = Nat.max 1 (length selected) /\
      (selected = [] -> segments = [VideoFileClip video]) /\
      (selected <> [] ->
       Forall2 (fun h c => padded_subclip video pad h = Ok c)
               selected segments) /\
      Forall (starts_in_source video pad) selected
  | Raise e =>
      e = start_beyond_duration /\
      exists h,
        In h selected /\ padded_subclip video pad h = Raise e /\
        (duration video <? py_max 0 (start_sec h - pad))%float = true
  end /\
  (Forall (starts_in_source video pad) selected ->
   exists segments,
     _build_sequence video highlights top_k pad =
       Ok (VideoFileClip video, segments)) /\
  (highlights = [] ->
   _build_sequence video highlights top_k pad =
     Ok (VideoFileClip video, [VideoFileClip video])).
Proof.
  cbv zeta. rewrite build_sequence_of_cut.
  split; [|split].
  - pose proof (cut_segments_spec video pad
                  (py_slice highlights None (Some top_k))) as S.
    destruct (cut_segments video pad _) as [segments|e]; [|exact S].
    destruct S as [F2 F].
    pose proof (Forall2_length F2) as L.
    destruct segments as [|c cs].
    + destruct (py_slice highlights None (Some top_k)); [|discriminate L].
      split; [reflexivity|]. split; [reflexivity|]. split; [reflexivity|].
      split; [reflexivity|]. split; [congruence | constructor].
    + split; [reflexivity|]. split; [reflexivity|].
      split; [rewrite L; reflexivity|].
      split; [intros E; rewrite E in L; discriminate L|].
      split; [intros _; exact F2 | exact F].
  - intros F.
    destruct (cut_segments_returns video pad _ F) as (segments & ->).
    destruct segments; eexists; reflexivity.
  - intros ->. rewrite py_slice_nil. reflexivity.
Qed.

Lemma is_fade_iff (k : string) :
  is_fade k = true <-> k = "crossfade" \/ k = "fade".
Proof.
  unfold is_fade. rewrite orb_true_iff, !String.eqb_eq. reflexivity.
Qed.

Lemma joins_with_overlap_Some (k : string) :
  joins_with_overlap (Some k) = true <->
  k = "" \/ lower k = "crossfade" \/ lower k = "fade".
Proof.
  unfold joins_with_overlap, kind_or_crossfade.
  destruct (String.eqb_spec k "") as [->|N].
  - split; [now left | reflexivity].
  - rewrite is_fade_iff. tauto.
Qed.

(** C4, as the code has it. Two or more segments are joined by one
    [concatenate_videoclips] call. Its [padding] is [-duration], an overlap
    of the transition duration, when the kind in lower case is "crossfade"
    or "fade", and also when the kind is [None] or empty, which stands for
    "crossfade"; for every other kind the padding is 0: back to back. *)
Theorem transitions_by_kind (a b : Clip) (r : list Clip)
    (kind : option string) (duration : float) :
  let segments := a :: b :: r in
  apply_transitions segments kind duration =
    Ok (concatenate_videoclips segments
          (if joins_with_overlap kind then (- duration)%float else 0%float)) /\
  joins_with_overlap None = true /\
  (forall k, joins_with_overlap (Some k) = true <->
             k = "" \/ lower k = "crossfade" \/ lower k = "fade").
Proof.
  intros segments. split; [|split].
  - unfold joins_with_overlap. cbn [apply_transitions segments].
    now destruct (is_fade _).
  - reflexivity.
  - apply joins_with_overlap_Some.
Qed.

(** C8. [apply_transitions] raises exactly when it is given no segment;
    given one segment it returns that segment itself, whatever the kind and
    the duration, and no clip is joined. *)
Theorem apply_transitions_raises_iff_empty (segments : list Clip)
    (kind : option string) (duration : float) :
  ((exists e, apply_transitions segments kind duration = Raise e)
   <-> segments = []) /\
  apply_transitions [] kind duration =
    Raise (ValueError "No segments to stitch") /\
  (forall c, apply_transitions [c] kind duration = Ok c).
Proof.
  split; [|split; [reflexivity | reflexivity]].
  split.
  - intros (msg & H). destruct segments as [|a [|b r]]; [reflexivity | ..].
    + discriminate.
    + cbn [apply_transitions] in H. destruct (is_fade _); discriminate.
  - intros ->. eexists. reflexivity.
Qed.

(** C9, as the code has it. When detection found nothing and the item
    carries trims, the trims become the selection, each with score 1.0.
    Every selected range [(s, e)] is cut from [max(0.0, s - 0.25)], which
    is never below 0, to [min(duration, e + 0.25)], which is never beyond
    the duration; a negative end is counted back from the end of the
    source by [subclip]. A range whose padded start lies beyond the source
    is not clamped: [subclip] raises on it, and there are no segments.
    Whenever there are segments, each is the whole clip or starts within
    [0, duration]. With a [top_k] of at least 1 a single trim gives a
    single segment, and the trim (2.0, 4.0) on a source of 10 seconds gives
    the sub-range (1.75, 4.25). *)
Theorem manual_trims_replace_empty_detection :
  (forall t ts,
     substitute_trims [] (Some (t :: ts)) =
     map (fun t => (trim_start t, trim_end t, 1%float)) (t :: ts)) /\
  (forall video s e sc,
     let start := py_max 0 (s - 0.25) in
     let end_ := py_min (duration video) (e + 0.25) in
     (0 <=? start)%float = true /\
     (is_nan (duration video) = false ->
      (end_ <=? duration video)%float = true) /\
     padded_subclip video default_pad (s, e, sc) =
       if (duration video <? start)%float then Raise start_beyond_duration
       else Ok (subclip (VideoFileClip video) start
                  (if (end_ <? 0)%float then (duration video + end_)%float
                   else end_))) /\
  (forall video ts top_k segments,
     build_segments video [] (Some ts) top_k = Ok segments ->
     is_nan (duration video) = false ->
     Forall
       (fun c =>
          c = VideoFileClip video \/
          exists t,
            In t ts /\
            let start := py_max 0 (trim_start t - 0.25) in
            let end_ := py_min (duration video) (trim_end t + 0.25) in
            c = subclip (VideoFileClip video) start
                  (if (end_ <? 0)%float then (duration video + end_)%float
                   else end_) /\
            (0 <=? start)%float = true /\
            (start <=? duration video)%float = true /\
            (end_ <=? duration video)%float = true)
       segments) /\
  (forall video ts top_k e,
     build_segments video [] (Some ts) top_k = Raise e ->
     e = start_beyond_duration /\
     exists t,
       In t ts /\
       (duration video <? py_max 0 (trim_start t - 0.25))%float = true) /\
  (forall video t top_k,
     (1 <= top_k)%Z ->
     build_segments video [] (Some [t]) top_k =
     (segment <- padded_subclip video default_pad
                   (trim_start t, trim_end t, 1%float) ;;
      Ok [segment])) /\
  build_segments {| duration := 10 |} []
    (Some [{| trim_start := 2; trim_end := 4 |}]) default_top_k =
  Ok [subclip (VideoFileClip {| duration := 10 |}) 1.75 4.25].
Proof.
  split; [reflexivity|]. split; [|split; [|split; [|split; [|reflexivity]]]].
  - intros video s e sc. cbv zeta.
    split; [apply py_max_zero_le|]. split; [apply py_min_le|].
    apply (padded_subclip_cases video default_pad (s, e, sc)).
  - intros video ts top_k segments H Hd. unfold build_segments in H.
    rewrite build_sequence_of_cut in H.
    pose proof (cut_segments_spec video default_pad
                  (py_slice (substitute_trims [] (Some ts)) None (Some top_k)))
      as S.
    destruct (cut_segments video default_pad _) as [cut|e]; [|discriminate H].
    destruct S as [F2 F].
    assert (segments = match cut with
                       | [] => [VideoFileClip video]
                       | _ => cut
                       end) as ->.
    { destruct cut; cbn [bind snd] in H;
        apply (f_equal (fun r => match r with Ok l => l | Raise _ => segments end))
          in H; now symmetry. }
    assert (Forall (fun h => exists t, In t ts /\
                      h = (trim_start t, trim_end t, 1%float))
              (py_slice (substitute_trims [] (Some ts)) None (Some top_k)))
      as Hsel.
    { apply Forall_forall. intros h Hh.
      apply py_slice_In in Hh.
      destruct ts as [|t0 ts0]; [destruct Hh|].
      cbn [substitute_trims nonempty negb andb] in Hh.
      apply in_map_iff in Hh. destruct Hh as (t & <- & Ht). eauto. }
    destruct cut as [|c cs]; [constructor; [now left | constructor]|].
    clear H. revert F Hsel. induction F2 as [|h c' sel cut' Hc F2 IH];
      intros F Hsel; [constructor|].
    apply Forall_cons_iff in F. destruct F as [Fh F].
    apply Forall_cons_iff in Hsel. destruct Hsel as [(t & Ht & ->) Hsel].
    constructor; [|now apply IH].
    right. exists t. split; [exact Ht|]. cbv zeta.
    pose proof (padded_subclip_cases video default_pad
                  (trim_start t, trim_end t, 1%float)) as P.
    cbv zeta in P. cbn [start_sec end_sec fst snd] in P.
    unfold starts_in_source in Fh. cbn [start_sec fst] in Fh.
    change default_pad with 0.25%float in *.
    rewrite Fh in P. rewrite P in Hc.
    split.
    { apply (f_equal (fun r => match r with Ok x => x | Raise _ => c' end))
        in Hc. now symmetry. }
    split; [apply py_max_zero_le|]. split; [|now apply py_min_le].
    apply ltb_false_leb; trivial.
    destruct (leb_not_nan _ _ (py_max_zero_le (trim_start t - 0.25))) as [_ N].
    exact N.
  - intros video ts top_k e H. unfold build_segments in H.
    rewrite build_sequence_of_cut in H.
    pose proof (cut_segments_spec video default_pad
                  (py_slice (substitute_trims [] (Some ts)) None (Some top_k)))
      as S.
    destruct (cut_segments video default_pad _) as [cut|e'].
    + destruct cut; discriminate H.
    + cbn [bind] in H. assert (e' = e) as -> by congruence.
      destruct S as (-> & h & Hin & _ & Hs). split; [reflexivity|].
      apply py_slice_In in Hin.
      destruct ts as [|t0 ts0]; [destruct Hin|].
      cbn [substitute_trims nonempty negb andb] in Hin.
      apply in_map_iff in Hin. destruct Hin as (t & <- & Ht).
      exists t. split; [exact Ht | exact Hs].
  - intros video t top_k Hk. unfold build_segments.
    rewrite build_sequence_of_cut.
    cbn [substitute_trims nonempty negb andb map].
    rewrite py_slice_prefix by lia.
    replace (Z.to_nat top_k) with (S (Z.to_nat (top_k - 1))) by lia.
    cbn [firstn]. rewrite firstn_nil. cbn [cut_segments].
    destruct (padded_subclip video default_pad _); reflexivity.
Qed.

End Assembly.

(** ** Time intervals of the highlights (C10) *)

Section TimeIntervals.
Import PyErr PyFloat PyList Highlight.

Variables Frame Gray Hist : Type.
Variable cvtColor : Frame -> Gray.
Variable calcHist : Gray -> Hist.
Variable compareHist : Hist -> Hist -> float.
Variable flow_magnitude : Gray -> Gray -> float.
Variable np_mean : list float -> float.

Lemma ForallOrdPairs_perm {A : Type} (R : A -> A -> Prop) (l l' : list A) :
  (forall a b, R a b -> R b a) ->
  Permutation l l' -> ForallOrdPairs R l -> ForallOrdPairs R l'.
Proof.
  intros Hsym P. induction P as [| x l l' P IH | x y l | l l' l'' P1 IH1 P2 IH2].
  - trivial.
  - intros H. inversion H as [|? ? Hx Hl]; subst.
    constructor; [|auto].
    apply Forall_forall. intros z Hz.
    apply (Permutation_in _ (Permutation_sym P)) in Hz.
    exact (proj1 (Forall_forall _ _) Hx z Hz).
  - intros H. inversion H as [|? ? Hy Hl]; subst.
    inversion Hy as [|? ? Hyx Hyl]; subst.
    inversion Hl as [|? ? Hx Hl']; subst.
    constructor; [|constructor; trivial].
    constructor; [auto | trivial].
  - auto.
Qed.

Lemma ForallOrdPairs_flat_map_option {A B : Type} (P : A -> A -> Prop)
    (R : B -> B -> Prop) (f : A -> option B) (l : list A) :
  (forall a b x y, In a l -> In b l -> P a b ->
                   f a = Some x -> f b = Some y -> R x y) ->
  ForallOrdPairs P l ->
  ForallOrdPairs R (flat_map (fun a => option_list (f a)) l).
Proof.
  intros HR H. induction H as [|a l Ha Hl IH]; cbn [flat_map]; [constructor|].
  assert (ForallOrdPairs R (flat_map (fun a => option_list (f a)) l)) as IH'.
  { apply IH. intros a' b x y Ia Ib. apply HR; now right. }
  destruct (f a) as [x|] eqn:E; cbn [option_list app]; [|exact IH'].
  constructor; [|exact IH'].
  apply Forall_forall. intros y Hy.
  apply in_flat_map in Hy. destruct Hy as (b & Hb & Hy).
  destruct (f b) as [y'|] eqn:Eb; cbn in Hy; [|destruct Hy].
  destruct Hy as [->|[]].
  apply (HR a b x y); trivial; [now left | now right |].
  exact (proj1 (Forall_forall _ _) Ha b Hb).
Qed.

(** Zero frames divided by a frame rate is a zero, unless it is NaN. *)
Lemma frame_time_0 (fps : float) :
  is_nan (frame_time fps 0) = false -> (0 <=? frame_time fps 0)%float = true.
Proof.
  rewrite not_nan_rank, leb_rank. unfold rank, frame_time.
  change (float_of_Z 0) with 0%float.
  rewrite FloatAxioms.div_spec. change (Prim2SF 0) with (S754_zero false).
  intros (a & Ha). exists (0, 0, 0)%Z, a. split; [reflexivity|].
  split; [trivial|].
  destruct (Prim2SF fps) as [s | s | | s m e]; cbn in Ha;
    try discriminate; injection Ha as <-; cbn; lia.
Qed.

Section Monotone.

Variable cap : VideoCapture Frame.
Variables mn thr fb : float.

Let fps : float := effective_fps cap fb.
Let n : Z := Z.of_nat (length (frames cap)).

Hypothesis times_increase :
  forall a b, (0 <= a)%Z -> (a <= b)%Z -> (b <= n)%Z ->
              (frame_time fps a <=? frame_time fps b)%float = true.

Lemma scenes_in_range (se : Z * Z) :
  In se (neighbours (scene_boundaries cvtColor calcHist compareHist
                       flow_magnitude (frames cap))) ->
  (0 <= fst se)%Z /\ (fst se <= snd se)%Z /\ (snd se <= n)%Z.
Proof.
  intros Hin.
  pose proof (scenes_tiling Frame Gray Hist cvtColor calcHist
                compareHist flow_magnitude (frames cap)) as T.
  apply tiling_bounds in T.
  exact (proj1 (Forall_forall _ _) T se Hin).
Qed.

Lemma before_sort_disjoint :
  ForallOrdPairs intervals_disjoint
    (highlights_before_sort cvtColor calcHist compareHist flow_magnitude
       np_mean cap mn thr fb).
Proof.
  unfold highlights_before_sort.
  destruct (isOpened cap); cbn [negb]; [|constructor].
  pose proof (tiling_disjoint _ _ _
                (scenes_tiling Frame Gray Hist cvtColor calcHist
                   compareHist flow_magnitude (frames cap))) as D.
  apply ForallOrdPairs_flat_map_option with (2 := D).
  intros [s1 e1] [s2 e2] x y I1 I2 Hd Hx Hy.
  apply kept_highlight_Some in Hx. destruct Hx as (-> & _).
  apply kept_highlight_Some in Hy. destruct Hy as (-> & _).
  apply scenes_in_range in I1. apply scenes_in_range in I2.
  unfold disjoint_in_order in Hd. cbn [fst snd] in *.
  left. unfold end_sec, start_sec. cbn [fst snd].
  apply times_increase; lia.
Qed.

Lemma before_sort_within :
  Forall (interval_within (frame_time fps n))
    (highlights_before_sort cvtColor calcHist compareHist flow_magnitude
       np_mean cap mn thr fb).
Proof.
  apply Forall_forall. intros h Hin.
  apply highlights_before_sort_In in Hin.
  destruct Hin as (_ & [s e] & I & Hh).
  apply kept_highlight_Some in Hh. destruct Hh as (-> & _).
  apply scenes_in_range in I. cbn [fst snd] in I.
  unfold interval_within, start_sec, end_sec. cbn [fst snd].
  fold (frame_time (effective_fps cap fb) s).
  fold (frame_time (effective_fps cap fb) e). fold fps.
  repeat split.
  - apply leb_trans with (frame_time fps 0).
    + apply frame_time_0.
      apply (leb_not_nan _ _ (times_increase 0 0 ltac:(lia) ltac:(lia) ltac:(lia))).
    + apply times_increase; lia.
  - apply times_increase; lia.
  - apply times_increase; lia.
Qed.

End Monotone.

Lemma positive_not_zero (x : float) :
  (0 <? x)%float = true -> (x =? 0)%float = false.
Proof.
  intros H. apply (ltb_eqb_false 0%float 0%float x H). reflexivity.
Qed.

(** The frame rate in use is positive whenever the capture reports a number
    (not NaN) and the fallback is positive, as the default 30.0 is. *)
Lemma effective_fps_positive (cap : VideoCapture Frame) (fb : float) :
  is_nan (CAP_PROP_FPS cap) = false -> (0 <? fb)%float = true ->
  (0 <? effective_fps cap fb)%float = true.
Proof.
  intros Hn Hfb. unfold effective_fps.
  destruct (negb (truthy (CAP_PROP_FPS cap)) || (CAP_PROP_FPS cap <=? 0)%float)
    eqn:G; [trivial|].
  apply orb_false_elim in G. destruct G as [_ G].
  destruct (0 <? CAP_PROP_FPS cap)%float eqn:L; [reflexivity|].
  apply ltb_false_leb in L; [congruence | reflexivity | trivial].
Qed.

(** C10. When the frame rate in use is positive and the frame count is
    below 2^63, the function returns, and the time intervals of the
    returned highlights are pairwise non-overlapping, whatever their order
    in the list: the highlights are those of distinct scenes of the
    partition, and of any two of them one ends no later than the other
    starts. Every interval is ordered and lies between 0 and the time of
    the last boundary, the frame count divided by the frame rate. *)
Theorem highlight_intervals_disjoint
    (cap : VideoCapture Frame) (mn thr fb : float) :
  let fps := effective_fps cap fb in
  let n := Z.of_nat (length (frames cap)) in
  (0 <? fps)%float = true ->
  (n < 2 ^ 63)%Z ->
  exists out,
    detect_scenes_and_highlights cvtColor calcHist compareHist flow_magnitude
      np_mean cap mn thr fb = Ok out /\
    Permutation out
      (highlights_before_sort cvtColor calcHist compareHist flow_magnitude
         np_mean cap mn thr fb) /\
    ForallOrdPairs intervals_disjoint out /\
    Forall (interval_within (frame_time fps n)) out.
Proof.
  intros fps n Hfps Hn.
  assert (forall a b, (0 <= a)%Z -> (a <= b)%Z -> (b <= n)%Z ->
            (frame_time fps a <=? frame_time fps b)%float = true) as Hmono.
  { intros a b Ha Hab Hb. apply frame_time_mono; trivial. lia. }
  pose proof (detect_returns Frame Gray Hist cvtColor calcHist compareHist
                flow_magnitude np_mean cap mn thr fb
                (or_intror (positive_not_zero _ Hfps))) as E.
  eexists. split; [exact E|].
  pose proof (sort_by_score_desc_perm
                (highlights_before_sort cvtColor calcHist compareHist
                   flow_magnitude np_mean cap mn thr fb)) as P.
  split; [exact P|]. split.
  - apply ForallOrdPairs_perm with (2 := Permutation_sym P).
    + unfold intervals_disjoint. tauto.
    + now apply before_sort_disjoint.
  - apply Forall_forall. intros h Hh.
    apply (Permutation_in _ P) in Hh.
    revert h Hh. apply Forall_forall. now apply before_sort_within.
Qed.

End TimeIntervals.

(** ** The properties on the small instance *)

Section DemoFacts.
Import PyErr PyFloat PyList Highlight Transitions Pipeline.
Local Open Scope string_scope.

Example demo_boundaries : Demo.boundaries_of Demo.footage = [0; 3; 7]%Z.
Proof. reflexivity. Qed.

Example demo_detect_ranked :
  Demo.detect Demo.cap 2 1 30 = Ok [(3, 7, 0.25); (0, 3, 0.125)]%float.
Proof. reflexivity. Qed.

Example demo_detect_threshold :
  Demo.detect Demo.cap 2 2 30 = Ok [(3, 7, 0.25)]%float.
Proof. reflexivity. Qed.

Example demo_detect_min_length :
  Demo.detect Demo.cap 3.5 1 30 = Ok [(3, 7, 0.25)]%float.
Proof. reflexivity. Qed.

Example demo_detect_zero_fallback :
  Demo.detect {| isOpened := true; CAP_PROP_FPS := 0; frames := Demo.footage |}
    2 1 0 = Raise ZeroDivisionError.
Proof. reflexivity. Qed.

(** C4 as stated fails for a missing or empty kind: two segments given with
    the kind [None] or [""] and duration 0.5 are joined with padding -0.5,
    an overlap of half a second, and not back to back. *)
Lemma missing_kind_joins_with_overlap :
  let segments := [Demo.clip_a; Demo.clip_b] in
  apply_transitions segments (Some "") 0.5 =
    Ok (concatenate_videoclips segments (-0.5)) /\
  apply_transitions segments None 0.5 =
    Ok (concatenate_videoclips segments (-0.5)) /\
  apply_transitions segments (Some "") 0.5 <>
    Ok (concatenate_videoclips segments 0) /\
  apply_transitions segments None 0.5 <>
    Ok (concatenate_videoclips segments 0).
Proof.
  cbv zeta. split; [reflexivity|]. split; [reflexivity|].
  assert (forall l, Ok (concatenate_videoclips l (-0.5)) <>
                    Ok (concatenate_videoclips l 0)) as N.
  { intros l E.
    apply (f_equal (fun r => match r with
                             | Ok (concatenate_videoclips _ p) => (p <? 0)%float
                             | _ => false
                             end)) in E.
    discriminate E. }
  split; apply N.
Qed.

Example upper_case_kind_overlaps :
  apply_transitions [Demo.clip_a; Demo.clip_b] (Some "CrossFade") 0.5 =
  Ok (concatenate_videoclips [Demo.clip_a; Demo.clip_b] (-0.5)).
Proof. reflexivity. Qed.

Example other_kind_back_to_back :
  apply_transitions [Demo.clip_a; Demo.clip_b] (Some "cut") 0.5 =
  Ok (concatenate_videoclips [Demo.clip_a; Demo.clip_b] 0).
Proof. reflexivity. Qed.

Lemma scene_boundaries_partition_witness :
  (0 <= 4 < Z.of_nat (length Demo.footage))%Z /\
  exists s e, In (s, e) (neighbours (Demo.boundaries_of Demo.footage)) /\
              (s <= 4 < e)%Z.
Proof.
  assert (0 <= 4 < Z.of_nat (length Demo.footage))%Z as H by (cbn; lia).
  split; [exact H|].
  exact (proj2 (proj2 (proj2 (proj2
           (scene_boundaries_partition float float float Demo.to_gray
              Demo.to_hist Demo.distance Demo.distance Demo.footage)))) 4%Z H).
Defined.

Lemma build_sequence_never_empty_witness :
  let h : Highlight := (2, 4, 1)%float in
  Forall (starts_in_source Demo.source 0.25) (py_slice [h] None (Some 5%Z)) /\
  exists segments,
    _build_sequence Demo.source [h] 5 0.25 =
      Ok (VideoFileClip Demo.source, segments).
Proof.
  intros h.
  assert (Forall (starts_in_source Demo.source 0.25)
                 (py_slice [h] None (Some 5%Z))) as F.
  { change (py_slice [h] None (Some 5%Z)) with [h].
    constructor; [reflexivity | constructor]. }
  split; [exact F|].
  exact (proj1 (proj2 (build_sequence_never_empty Demo.source [h] 5 0.25)) F).
Defined.

(** C2 as stated fails for a selection beyond the source: for the
    highlight (11.0, 12.0) on a source of 10 seconds the padded start is
    10.75, [subclip] raises, and no segment list is returned. *)
Lemma selection_beyond_source_raises :
  _build_sequence Demo.source [(11, 12, 1)%float] default_top_k default_pad =
  Raise start_beyond_duration.
Proof. reflexivity. Qed.

Lemma highlights_pass_both_filters_witness :
  let out := [(3, 7, 0.25); (0, 3, 0.125)]%float in
  let h : Highlight := (3, 7, 0.25)%float in
  Demo.detect Demo.cap 2 1 30 = Ok out /\ In h out /\
  (end_sec h - start_sec h <? 2)%float = false /\
  (2 <=? end_sec h - start_sec h)%float = true /\
  (1 * threshold_scale <=? score h)%float = true.
Proof.
  intros out h.
  assert (Demo.detect Demo.cap 2 1 30 = Ok out) as E by reflexivity.
  assert (In h out) as I by (left; reflexivity).
  destruct (proj1 (highlights_pass_both_filters float float float
                     Demo.to_gray Demo.to_hist Demo.distance Demo.distance
                     Demo.seq_mean Demo.cap 2 1 30) out h E I)
    as (H1 & H2 & H3).
  split; [exact E|]. split; [exact I|]. split; [exact H1|].
  split; [exact (H2 eq_refl eq_refl) | exact H3].
Defined.

Lemma scene_score_mean_of_range_witness :
  let motion := [0.125; 0.125; 4.75; 0.25; 0.25; 0.25]%float in
  (0 <= 3)%Z /\
  seg_motion motion 3 7 = magnitudes_in_range motion 3 (7 - 1) /\
  scene_score Demo.seq_mean motion 3 7 =
    Demo.seq_mean [0.25; 0.25; 0.25]%float.
Proof.
  intros motion. assert (0 <= 3)%Z as H by lia.
  split; [exact H|].
  destruct (scene_score_mean_of_range Demo.seq_mean motion 3 7 H)
    as (H1 & H2 & _).
  split; [exact H1 | exact H2].
Defined.

Lemma unopened_source_yields_no_highlights_witness :
  isOpened Demo.closed_cap = false /\
  Demo.detect Demo.closed_cap 2 12 30 = Ok [].
Proof.
  assert (isOpened Demo.closed_cap = false) as H by reflexivity.
  split; [exact H|].
  exact (proj1 (unopened_source_yields_no_highlights float float float
                  Demo.to_gray Demo.to_hist Demo.distance Demo.distance
                  Demo.seq_mean Demo.closed_cap 2 12 30 H)).
Defined.

Lemma manual_trims_replace_empty_detection_witness :
  let t := {| trim_start := 2; trim_end := 4 |} in
  (1 <= 3)%Z /\ is_nan (duration Demo.source) = false /\
  build_segments Demo.source [] (Some [t]) 3 =
    (segment <- padded_subclip Demo.source default_pad (2, 4, 1)%float ;;
     Ok [segment]) /\
  (py_min (duration Demo.source) (4 + 0.25) <=? duration Demo.source)%float
    = true.
Proof.
  intros t. assert (1 <= 3)%Z as H by lia.
  assert (is_nan (duration Demo.source) = false) as N by reflexivity.
  destruct manual_trims_replace_empty_detection
    as (_ & Hcut & _ & _ & Hseg & _).
  split; [exact H|]. split; [exact N|].
  split; [exact (Hseg Demo.source t 3%Z H)|].
  exact (proj1 (proj2 (Hcut Demo.source 2%float 4%float 1%float)) N).
Defined.

(** C9 as stated fails for a trim beyond the source: the trim
    (11.0, 12.0) on a source of 10 seconds is not clamped to the source;
    [subclip] raises and there is no sub-range. *)
Lemma trim_beyond_source_raises :
  build_segments Demo.source []
    (Some [{| trim_start := 11; trim_end := 12 |}]) default_top_k =
  Raise start_beyond_duration.
Proof. reflexivity. Qed.

(** C5 as stated fails for a minimum scene length that is NaN: no scene
    is then dropped for its length, and the returned highlight
    (3.0, 7.0) has a duration that is not at least the minimum. *)
Lemma nan_minimum_keeps_every_scene :
  let h : Highlight := (3, 7, 0.25)%float in
  Demo.detect Demo.cap nan 1 30 = Ok [h; (0, 3, 0.125)%float] /\
  (nan <=? end_sec h - start_sec h)%float = false.
Proof. split; reflexivity. Qed.

(** C10 as stated fails when the capture reports a frame rate that is
    NaN: the two highlights returned have the interval (NaN, NaN), which
    neither ends before the other starts nor lies in any range. *)
Lemma nan_rate_intervals_not_disjoint :
  let h1 : Highlight := (nan, nan, 0.25)%float in
  let h2 : Highlight := (nan, nan, 0.125)%float in
  Demo.detect {| isOpened := true; CAP_PROP_FPS := nan;
                 frames := Demo.footage |} 100 1 30 = Ok [h1; h2] /\
  (intervals_disjoint h1 h2 -> False) /\
  (forall total, interval_within total h1 -> False).
Proof.
  cbv zeta. split; [reflexivity|]. split.
  - intros [H|H]; vm_compute in H; discriminate H.
  - intros total (H & _). vm_compute in H. discriminate H.
Qed.

Lemma highlight_intervals_disjoint_witness :
  (0 <? effective_fps Demo.cap 30)%float = true /\
  (Z.of_nat (length (frames Demo.cap)) < 2 ^ 63)%Z /\
  exists out,
    Demo.detect Demo.cap 2 1 30 = Ok out /\
    Permutation out
      (highlights_before_sort Demo.to_gray Demo.to_hist Demo.distance
         Demo.distance Demo.seq_mean Demo.cap 2 1 30) /\
    ForallOrdPairs intervals_disjoint out /\
    Forall (interval_within (frame_time (effective_fps Demo.cap 30) 7)) out.
Proof.
  assert ((0 <? effective_fps Demo.cap 30)%float = true) as Hf by reflexivity.
  assert (Z.of_nat (length (frames Demo.cap)) < 2 ^ 63)%Z as Hn
    by (cbn; lia).
  split; [exact Hf|]. split; [exact Hn|].
  exact (highlight_intervals_disjoint float float float Demo.to_gray
           Demo.to_hist Demo.distance Demo.distance Demo.seq_mean
           Demo.cap 2 1 30 Hf Hn).
Defined.

End DemoFacts.

(** * Further properties of the code *)

(** ** Strings *)

Section Strings.
Import PyStr.
Local Open Scope string_scope.

Lemma is_empty_true (s : string) : is_empty s = true <-> s = "".
Proof. destruct s; cbn; split; congruence. Qed.

Lemma is_empty_false (s : string) : is_empty s = false <-> s <> "".
Proof. destruct s; cbn; split; congruence. Qed.

Lemma app_assoc_str (a b c : string) : (a ++ b) ++ c = a ++ (b ++ c).
Proof. induction a as [|x a IH]; cbn; [reflexivity | now rewrite IH]. Qed.

Lemma app_empty_r (a : string) : a ++ "" = a.
Proof. induction a as [|x a IH]; cbn; [reflexivity | now rewrite IH]. Qed.

Lemma app_eq_empty (a b : string) : a ++ b = "" -> a = "" /\ b = "".
Proof. destruct a; cbn; [auto | discriminate]. Qed.

Lemma has_space_app (a b : string) :
  has_space (a ++ b) = has_space a || has_space b.
Proof.
  induction a as [|x a IH]; cbn; [reflexivity|].
  now rewrite IH, orb_assoc.
Qed.

Lemma rstrip_no_space (s : string) : has_space s = false -> rstrip s = s.
Proof.
  induction s as [|c r IH]; cbn; [reflexivity|].
  intros H. apply orb_false_elim in H. destruct H as [Hc Hr].
  rewrite Hc, (IH Hr). reflexivity.
Qed.

Lemma word_tight (w : string) : is_word w -> tight w.
Proof.
  intros [Hn Hs]. split; [trivial|]. split.
  - destruct w as [|c r]; [reflexivity|]. cbn in *.
    apply orb_false_elim in Hs. destruct Hs as [-> _]. reflexivity.
  - now apply rstrip_no_space.
Qed.

Lemma lstrip_app (a b : string) :
  a <> "" -> lstrip a = a -> lstrip (a ++ b) = a ++ b.
Proof.
  destruct a as [|c a]; [congruence|]. intros _ H. cbn in *.
  destruct (is_space c); [|reflexivity].
  exfalso. clear b.
  assert (forall s, String.length (lstrip s) <= String.length s)%nat as L.
  { induction s as [|x s IH]; cbn; [lia|]. destruct (is_space x); cbn; lia. }
  specialize (L a). rewrite H in L. cbn in L. lia.
Qed.

Lemma rstrip_app (a b : string) :
  b <> "" -> rstrip b = b -> rstrip (a ++ b) = a ++ b.
Proof.
  intros Hn H. induction a as [|c a IH]; cbn; [trivial|].
  rewrite IH. destruct (a ++ b) eqn:E.
  - apply app_eq_empty in E. tauto.
  - cbn. now rewrite andb_false_r.
Qed.

Lemma strip_tight (s : string) : tight s -> strip s = s.
Proof. intros (_ & L & R). unfold strip. now rewrite R. Qed.

Lemma tight_space_app (a b : string) :
  tight a -> tight b -> tight (a ++ " " ++ b).
Proof.
  intros (Na & La & Ra) (Nb & Lb & Rb). split; [|split].
  - intros E. apply app_eq_empty in E. tauto.
  - now apply lstrip_app.
  - apply rstrip_app; [discriminate|].
    cbn. rewrite Rb. destruct b; [congruence | reflexivity].
Qed.

Lemma strip_space_word (w : string) : tight w -> strip (" " ++ w) = w.
Proof.
  intros (N & L & R). unfold strip. cbn. rewrite R.
  destruct w; [congruence|]. cbn [is_empty andb lstrip].
  change (is_space " ") with true. cbn iota. exact L.
Qed.

Lemma join_snoc (sep : string) (g : list string) (w : string) :
  g <> [] -> join sep (g ++ [w]) = join sep g ++ sep ++ w.
Proof.
  induction g as [|x g IH]; [congruence|]. intros _.
  destruct g as [|y g]; [reflexivity|].
  change (join sep ((x :: y :: g) ++ [w]))
    with (x ++ sep ++ join sep ((y :: g) ++ [w])).
  rewrite IH by discriminate.
  change (join sep (x :: y :: g)) with (x ++ sep ++ join sep (y :: g)).
  now rewrite !app_assoc_str.
Qed.

Lemma tight_join (g : list string) :
  g <> [] -> Forall is_word g -> tight (join " " g).
Proof.
  induction g as [|x g IH]; [congruence|]. intros _ H.
  inversion H as [|? ? Hx Hg]; subst.
  destruct g as [|y g]; [now apply word_tight|].
  change (join " " (x :: y :: g)) with (x ++ " " ++ join " " (y :: g)).
  apply tight_space_app; [now apply word_tight|].
  apply IH; [discriminate | trivial].
Qed.

(** [split()] yields words. *)
Lemma split_ws_from_words (s cur : string) :
  has_space cur = false -> Forall is_word (split_ws_from cur s).
Proof.
  revert cur. induction s as [|c r IH]; intros cur Hc; cbn.
  - destruct (is_empty cur) eqn:E; [constructor|].
    constructor; [|constructor]. split; [now apply is_empty_false | trivial].
  - destruct (is_space c) eqn:Ec.
    + destruct (is_empty cur) eqn:E; [now apply IH|].
      constructor; [|now apply IH].
      split; [now apply is_empty_false | trivial].
    + apply IH. rewrite has_space_app. cbn. now rewrite Hc, Ec.
Qed.

Lemma split_ws_words (s : string) : Forall is_word (split_ws s).
Proof. now apply split_ws_from_words. Qed.

Lemma lstrip_empty (s : string) : lstrip s = "" <-> all_space s = true.
Proof.
  induction s as [|c r IH]; cbn; [tauto|].
  destruct (is_space c); cbn; [exact IH|]. split; discriminate.
Qed.

Lemma rstrip_empty (s : string) : rstrip s = "" <-> all_space s = true.
Proof.
  induction s as [|c r IH]; cbn; [tauto|].
  destruct (is_space c); cbn.
  - rewrite <- IH. destruct (rstrip r); cbn; split; congruence.
  - split; discriminate.
Qed.

Lemma all_space_rstrip (s : string) :
  all_space (rstrip s) = true -> all_space s = true.
Proof.
  induction s as [|c r IH]; cbn; [trivial|].
  destruct (is_space c) eqn:Ec; cbn.
  - destruct (is_empty (rstrip r)) eqn:E.
    + intros _. apply is_empty_true in E. now apply rstrip_empty.
    + cbn. rewrite Ec. exact IH.
  - rewrite Ec. discriminate.
Qed.

Lemma strip_empty (s : string) : strip s = "" <-> all_space s = true.
Proof.
  unfold strip. rewrite lstrip_empty. split.
  - apply all_space_rstrip.
  - intros H. apply rstrip_empty in H. now rewrite H.
Qed.

Lemma split_ws_from_nil (s cur : string) :
  split_ws_from cur s = [] <-> cur = "" /\ all_space s = true.
Proof.
  revert cur. induction s as [|c r IH]; intros cur; cbn.
  - destruct cur; cbn; split; try tauto; try discriminate.
    intros [? _]; discriminate.
  - destruct (is_space c) eqn:Ec; cbn.
    + destruct cur; cbn.
      * rewrite IH. tauto.
      * split; [discriminate | intros [? _]; discriminate].
    + rewrite IH. split; [|intros [_ ?]; discriminate].
      intros [H _]. apply app_eq_empty in H. destruct H; discriminate.
Qed.

Lemma split_ws_nil (s : string) : split_ws s = [] <-> strip s = "".
Proof.
  unfold split_ws. rewrite split_ws_from_nil, strip_empty. tauto.
Qed.

Lemma split_ws_from_word (w cur rest : string) :
  has_space w = false ->
  split_ws_from cur (w ++ rest) = split_ws_from (cur ++ w) rest.
Proof.
  revert cur. induction w as [|c w IH]; intros cur H; cbn.
  - now rewrite app_empty_r.
  - cbn in H. apply orb_false_elim in H. destruct H as [Hc Hw].
    rewrite Hc, (IH _ Hw), app_assoc_str. reflexivity.
Qed.

(** [" ".join(words).split()] gives the words back. *)
Lemma split_ws_join (g : list string) :
  Forall is_word g -> split_ws (join " " g) = g.
Proof.
  induction g as [|x g IH]; [reflexivity|]. intros H.
  inversion H as [|? ? [Nx Sx] Hg]; subst. unfold split_ws in *.
  assert (is_empty x = false) as Ex by now apply is_empty_false.
  destruct g as [|y g].
  - cbn [join]. rewrite <- (app_empty_r x) at 1.
    rewrite split_ws_from_word by trivial. cbn. now rewrite Ex.
  - change (join " " (x :: y :: g)) with (x ++ " " ++ join " " (y :: g)).
    rewrite split_ws_from_word by trivial.
    cbn [append split_ws_from]. change (is_space " ") with true. cbn iota.
    rewrite Ex. now rewrite (IH Hg).
Qed.

End Strings.

(** ** captions.py: the word wrap *)

Section WordWrap.
Import PyFloat PyStr Captions.
Local Open Scope string_scope.

Variable text_width : string -> Z.
Variable max_width : Z.

Let body := wrap_body text_width max_width.
Let ok := line_ok text_width max_width.

Lemma wrap_body_first (lines : list string) (w : string) :
  is_word w -> body (lines, "") w = (lines, w).
Proof.
  intros Hw. unfold body, wrap_body.
  change ("" ++ " " ++ w) with (" " ++ w).
  rewrite (strip_space_word w (word_tight w Hw)).
  now rewrite orb_true_r.
Qed.

Lemma wrap_body_next (lines : list string) (g : list string) (w : string) :
  g <> [] -> Forall is_word g -> is_word w ->
  body (lines, join " " g) w =
    if (text_width (join " " (g ++ [w])) <=? max_width)%Z
    then (lines, join " " (g ++ [w]))
    else ((lines ++ [join " " g])%list, w).
Proof.
  intros Hg Hws Hw. unfold body, wrap_body.
  rewrite (join_snoc " " g w Hg).
  pose proof (tight_join g Hg Hws) as Tg.
  rewrite (strip_tight _ (tight_space_app _ _ Tg (word_tight w Hw))).
  destruct Tg as (Ng & _). apply is_empty_false in Ng. rewrite Ng.
  now rewrite orb_false_r.
Qed.

Lemma wrap_from (ws : list string) :
  forall (lines : list string) (g : list string),
  g <> [] -> Forall is_word g -> Forall is_word ws -> ok g ->
  exists gs glast,
    (g ++ ws = concat gs ++ glast)%list /\
    fold_left body ws (lines, join " " g) =
      ((lines ++ map (join " ") gs)%list, join " " glast) /\
    Forall ok gs /\ ok glast /\ Forall is_word glast /\
    breaks_forced text_width max_width (gs ++ [glast]) /\
    starts_with g gs glast.
Proof.
  induction ws as [|w ws IH]; intros lines g Hg Hws Hall Hok.
  - exists [], g. cbn. rewrite !app_nil_r.
    split; [reflexivity|]. split; [reflexivity|]. split; [constructor|].
    split; [exact Hok|]. split; [exact Hws|]. split; [exact I|].
    exists []. now rewrite app_nil_r.
  - inversion Hall as [|? ? Hw Hrest]; subst.
    cbn [fold_left]. rewrite (wrap_body_next lines g w Hg Hws Hw).
    destruct (text_width (join " " (g ++ [w])) <=? max_width)%Z eqn:Efit.
    + destruct (IH lines (g ++ [w])%list) as (gs & glast & Hc & Hf & Hgs & Hl & Hwl & Hb & Hs).
      * destruct g; discriminate.
      * apply Forall_app. split; [trivial | now constructor].
      * trivial.
      * split; [destruct g; discriminate|]. left. now apply Z.leb_le.
      * exists gs, glast. rewrite <- app_assoc in Hc. cbn in Hc.
        split; [exact Hc|]. split; [exact Hf|]. split; [exact Hgs|].
        split; [exact Hl|]. split; [exact Hwl|]. split; [exact Hb|].
        unfold starts_with in *. destruct gs as [|g1 gs'];
          destruct Hs as [t Ht]; exists (w :: t);
          rewrite Ht, <- app_assoc; reflexivity.
    + destruct (IH (lines ++ [join " " g])%list [w]) as (gs & glast & Hc & Hf & Hgs & Hl & Hwl & Hb & Hs).
      * discriminate.
      * now constructor.
      * trivial.
      * split; [discriminate | now right].
      * exists (g :: gs), glast.
        change (join " " [w]) with w in Hf.
        split; [|split; [|split; [|split; [|split; [|split]]]]]; trivial.
        -- cbn [concat]. rewrite <- app_assoc, <- Hc. reflexivity.
        -- rewrite Hf. cbn [map]. rewrite <- app_assoc. reflexivity.
        -- now constructor.
        -- apply Z.leb_gt in Efit.
           unfold starts_with in Hs.
           destruct gs as [|g1 gs']; destruct Hs as [t Ht]; subst;
             cbn in Hb |- *; (split; [exact Efit | exact Hb]).
        -- cbn. exists []. now rewrite app_nil_r.
Qed.

Lemma wrap_words_groups (words : list string) :
  Forall is_word words ->
  exists groups,
    concat groups = words /\
    wrap_words text_width max_width words = map (join " ") groups /\
    Forall ok groups /\
    breaks_forced text_width max_width groups.
Proof.
  intros Hall. destruct words as [|w ws].
  - exists []. cbn. split; [reflexivity|]. split; [reflexivity|].
    split; constructor.
  - inversion Hall as [|? ? Hw Hrest]; subst.
    unfold wrap_words. cbn [fold_left].
    fold body. rewrite (wrap_body_first [] w Hw).
    destruct (wrap_from ws [] [w]) as (gs & glast & Hc & Hf & Hgs & Hl & Hwl & Hb & _).
    + discriminate.
    + now constructor.
    + trivial.
    + split; [discriminate | now right].
    + change (join " " [w]) with w in Hf. rewrite Hf. cbn [app] in *.
      destruct Hl as [Hn Hfit].
      pose proof (tight_join glast Hn Hwl) as (Ne & _).
      apply is_empty_false in Ne. rewrite Ne.
      exists (gs ++ [glast])%list.
      split; [|split; [|split]].
      * rewrite concat_app. cbn. rewrite app_nil_r. now symmetry.
      * rewrite map_app. reflexivity.
      * apply Forall_app. split; [trivial|]. constructor; [|constructor].
        split; trivial.
      * exact Hb.
Qed.

End WordWrap.

Section CaptionFacts.
Import PyFloat PyStr Captions.
Local Open Scope string_scope.

Variable text_width : string -> Z.

(** X1. The lines of a wrapped caption are the words of the text, in
    order, cut into groups and each group joined by single spaces. Every
    line holds at least one word; a line is no wider than the frame less
    the two margins unless it is a single word; and a line was only ended
    where the next word would not have fitted on it. *)
Theorem wrap_text_lines (W : Z) (text : string) :
  exists groups : list (list string),
    concat groups = split_ws text /\
    wrap_text text_width W text = map (join " ") groups /\
    Forall (line_ok text_width (W - 2 * margin_x)) groups /\
    breaks_forced text_width (W - 2 * margin_x) groups.
Proof.
  unfold wrap_text.
  destruct (wrap_words_groups text_width (W - 2 * margin_x) (split_ws text)
              (split_ws_words text)) as (groups & H).
  exists groups. exact H.
Qed.

(** X2. Wrapping loses nothing and adds nothing: splitting the lines into
    words again gives the words of the text, in order. No line is empty,
    and none starts or ends with whitespace. *)
Theorem wrap_text_keeps_words (W : Z) (text : string) :
  concat (map split_ws (wrap_text text_width W text)) = split_ws text /\
  Forall tight (wrap_text text_width W text).
Proof.
  unfold wrap_text.
  pose proof (split_ws_words text) as Hw.
  destruct (wrap_words_groups text_width (W - 2 * margin_x) (split_ws text) Hw)
    as (groups & Hc & -> & Hok & _).
  rewrite <- Hc in Hw |- *. clear Hc.
  induction groups as [|g gs IH]; [split; [reflexivity | constructor]|].
  inversion Hok as [|? ? [Hg _] Hoks]; subst.
  cbn [concat] in Hw. apply Forall_app in Hw. destruct Hw as [Hwg Hws].
  destruct (IH Hws Hoks) as [IH1 IH2].
  cbn [map concat]. split.
  - rewrite IH1, split_ws_join by trivial. reflexivity.
  - constructor; [now apply tight_join | exact IH2].
Qed.

(** X3. Every caption clip comes from an entry whose text is not blank,
    starts at that entry's start time, lasts [max(0.05, end - start)],
    which is at least 0.05 seconds whatever the two times are, and shows
    at least one line. *)
Theorem caption_clips_timing (W : Z) (entries : list (float * float * string)) :
  Forall
    (fun c =>
       (min_caption_duration <=? cap_duration c)%float = true /\
       cap_lines c <> [] /\
       exists start end_ text,
         In (start, end_, text) entries /\ strip text <> "" /\
         cap_start c = start /\
         cap_duration c = py_max min_caption_duration (end_ - start)%float /\
         cap_lines c = wrap_text text_width W text)
    (caption_clips text_width W entries).
Proof.
  apply Forall_forall. intros c Hin.
  unfold caption_clips in Hin. apply in_flat_map in Hin.
  destruct Hin as ([[start end_] text] & He & Hc).
  unfold caption_of in Hc.
  destruct (is_empty (strip text)) eqn:Eb; [destruct Hc|].
  destruct Hc as [<-|[]]. cbn [cap_start cap_duration cap_lines].
  apply is_empty_false in Eb.
  split; [|split].
  - unfold py_max. destruct (min_caption_duration <? end_ - start)%float eqn:L.
    + now apply ltb_leb.
    + reflexivity.
  - unfold wrap_text.
    destruct (wrap_words_groups text_width (W - 2 * margin_x) (split_ws text)
                (split_ws_words text)) as (groups & Hc & -> & _).
    intros E. apply map_eq_nil in E. subst groups. cbn in Hc.
    symmetry in Hc. apply split_ws_nil in Hc. contradiction.
  - exists start, end_, text. repeat split; trivial.
Qed.

End CaptionFacts.

(** ** captions.py: the layout of the lines *)

Section CaptionLayout.
Import PyList PyStr Captions.
Local Open Scope Z_scope.

Lemma fold_add_from (l : list Z) (a : Z) :
  fold_left Z.add l a = a + fold_left Z.add l 0.
Proof.
  revert a. induction l as [|x l IH]; intros a; cbn; [lia|].
  rewrite (IH (a + x)), (IH x). lia.
Qed.

Lemma total_h_cons (gap h : Z) (r : list Z) :
  r <> [] -> total_h gap (h :: r) = h + gap + total_h gap r.
Proof.
  intros N. unfold total_h. cbn [fold_left length].
  rewrite (fold_add_from r (0 + h)).
  destruct r; [congruence|]. cbn [length]. lia.
Qed.

Lemma place_lines_last (gap : Z) (heights : list Z) :
  forall y, heights <> [] ->
  exists y_last h_last,
    last (place_lines y gap heights) (0, 0) = (y_last, h_last) /\
    y_last + h_last = y + total_h gap heights.
Proof.
  induction heights as [|h r IH]; intros y N; [congruence|].
  destruct r as [|h' r'].
  - exists y, h. split; [reflexivity|]. unfold total_h. cbn. lia.
  - destruct (IH (y + h + gap)) as (yl & hl & E & S); [discriminate|].
    exists yl, hl. split.
    + cbn [place_lines] in E |- *. exact E.
    + rewrite total_h_cons by discriminate. lia.
Qed.

Lemma place_lines_spaced (gap : Z) (heights : list Z) :
  forall y,
  Forall (fun p => fst (snd p) = fst (fst p) + snd (fst p) + gap)
         (neighbours (place_lines y gap heights)).
Proof.
  induction heights as [|h r IH]; intros y.
  - cbn [place_lines]. unfold neighbours. rewrite py_slice_nil. constructor.
  - cbn [place_lines]. rewrite neighbours_cons.
    specialize (IH (y + h + gap)).
    destruct r as [|h' r']; [constructor|].
    cbn [place_lines] in IH |- *. rewrite neighbours_cons in IH.
    cbn [links]. constructor; [reflexivity | exact IH].
Qed.

(** X4. The layout of a caption. A line is centred: the space left of
    it is the space right of it, or one pixel less. A line no wider than
    the frame less the two margins, as the word wrap makes every line of
    more than one word, lies between the two margins. Each line is drawn
    below the one before it, further down by that line's height and the
    gap. For the position "bottom" the last line ends exactly [margin_y]
    above the bottom of the frame; for every other position the first line
    starts [margin_y] below the top. *)
Theorem caption_layout (W H gap : Z) (position : string) (heights : list Z) :
  (forall width,
     0 <= (W - width) - 2 * line_x W width <= 1) /\
  (forall width,
     width <= W - 2 * margin_x ->
     margin_x <= line_x W width /\ line_x W width + width <= W - margin_x) /\
  map snd (line_positions H gap position heights) = heights /\
  Forall (fun p => fst (snd p) = fst (fst p) + snd (fst p) + gap)
         (neighbours (line_positions H gap position heights)) /\
  (position = "bottom"%string -> heights <> [] ->
   exists y_last h_last,
     last (line_positions H gap position heights) (0, 0) = (y_last, h_last) /\
     y_last + h_last = H - margin_y) /\
  (position <> "bottom"%string ->
   forall h r, heights = h :: r ->
   hd_error (line_positions H gap position heights) = Some (margin_y, h)).
Proof.
  unfold line_x, margin_x, line_positions.
  split; [|split; [|split; [|split; [|split]]]].
  - intros width.
    pose proof (Z.div_mod (W - width) 2 ltac:(lia)) as D.
    pose proof (Z.mod_pos_bound (W - width) 2 ltac:(lia)) as B.
    lia.
  - intros width Hw.
    pose proof (Z.div_mod (W - width) 2 ltac:(lia)) as D.
    pose proof (Z.mod_pos_bound (W - width) 2 ltac:(lia)) as B.
    lia.
  - generalize (first_y H gap position heights).
    induction heights as [|h r IH]; intros y; cbn; [reflexivity|].
    now rewrite IH.
  - apply place_lines_spaced.
  - intros -> N.
    destruct (place_lines_last gap heights
                (first_y H gap "bottom" heights) N) as (yl & hl & E & S).
    exists yl, hl. split; [exact E|].
    unfold first_y in S. rewrite String.eqb_refl in S. lia.
  - intros Np h r ->. unfold first_y.
    apply String.eqb_neq in Np. rewrite Np. reflexivity.
Qed.

End CaptionLayout.

(** ** highlight.py: the two series the frame loop builds *)

Section FrameLoop.
Import PyErr PyFloat PyList Highlight.

Variables Frame Gray Hist : Type.
Variable cvtColor : Frame -> Gray.
Variable calcHist : Gray -> Hist.
Variable compareHist : Hist -> Hist -> float.
Variable flow_magnitude : Gray -> Gray -> float.
Variable np_mean : list float -> float.

Let body := loop_body cvtColor calcHist compareHist flow_magnitude.
Let run := run_loop cvtColor calcHist compareHist flow_magnitude.
Let bounds := scene_boundaries cvtColor calcHist compareHist flow_magnitude.
Let flow (p : Frame * Frame) : float :=
  flow_magnitude (cvtColor (fst p)) (cvtColor (snd p)).
Let cut (a b : Frame) : bool :=
  (cut_threshold <? compareHist (calcHist (cvtColor a))
                       (calcHist (cvtColor b)))%float.

Lemma fold_motion (fs : list Frame) :
  forall (st : LoopState Gray Hist) (a : Frame),
  prev_gray st = Some (cvtColor a) ->
  motion_scores (fold_left body fs st) =
  motion_scores st ++ map flow (links a fs).
Proof.
  induction fs as [|f r IH]; intros st a Hp; cbn [fold_left links map].
  - now rewrite app_nil_r.
  - rewrite (IH (body st f) f) by reflexivity.
    unfold body, loop_body. cbn [motion_scores]. rewrite Hp.
    rewrite <- app_assoc. reflexivity.
Qed.

Lemma run_motion (fs : list Frame) :
  motion_scores (run fs) = map flow (neighbours fs).
Proof.
  destruct fs as [|f r].
  - unfold neighbours. now rewrite py_slice_nil.
  - rewrite neighbours_cons. unfold run, run_loop. cbn [fold_left].
    fold body. rewrite (fold_motion r _ f) by reflexivity. reflexivity.
Qed.

Lemma links_length {A : Type} (a : A) (l : list A) :
  length (links a l) = length l.
Proof.
  revert a. induction l as [|b r IH]; intros a; cbn; [reflexivity|].
  now rewrite IH.
Qed.

Lemma run_motion_length (fs : list Frame) :
  length (motion_scores (run fs)) = pred (length fs).
Proof.
  rewrite run_motion, length_map. destruct fs as [|f r].
  - unfold neighbours. now rewrite py_slice_nil.
  - rewrite neighbours_cons. apply links_length.
Qed.

Lemma fold_scenes_In (fs : list Frame) (k : Z) :
  forall (st : LoopState Gray Hist) (a : Frame),
  prev_hist st = Some (calcHist (cvtColor a)) ->
  In k (scenes (fold_left body fs st)) <->
  In k (scenes st) \/
  exists j x y,
    nth_error (a :: fs) j = Some x /\ nth_error fs j = Some y /\
    k = (frame_idx st + Z.of_nat j)%Z /\ cut x y = true.
Proof.
  induction fs as [|f r IH]; intros st a Hp; cbn [fold_left].
  - split; [auto|]. intros [H|(j & x & y & _ & H & _)]; [trivial|].
    destruct j; discriminate.
  - rewrite (IH (body st f) f) by reflexivity.
    assert (In k (scenes (body st f)) <->
            In k (scenes st) \/ (k = frame_idx st /\ cut a f = true)) as E.
    { unfold body, loop_body. cbn [scenes]. rewrite Hp. fold (cut a f).
      destruct (cut a f).
      - rewrite in_app_iff. cbn [In]. intuition congruence.
      - intuition congruence. }
    rewrite E. clear E.
    change (frame_idx (body st f)) with (frame_idx st + 1)%Z.
    split.
    + intros [[H|[Hk Hc]]|(j & x & y & Hx & Hy & Hk & Hc)].
      * now left.
      * right. exists 0%nat, a, f. cbn. repeat split; trivial. lia.
      * right. exists (S j), x, y. cbn [nth_error].
        repeat split; trivial. lia.
    + intros [H|(j & x & y & Hx & Hy & Hk & Hc)]; [auto|].
      destruct j as [|j]; cbn [nth_error] in Hx, Hy.
      * injection Hx as <-. injection Hy as <-. left. right.
        split; [lia | trivial].
      * right. exists j, x, y. repeat split; trivial. lia.
Qed.

(** X5. Where the scene boundaries are: the boundary list holds 0, the
    frame count, and every frame index whose histogram lies further than
    0.5 from that of the frame before it, and nothing else. *)
Theorem scene_boundary_iff (fs : list Frame) (k : Z) :
  In k (bounds fs) <->
  k = 0%Z \/ k = Z.of_nat (length fs) \/
  exists j a b,
    k = Z.of_nat (S j) /\
    nth_error fs j = Some a /\ nth_error fs (S j) = Some b /\
    (cut_threshold <? compareHist (calcHist (cvtColor a))
                         (calcHist (cvtColor b)))%float = true.
Proof.
  unfold bounds, scene_boundaries. cbv zeta.
  rewrite in_app_iff, run_loop_frame_idx. cbn [In].
  destruct fs as [|f r].
  - cbn. split.
    + intros [[H|[]]|[H|[]]]; auto.
    + intros [H|[H|(j & a & b & _ & H & _)]]; auto.
      destruct j; discriminate.
  - unfold run_loop. cbn [fold_left]. fold body.
    rewrite (fold_scenes_In r k _ f) by reflexivity.
    change (frame_idx (body loop_init f)) with 1%Z.
    change (scenes (body loop_init f)) with [0%Z]. cbn [In].
    split.
    + intros [[[H|[]]|(j & x & y & Hx & Hy & Hk & Hc)]|[H|[]]]; auto.
      right. right. exists j, x, y. repeat split; trivial. lia.
    + intros [H|[H|(j & a & b & Hk & Ha & Hb & Hc)]]; auto.
      left. right. exists j, a, b. repeat split; trivial. lia.
Qed.

(** X6. The motion series holds one value for each pair of neighbouring
    frames, in order: the flow magnitude from frame [i] to frame [i + 1] is
    at position [i]. It is one shorter than the frame sequence, and empty
    for fewer than two frames. *)
Theorem motion_series_of_neighbours (fs : list Frame) :
  motion_scores (run_loop cvtColor calcHist compareHist flow_magnitude fs) =
    map (fun p => flow_magnitude (cvtColor (fst p)) (cvtColor (snd p)))
        (neighbours fs) /\
  length (motion_scores
            (run_loop cvtColor calcHist compareHist flow_magnitude fs)) =
    pred (length fs).
Proof.
  split; [apply run_motion | apply run_motion_length].
Qed.

(** X7. Each scene [(s, e)] is scored on the [e - s - 1] flow values
    between its own frames: the slice of the motion series taken for it
    never runs short, and leaves out the flow across the cut before the
    scene and the flow across the cut after it. A scene of one frame (and
    the empty scene of a capture without frames) scores 0.0; every longer
    scene scores the mean of its slice. *)
Theorem scene_scored_on_inner_flows (fs : list Frame) :
  let motion :=
    motion_scores (run_loop cvtColor calcHist compareHist flow_magnitude fs) in
  Forall
    (fun se =>
       let s := fst se in
       let e := snd se in
       seg_motion motion s e =
         firstn (Z.to_nat (e - s - 1)) (skipn (Z.to_nat s) motion) /\
       length (seg_motion motion s e) = Z.to_nat (e - s - 1) /\
       scene_score np_mean motion s e =
         (if (e - s <=? 1)%Z then 0%float
          else np_mean (seg_motion motion s e)))
    (neighbours
       (scene_boundaries cvtColor calcHist compareHist flow_magnitude fs)).
Proof.
  intros motion.
  pose proof (tiling_bounds _ _ _
                (scenes_tiling Frame Gray Hist cvtColor calcHist compareHist
                   flow_magnitude fs)) as Hb.
  apply Forall_impl with (2 := Hb). intros [s e]. cbn [fst snd].
  intros (H0 & Hse & Hen).
  assert (length motion = pred (length fs)) as Hl
    by apply run_motion_length.
  clearbody motion.
  assert (seg_motion motion s e =
          firstn (Z.to_nat (e - s - 1)) (skipn (Z.to_nat s) motion)) as E.
  { unfold seg_motion. destruct motion as [|m r]; cbn [nonempty].
    - now rewrite skipn_nil, firstn_nil.
    - rewrite py_slice_nonneg by lia. f_equal. lia. }
  assert (length (seg_motion motion s e) = Z.to_nat (e - s - 1)) as L.
  { rewrite E, length_firstn, length_skipn, Hl. lia. }
  split; [exact E|]. split; [exact L|].
  unfold scene_score.
  destruct (seg_motion motion s e) as [|x r]; cbn [nonempty length] in *.
  - destruct (Z.leb_spec (e - s) 1); [reflexivity | lia].
  - destruct (Z.leb_spec (e - s) 1); [lia | reflexivity].
Qed.

Lemma eqb_leb (x y : float) :
  (x =? y)%float = true -> (x <=? y)%float = true.
Proof.
  rewrite eqb_rank, leb_rank. intros (a & Ex & Ey).
  exists a, a. split; [trivial|]. split; [trivial|].
  destruct a as [[a1 a2] a3]. cbn. lia.
Qed.

(** The frame rate in use is zero only when it is the fallback. *)
Lemma effective_fps_zero (cap : VideoCapture Frame) (fb : float) :
  (effective_fps cap fb =? 0)%float =
  (CAP_PROP_FPS cap <=? 0)%float && (fb =? 0)%float.
Proof.
  unfold effective_fps, truthy. rewrite negb_involutive.
  destruct (CAP_PROP_FPS cap =? 0)%float eqn:E.
  - rewrite (eqb_leb _ _ E). reflexivity.
  - cbn [orb]. destruct (CAP_PROP_FPS cap <=? 0)%float; [reflexivity|].
    exact E.
Qed.

(** X8. The function raises exactly when the capture opened, reports a
    frame rate that is zero or negative, and the fallback given is zero;
    what it raises is [ZeroDivisionError], and it does so even without any
    frame. In every other case it returns a list; with the default
    fallback of 30.0 it always does. *)
Theorem detect_raises_iff (cap : VideoCapture Frame) (mn thr fb : float) :
  let r := detect_scenes_and_highlights cvtColor calcHist compareHist
             flow_magnitude np_mean cap mn thr fb in
  let fails :=
    isOpened cap && (CAP_PROP_FPS cap <=? 0)%float && (fb =? 0)%float in
  (if fails then r = Raise ZeroDivisionError else exists out, r = Ok out) /\
  exists out,
    detect_scenes_and_highlights cvtColor calcHist compareHist
      flow_magnitude np_mean cap mn thr default_fps_fallback = Ok out.
Proof.
  cbv zeta. split.
  - rewrite <- andb_assoc, <- effective_fps_zero.
    destruct (detect_cases Frame Gray Hist cvtColor calcHist compareHist
                flow_magnitude np_mean cap mn thr fb) as [[H|H]|Ho Hf].
    + rewrite H. cbn [andb]. eexists. reflexivity.
    + rewrite H, andb_false_r. eexists. reflexivity.
    + rewrite Ho, Hf. reflexivity.
  - destruct (detect_cases Frame Gray Hist cvtColor calcHist compareHist
                flow_magnitude np_mean cap mn thr default_fps_fallback)
      as [H|Ho Hf].
    + eexists. reflexivity.
    + rewrite effective_fps_zero in Hf. rewrite andb_false_r in Hf.
      discriminate.
Qed.

End FrameLoop.

(** ** highlight.py: a frame rate that is not a number *)

Section NanFrameRate.
Import PyErr PyFloat PyList Highlight.

Variables Frame Gray Hist : Type.
Variable cvtColor : Frame -> Gray.
Variable calcHist : Gray -> Hist.
Variable compareHist : Hist -> Hist -> float.
Variable flow_magnitude : Gray -> Gray -> float.
Variable np_mean : list float -> float.

Lemma is_nan_Prim2SF (x : float) :
  is_nan x = true <-> Prim2SF x = S754_nan.
Proof.
  rewrite is_nan_rank. unfold rank.
  destruct (Prim2SF x) as [[]|[]| |[] m e]; cbn; split; congruence.
Qed.

Lemma is_nan_eq (x : float) : is_nan x = true -> x = nan.
Proof.
  intros H. apply is_nan_Prim2SF in H.
  rewrite <- (SF2Prim_Prim2SF x), H. reflexivity.
Qed.

Lemma div_nan (x : float) : (x / nan)%float = nan.
Proof.
  apply is_nan_eq, is_nan_Prim2SF. rewrite FloatAxioms.div_spec.
  change (Prim2SF nan) with S754_nan.
  destruct (Prim2SF x) as [[]|[]| |[] m e]; reflexivity.
Qed.

Lemma nan_ltb (y : float) : (nan - nan <? y)%float = false.
Proof.
  rewrite FloatAxioms.ltb_spec. reflexivity.
Qed.

Lemma effective_fps_nan (cap : VideoCapture Frame) (fb : float) :
  is_nan (CAP_PROP_FPS cap) = true -> effective_fps cap fb = nan.
Proof.
  intros H. apply is_nan_eq in H. unfold effective_fps. rewrite H.
  reflexivity.
Qed.

(** X9. When the capture opens and reports a frame rate that is not a
    number, the fallback is not used. The function returns, every scene
    whose score reaches the scaled threshold is a highlight however short
    it is, and the start and end of every highlight are NaN. *)
Theorem nan_frame_rate_keeps_short_scenes (cap : VideoCapture Frame)
    (mn thr fb : float) :
  isOpened cap = true -> is_nan (CAP_PROP_FPS cap) = true ->
  exists out,
    detect_scenes_and_highlights cvtColor calcHist compareHist flow_magnitude
      np_mean cap mn thr fb = Ok out /\
    forall h,
      In h out <->
      exists s e,
        In (s, e)
          (neighbours (scene_boundaries cvtColor calcHist compareHist
                         flow_magnitude (frames cap))) /\
        let score :=
          scene_score np_mean
            (motion_scores (run_loop cvtColor calcHist compareHist
                              flow_magnitude (frames cap))) s e in
        (thr * threshold_scale <=? score)%float = true /\
        h = (nan, nan, score).
Proof.
  intros Ho Hn. pose proof (effective_fps_nan cap fb Hn) as Ef.
  eexists. split.
  - apply detect_returns. right. rewrite Ef. reflexivity.
  - intros h. rewrite sort_by_score_desc_In, highlights_before_sort_In.
    rewrite Ef. split.
    + intros (_ & [s e] & Hin & Hk). exists s, e. split; [exact Hin|].
      unfold kept_highlight in Hk. rewrite !div_nan, nan_ltb in Hk.
      cbv zeta.
      destruct (_ <=? _)%float eqn:E; [|discriminate].
      split; [reflexivity|].
      apply (f_equal (fun o => match o with Some x => x | None => h end)) in Hk.
      now symmetry.
    + intros (s & e & Hin & Hs & ->). split; [exact Ho|].
      exists (s, e). split; [exact Hin|].
      unfold kept_highlight. rewrite !div_nan, nan_ltb.
      cbv zeta in Hs. now rewrite Hs.
Qed.

End NanFrameRate.

(** ** pipeline.py: which highlights are selected *)

Section Selection.
Import PyErr PyFloat PyList Highlight Transitions Pipeline.

Variables Frame Gray Hist : Type.
Variable cvtColor : Frame -> Gray.
Variable calcHist : Gray -> Hist.
Variable compareHist : Hist -> Hist -> float.
Variable flow_magnitude : Gray -> Gray -> float.
Variable np_mean : list float -> float.

(** [l[:k]] keeps the first [k] elements, and for a negative [k] all but
    the last [-k]. *)
Lemma py_slice_upto {A : Type} (l : list A) (k : Z) :
  py_slice l None (Some k) =
  firstn (if (0 <=? k)%Z then Z.to_nat k
          else length l - Z.to_nat (- k)) l.
Proof.
  destruct (Z.leb_spec 0 k) as [H|H].
  - now apply py_slice_prefix.
  - unfold py_slice, adjust_index.
    destruct (Z.ltb_spec k 0); [|lia]. cbn [Z.to_nat skipn].
    f_equal. lia.
Qed.

Lemma sorted_prefix_dominates {A : Type} (R : A -> A -> Prop)
    (l : list A) (m : nat) :
  StronglySorted R l ->
  Forall (fun a => Forall (R a) (skipn m l)) (firstn m l).
Proof.
  intros S. revert m. induction S as [|a l S IH Ha]; intros m.
  - rewrite firstn_nil. constructor.
  - destruct m as [|m]; cbn [firstn skipn]; [constructor|].
    constructor; [|apply IH].
    apply Forall_forall. intros x Hx.
    apply (proj1 (Forall_forall _ _) Ha).
    rewrite <- (firstn_skipn m l). apply in_or_app. now right.
Qed.

(** X10. The segments are cut from the best: of the list the detection
    returns, [highlights[:top_k]] keeps the first [top_k], and no highlight
    left out scores higher than one that is kept. A negative [top_k] does
    not select nothing: it leaves out that many highlights from the end of
    the list. *)
Theorem top_k_keeps_best_scores (cap : VideoCapture Frame)
    (mn thr fb : float) (top_k : Z) :
  match detect_scenes_and_highlights cvtColor calcHist compareHist
          flow_magnitude np_mean cap mn thr fb with
  | Ok out =>
      let m := if (0 <=? top_k)%Z then Z.to_nat top_k
               else (length out - Z.to_nat (- top_k))%nat in
      py_slice out None (Some top_k) = firstn m out /\
      out = firstn m out ++ skipn m out /\
      Forall (fun h => Forall (fun h' => score_ge h h') (skipn m out))
             (firstn m out)
  | Raise _ => True
  end.
Proof.
  destruct (detect_cases Frame Gray Hist cvtColor calcHist compareHist
              flow_magnitude np_mean cap mn thr fb) as [H|Ho Hf]; [|exact I].
  cbv zeta. split; [apply py_slice_upto|].
  split; [now rewrite firstn_skipn|].
  apply sorted_prefix_dominates, sort_by_score_desc_sorted.
  apply highlights_before_sort_not_nan.
Qed.

End Selection.

(** ** export.py and the outputs of a run *)

Section ExportFacts.
Import PyErr PyStr Transitions Exports.
Local Open Scope string_scope.

Variable py_int : string -> result Z.

Abbreviation resolution_size' := (resolution_size py_int).
Abbreviation sized' := (sized py_int).

Lemma lower_ascii_x (c : ascii) :
  Ascii.eqb c "x" = true -> Ascii.eqb (lower_ascii c) "x" = true.
Proof.
  intros H. apply Ascii.eqb_eq in H. subst c. reflexivity.
Qed.

Lemma contains_x_lower (r : string) :
  contains_char "x" r = true -> contains_char "x" (lower r) = true.
Proof.
  induction r as [|c r IH]; cbn; [trivial|].
  intros H. apply orb_true_iff in H. apply orb_true_iff.
  destruct H as [H|H]; [left; now apply lower_ascii_x | right; auto].
Qed.

Lemma resolution_size_named (r : string) :
  contains_char "x" (lower r) = false ->
  resolution_size' r = Ok (dict_get RES_MAP (lower r)).
Proof.
  intros H. unfold resolution_size.
  destruct (contains_char "x" r) eqn:E; [|reflexivity].
  apply contains_x_lower in E. congruence.
Qed.

(** X12. How a resolution is read. The three names of [RES_MAP] are
    recognised in any mix of capitals. A resolution without a lower-case
    "x" that is none of them has no size: it is passed over without an
    error, as "1920X1080" is. A resolution with a lower-case "x" is never
    passed over: it has the size [(int(w), int(h))] when lowering it and
    splitting it at "x" gives exactly the two pieces [w] and [h], and it
    raises an exception when there are more than two pieces. *)
Theorem resolution_size_cases (r : string) :
  (lower r = "1080p" -> resolution_size' r = Ok (Some (1920, 1080)%Z)) /\
  (lower r = "720p" -> resolution_size' r = Ok (Some (1280, 720)%Z)) /\
  (lower r = "480p" -> resolution_size' r = Ok (Some (854, 480)%Z)) /\
  (resolution_size' r = Ok None <->
   contains_char "x" r = false /\ dict_get RES_MAP (lower r) = None) /\
  (contains_char "x" r = true ->
   match split_char "x" (lower r) with
   | [w; h] =>
       resolution_size' r =
         (w' <- py_int w ;; h' <- py_int h ;; Ok (Some (w', h')))
   | _ => exists msg, resolution_size' r = Raise (ValueError msg)
   end) /\
  resolution_size' "1920X1080" = Ok None.
Proof.
  split; [|split; [|split; [|split; [|split]]]].
  - intros E. rewrite resolution_size_named; now rewrite E.
  - intros E. rewrite resolution_size_named; now rewrite E.
  - intros E. rewrite resolution_size_named; now rewrite E.
  - unfold resolution_size. destruct (contains_char "x" r).
    + split; [|intros [? _]; discriminate].
      destruct (unpack2 _) as [[w h]|e]; cbn [bind fst snd]; [|discriminate].
      destruct (py_int w); cbn [bind]; [|discriminate].
      destruct (py_int h); cbn [bind]; discriminate.
    + split.
      * intros [= E]. auto.
      * intros [_ E]. now rewrite E.
  - intros E. unfold resolution_size. rewrite E.
    destruct (split_char "x" (lower r)) as [|w [|h [|z l]]]; cbn [unpack2 bind].
    + eexists. reflexivity.
    + eexists. reflexivity.
    + reflexivity.
    + eexists. reflexivity.
  - reflexivity.
Qed.

Variable LibraryError : Type.
Variable write_videofile : option (Z * Z) -> string -> option LibraryError.
Variable export_preview : string -> option LibraryError.

Abbreviation export_from' := (export_from py_int LibraryError write_videofile).
Abbreviation passes' := (passes py_int LibraryError write_videofile).
Abbreviation stops' := (stops py_int LibraryError write_videofile).

(** The loop of [export_resolutions] from any point on. *)
Lemma export_from_spec (stem suffix : string) (rs : list string) :
  forall (paths : list string) (written : list (string * (Z * Z))),
  map fst written = paths ->
  match export_from' stem suffix rs paths written with
  | (written', PyRaise.Return paths') =>
      Forall (passes' stem suffix) rs /\
      paths' = (paths ++ map (out_name stem suffix) (filter sized' rs))%list /\
      map fst written' = paths' /\
      exists added,
        written' = (written ++ added)%list /\
        Forall (fun fs => exists r, In r rs /\
                  fst fs = out_name stem suffix r /\
                  resolution_size' r = Ok (Some (snd fs)) /\
                  write_videofile (Some (snd fs)) (fst fs) = None) added
  | (written', PyRaise.Throw err) =>
      exists before r after,
        rs = (before ++ r :: after)%list /\
        Forall (passes' stem suffix) before /\
        stops' stem suffix r err /\
        map fst written' =
          (paths ++ map (out_name stem suffix) (filter sized' before))%list
  end.
Proof.
  induction rs as [|r rest IH]; intros paths written Hw; cbn [export_from].
  - split; [constructor|]. cbn. rewrite app_nil_r. split; [reflexivity|].
    split; [trivial|]. exists []. rewrite app_nil_r. split; [reflexivity|].
    constructor.
  - destruct (resolution_size' r) as [[size|]|e] eqn:E.
    + destruct (write_videofile (Some size) (out_name stem suffix r))
        as [e|] eqn:W.
      * exists [], r, rest. split; [reflexivity|]. split; [constructor|].
        split.
        -- unfold stops. rewrite E. exists e. split; [exact W | reflexivity].
        -- cbn. now rewrite app_nil_r.
      * specialize (IH (paths ++ [out_name stem suffix r])%list
                       (written ++ [(out_name stem suffix r, size)])%list).
        rewrite map_app, Hw in IH. specialize (IH eq_refl).
        assert (passes' stem suffix r) as Pr
          by (unfold passes; rewrite E; exact W).
        destruct (export_from' stem suffix rest _ _)
          as [written' [paths'|err]].
        -- destruct IH as (Hall & Hp & Hm & added & Ha & Hf).
           split; [now constructor|].
           cbn [filter]. unfold sized at 1. rewrite E. cbn [map].
           rewrite <- app_assoc in Hp. split; [exact Hp|].
           split; [exact Hm|].
           exists ((out_name stem suffix r, size) :: added).
           rewrite <- app_assoc in Ha. split; [exact Ha|].
           constructor.
           ++ exists r. cbn. auto.
           ++ apply Forall_impl with (2 := Hf).
              intros fs (r' & Hin & H1 & H2 & H3). exists r'. cbn. auto.
        -- destruct IH as (before & r' & after & -> & Hall & Hr & Hm).
           exists (r :: before), r', after. split; [reflexivity|].
           split; [now constructor|]. split; [exact Hr|].
           cbn [filter]. unfold sized at 1. rewrite E. cbn [map].
           rewrite <- app_assoc in Hm. exact Hm.
    + specialize (IH paths written Hw).
      assert (passes' stem suffix r) as Pr
        by (unfold passes; now rewrite E).
      destruct (export_from' stem suffix rest _ _)
        as [written' [paths'|err]].
      * destruct IH as (Hall & Hp & Hm & added & Ha & Hf).
        split; [now constructor|].
        cbn [filter]. unfold sized at 1. rewrite E.
        split; [exact Hp|]. split; [exact Hm|].
        exists added. split; [exact Ha|].
        apply Forall_impl with (2 := Hf).
        intros fs (r' & Hin & H1 & H2 & H3). exists r'. cbn. auto.
      * destruct IH as (before & r' & after & -> & Hall & Hr & Hm).
        exists (r :: before), r', after. split; [reflexivity|].
        split; [now constructor|]. split; [exact Hr|].
        cbn [filter]. unfold sized at 1. rewrite E. exact Hm.
    + exists [], r, rest. split; [reflexivity|]. split; [constructor|].
      split; [unfold stops; now rewrite E|]. cbn. now rewrite app_nil_r.
Qed.


(** X13. [export_resolutions] goes through the resolutions in the order
    given. It returns when every resolution either has no size or has its
    file produced without an exception: it has then written one file for
    each resolution that has a size, named after the resolution as it was
    given and resized to that size, and returns their paths. It raises at
    the first resolution that cannot be read or whose file cannot be
    produced (as for the size (0, 0), which [resize] refuses); the files of
    the resolutions before that one have been written by then. *)
Theorem export_resolutions_outcome (stem suffix : string) (rs : list string) :
  match export_resolutions py_int LibraryError write_videofile
          stem suffix rs with
  | (written, PyRaise.Return paths) =>
      Forall (passes' stem suffix) rs /\
      paths = map (out_name stem suffix) (filter sized' rs) /\
      map fst written = paths /\
      Forall (fun fs => exists r, In r rs /\
                fst fs = out_name stem suffix r /\
                resolution_size' r = Ok (Some (snd fs)) /\
                write_videofile (Some (snd fs)) (fst fs) = None) written
  | (written, PyRaise.Throw err) =>
      exists before r after,
        rs = (before ++ r :: after)%list /\
        Forall (passes' stem suffix) before /\
        stops' stem suffix r err /\
        map fst written = map (out_name stem suffix) (filter sized' before)
  end.
Proof.
  unfold export_resolutions.
  pose proof (export_from_spec stem suffix rs [] [] eq_refl) as H.
  destruct (export_from' stem suffix rs [] []) as [written [paths|e]].
  - destruct H as (Hall & Hp & Hm & added & Ha & Hf).
    cbn [app] in Hp, Ha. subst added. auto.
  - exact H.
Qed.



End ExportFacts.

(** ** utils.py *)

Section UtilsFacts.
Import PyStr Utils.
Local Open Scope string_scope.

Lemma replace_char_absent (a b : ascii) (s : string) :
  contains_char a s = false -> replace_char a b s = s.
Proof.
  induction s as [|c r IH]; cbn; [reflexivity|].
  intros H. apply orb_false_elim in H. destruct H as [Hc Hr].
  now rewrite Hc, IH.
Qed.

Lemma replace_char_gone (a b : ascii) (s : string) :
  Ascii.eqb b a = false -> contains_char a (replace_char a b s) = false.
Proof.
  intros Hab. induction s as [|c r IH]; cbn; [reflexivity|].
  rewrite IH, orb_false_r.
  destruct (Ascii.eqb c a) eqn:E; [exact Hab | exact E].
Qed.

Lemma replace_char_length (a b : ascii) (s : string) :
  String.length (replace_char a b s) = String.length s.
Proof.
  induction s as [|c r IH]; cbn; [reflexivity | now rewrite IH].
Qed.

Lemma replace_char_get (a b : ascii) (s : string) (i : nat) :
  String.get i (replace_char a b s) =
  option_map (fun c => if Ascii.eqb c a then b else c) (String.get i s).
Proof.
  revert i. induction s as [|c r IH]; intros i; cbn; [reflexivity|].
  destruct i as [|i]; [reflexivity | apply IH].
Qed.

(** X15. The safe stem has no space left, is as long as the stem, and
    differs from it only where the stem has a space, which becomes an
    underscore; a stem without spaces is kept, so applying it twice changes
    nothing more. It does not keep stems apart: "my clip" and "my_clip"
    have the same safe stem. *)
Theorem safe_stem_replaces_spaces (stem : string) :
  contains_char " " (safe_stem stem) = false /\
  String.length (safe_stem stem) = String.length stem /\
  (forall i,
     String.get i (safe_stem stem) =
     option_map (fun c => if Ascii.eqb c " " then "_"%char else c)
                (String.get i stem)) /\
  (contains_char " " stem = false -> safe_stem stem = stem) /\
  safe_stem (safe_stem stem) = safe_stem stem /\
  safe_stem "my clip" = safe_stem "my_clip".
Proof.
  unfold safe_stem.
  assert (contains_char " " (replace_char " " "_" stem) = false) as G
    by now apply replace_char_gone.
  split; [exact G|]. split; [|split; [|split; [|split]]].
  - apply replace_char_length.
  - intros i. apply replace_char_get.
  - apply replace_char_absent.
  - now apply replace_char_absent.
  - reflexivity.
Qed.

End UtilsFacts.

(** ** pipeline.py: from the highlights to the sequence *)

Section SequenceFacts.
Import PyErr PyFloat PyList Highlight Transitions Pipeline.

Lemma build_segments_cases (video : VideoFile) (detected : list Highlight)
    (trims : option (list Trim)) (top_k : Z) :
  match build_segments video detected trims top_k with
  | Ok segments => segments <> []
  | Raise e =>
      e = start_beyond_duration /\
      exists h,
        In h (py_slice (substitute_trims detected trims) None (Some top_k)) /\
        padded_subclip video default_pad h = Raise e /\
        (duration video <? py_max 0 (start_sec h - default_pad))%float = true
  end.
Proof.
  unfold build_segments. rewrite build_sequence_of_cut.
  pose proof (cut_segments_spec video default_pad
                (py_slice (substitute_trims detected trims) None (Some top_k)))
    as S.
  destruct (cut_segments video default_pad _) as [[|c cs]|e]; cbn [bind snd].
  - discriminate.
  - discriminate.
  - exact S.
Qed.

(** X11. [apply_transitions] in [process_single_video] is never handed
    an empty list, so its own error, "No segments to stitch", cannot occur
    there. When there is a sequence, it is the one segment itself if there
    is one only (the whole source clip when nothing was selected), and
    otherwise the segments joined, with the padding [-duration] for the
    kinds that overlap and 0 for every other kind. When there is none, the
    exception is the one [subclip] raised while the segments were cut, for
    a selected highlight whose padded start lies beyond the source. *)
Theorem sequence_clip_has_segments (video : VideoFile)
    (detected : list Highlight) (trims : option (list Trim)) (top_k : Z)
    (kind : option string) (transition_duration : float) :
  match sequence_clip video detected trims top_k kind transition_duration with
  | Ok seq_clip =>
      exists segments,
        build_segments video detected trims top_k = Ok segments /\
        match segments with
        | [] => False
        | [segment] => seq_clip = segment
        | _ :: _ :: _ =>
            seq_clip =
              concatenate_videoclips segments
                (if joins_with_overlap kind then (- transition_duration)%float
                 else 0%float)
        end
  | Raise e =>
      build_segments video detected trims top_k = Raise e /\
      e = start_beyond_duration /\
      exists h,
        In h (py_slice (substitute_trims detected trims) None (Some top_k)) /\
        padded_subclip video default_pad h = Raise e /\
        (duration video <? py_max 0 (start_sec h - default_pad))%float = true
  end.
Proof.
  unfold sequence_clip.
  pose proof (build_segments_cases video detected trims top_k) as N.
  destruct (build_segments video detected trims top_k) as [[|a [|b r]]|e];
    cbn [bind].
  - congruence.
  - cbn [apply_transitions]. exists [a]. split; reflexivity.
  - cbn [apply_transitions]. unfold joins_with_overlap.
    destruct (is_fade _); eexists; (split; [reflexivity|]); reflexivity.
  - split; [reflexivity | exact N].
Qed.

End SequenceFacts.

(** ** transcription.py: SRT time stamps *)

Section SplitFacts.
Import PyStr.
Local Open Scope string_scope.

Lemma contains_char_app (c : ascii) (a b : string) :
  contains_char c (a ++ b) = contains_char c a || contains_char c b.
Proof.
  induction a as [|x a IH]; cbn; [reflexivity|].
  now rewrite IH, orb_assoc.
Qed.

Lemma split_char_nonempty (c : ascii) (s : string) : split_char c s <> [].
Proof.
  destruct s as [|x r]; cbn; [discriminate|].
  destruct (Ascii.eqb x c); [discriminate|].
  destruct (split_char c r); discriminate.
Qed.

(** Joining the pieces with the separator gives the string back, and no
    piece holds the separator. *)
Lemma split_char_join (c : ascii) (s : string) :
  join (String c "") (split_char c s) = s.
Proof.
  induction s as [|x r IH]; [reflexivity|]. cbn [split_char].
  destruct (Ascii.eqb x c) eqn:E.
  - apply Ascii.eqb_eq in E. subst x.
    pose proof (split_char_nonempty c r) as N.
    destruct (split_char c r) as [|p ps]; [congruence|].
    change (join (String c "") ("" :: p :: ps))
      with (String c (join (String c "") (p :: ps))).
    now rewrite IH.
  - pose proof (split_char_nonempty c r) as N.
    destruct (split_char c r) as [|p ps]; [congruence|].
    destruct ps as [|q qs].
    + cbn in *. now rewrite IH.
    + change (join (String c "") (String x p :: q :: qs))
        with (String x (join (String c "") (p :: q :: qs))).
      now rewrite IH.
Qed.

Lemma split_char_pieces (c : ascii) (s : string) :
  Forall (fun p => contains_char c p = false) (split_char c s).
Proof.
  induction s as [|x r IH]; cbn [split_char].
  - constructor; [reflexivity | constructor].
  - destruct (Ascii.eqb x c) eqn:E.
    + constructor; [reflexivity | exact IH].
    + destruct (split_char c r) as [|p ps].
      * constructor; [cbn; now rewrite E | constructor].
      * inversion IH as [|? ? Hp Hps]; subst.
        constructor; [cbn; now rewrite E, Hp | exact Hps].
Qed.

Lemma split_char_piece (c : ascii) (p : string) :
  contains_char c p = false -> split_char c p = [p].
Proof.
  induction p as [|x p IH]; cbn; [reflexivity|].
  intros H. apply orb_false_elim in H. destruct H as [Hx Hp].
  now rewrite Hx, (IH Hp).
Qed.

Lemma split_char_app_piece (c : ascii) (p t : string) :
  contains_char c p = false ->
  split_char c (p ++ String c t) = p :: split_char c t.
Proof.
  induction p as [|x p IH]; cbn [append split_char contains_char].
  - intros _. now rewrite Ascii.eqb_refl.
  - intros H. apply orb_false_elim in H. destruct H as [Hx Hp].
    now rewrite Hx, (IH Hp).
Qed.

(** The string before the first occurrence of the separator, the
    separator, and the rest; or the string and two empty strings. *)
Lemma startswith_app (sep s : string) :
  startswith sep s = true -> s = sep ++ drop (String.length sep) s.
Proof.
  revert s. induction sep as [|a sep IH]; intros s; cbn; [reflexivity|].
  destruct s as [|c s]; [discriminate|].
  intros H. apply andb_true_iff in H. destruct H as [Ha Hs].
  apply Ascii.eqb_eq in Ha. subst c. cbn. now rewrite <- (IH s Hs).
Qed.

Lemma partition_spec (sep s : string) :
  (exists before rest,
     partition sep s = (before, sep, rest) /\ s = before ++ sep ++ rest) \/
  (partition sep s = (s, "", "") /\ contains_str sep s = false).
Proof.
  induction s as [|c r IH]; cbn [partition contains_str].
  - destruct (startswith sep "") eqn:E.
    + left. exists "", (drop (String.length sep) "").
      split; [reflexivity|]. now apply startswith_app.
    + right. split; reflexivity.
  - destruct (startswith sep (String c r)) eqn:E.
    + left. exists "", (drop (String.length sep) (String c r)).
      split; [reflexivity|]. now apply startswith_app.
    + cbn [orb]. destruct IH as [(before & rest & Hp & Hs)|[Hp Hn]].
      * left. exists (String c before), rest. rewrite Hp.
        split; [reflexivity|]. cbn. now rewrite Hs.
      * right. rewrite Hp. split; [reflexivity | exact Hn].
Qed.

End SplitFacts.

Section SrtFacts.
Import PyFloat PyStr PyRaise Transcription.
Local Open Scope string_scope.

Variable py_int : string -> option Z.

Abbreviation parse_time := (_srt_time_to_seconds py_int).
Abbreviation parse_range := (_srt_time_range_to_seconds py_int).

Lemma int_Return (s : string) (z : Z) :
  int py_int s = Return z <-> py_int s = Some z.
Proof.
  unfold int. destruct (py_int s) as [z'|].
  - split; intros [= ->]; reflexivity.
  - split; discriminate.
Qed.

Lemma to_float_Return (z : Z) (f : float) :
  to_float z = Return f <->
  is_infinity (float_of_Z z) = false /\ f = float_of_Z z.
Proof.
  unfold to_float. destruct (is_infinity (float_of_Z z)).
  - split; [discriminate | intros [? _]; discriminate].
  - split.
    + intros H. split; [reflexivity|].
      apply (f_equal (returned f)) in H. cbn in H. now symmetry.
    + intros [_ ->]. reflexivity.
Qed.

(** X16. A time stamp is read exactly when it has the shape
    [h:m:sec,ms], with two colons and, after the second, one comma, and
    each of the four pieces denotes an integer (and neither [ms] nor the
    whole number of seconds is too large to be a float). Its value is then
    the float nearest to [3600 h + 60 m + sec], plus [ms / 1000.0]. Every
    other string raises. *)
Theorem srt_time_shape (t : string) (v : float) :
  parse_time t = Return v <->
  exists h m sec ms zh zm zs zms,
    t = h ++ ":" ++ m ++ ":" ++ sec ++ "," ++ ms /\
    contains_char ":" h = false /\ contains_char ":" m = false /\
    contains_char ":" sec = false /\ contains_char ":" ms = false /\
    contains_char "," sec = false /\ contains_char "," ms = false /\
    py_int h = Some zh /\ py_int m = Some zm /\
    py_int sec = Some zs /\ py_int ms = Some zms /\
    is_infinity (float_of_Z zms) = false /\
    is_infinity (float_of_Z (zh * 3600 + zm * 60 + zs)) = false /\
    v = (float_of_Z (zh * 3600 + zm * 60 + zs) + float_of_Z zms / 1000)%float.
Proof.
  unfold _srt_time_to_seconds. split.
  - pose proof (split_char_join ":" t) as Ht.
    pose proof (split_char_pieces ":" t) as Hp.
    destruct (split_char ":" t) as [|h [|m [|rest [|x l]]]]; try discriminate.
    apply Forall_cons_iff in Hp. destruct Hp as [Hh Hp].
    apply Forall_cons_iff in Hp. destruct Hp as [Hm Hp].
    apply Forall_cons_iff in Hp. destruct Hp as [Hr _].
    pose proof (split_char_join "," rest) as Hrest.
    pose proof (split_char_pieces "," rest) as Hq.
    destruct (split_char "," rest) as [|sec [|ms [|x l]]]; try discriminate.
    apply Forall_cons_iff in Hq. destruct Hq as [Hs Hq].
    apply Forall_cons_iff in Hq. destruct Hq as [Hms _].
    cbn [join] in Hrest, Ht. rewrite <- Hrest in Hr, Ht.
    rewrite !contains_char_app in Hr.
    apply orb_false_elim in Hr. destruct Hr as [Hcs Hr].
    apply orb_false_elim in Hr. destruct Hr as [_ Hcms].
    destruct (int py_int h) as [zh|] eqn:Eh; [|discriminate].
    destruct (int py_int m) as [zm|] eqn:Em; [|discriminate].
    destruct (int py_int sec) as [zs|] eqn:Es; [|discriminate].
    destruct (int py_int ms) as [zms|] eqn:Ems; [|discriminate].
    cbn [and_then].
    destruct (to_float zms) as [fms|] eqn:Efms; [|discriminate].
    destruct (to_float (zh * 3600 + zm * 60 + zs)) as [whole|] eqn:Ew;
      [|discriminate].
    cbn [and_then]. intros H.
    apply (f_equal (returned v)) in H. cbn in H.
    apply int_Return in Eh, Em, Es, Ems.
    apply to_float_Return in Efms, Ew.
    destruct Efms as [I1 ->], Ew as [I2 ->].
    exists h, m, sec, ms, zh, zm, zs, zms.
    rewrite <- Ht.
    repeat (split; [first [reflexivity | assumption]|]).
    now symmetry.
  - intros (h & m & sec & ms & zh & zm & zs & zms & -> & Hh & Hm & Hs & Hms
            & Hcs & Hcms & Eh & Em & Es & Ems & I1 & I2 & ->).
    change (h ++ ":" ++ m ++ ":" ++ sec ++ "," ++ ms)
      with (h ++ String ":" (m ++ String ":" (sec ++ String "," ms))).
    rewrite !split_char_app_piece by trivial.
    rewrite split_char_piece.
    2:{ rewrite contains_char_app. cbn. now rewrite Hs, Hms. }
    rewrite split_char_app_piece by trivial.
    rewrite split_char_piece by trivial.
    apply int_Return in Eh, Em, Es, Ems. rewrite Eh, Em, Es, Ems.
    cbn [and_then].
    rewrite (proj2 (to_float_Return zms _) (conj I1 eq_refl)).
    rewrite (proj2 (to_float_Return _ _) (conj I2 eq_refl)).
    reflexivity.
Qed.

(** X17. A line gives a time range only if it reads [a --> b] with both
    [a] and [b] time stamps that are read; [a] ends where the arrow first
    occurs. A line without the arrow always raises: what follows the arrow
    is then the empty string, which is no time stamp. *)
Theorem srt_range_needs_arrow (line : string) :
  (forall s e,
     parse_range line = Return (s, e) ->
     exists a b,
       line = a ++ " --> " ++ b /\
       partition " --> " line = (a, " --> ", b) /\
       parse_time a = Return s /\ parse_time b = Return e) /\
  (contains_str " --> " line = false ->
   exists err, parse_range line = Throw err) /\
  parse_time "" = Throw ValueError.
Proof.
  unfold _srt_time_range_to_seconds.
  split; [|split; [|reflexivity]].
  - intros s e.
    destruct (partition_spec " --> " line)
      as [(a & b & Hp & Hl)|[Hp _]]; rewrite Hp.
    + destruct (parse_time a) as [s'|] eqn:Ea; [|discriminate].
      destruct (parse_time b) as [e'|] eqn:Eb; [|discriminate].
      cbn [and_then]. intros H.
      pose proof (f_equal (fun o => fst (returned (s, e) o)) H) as H1.
      pose proof (f_equal (fun o => snd (returned (s, e) o)) H) as H2.
      cbn in H1, H2. subst s' e'.
      exists a, b. auto.
    + destruct (parse_time line); discriminate.
  - intros Hn.
    destruct (partition_spec " --> " line)
      as [(a & b & Hp & Hl)|[Hp _]].
    + exfalso. subst line. clear Hp.
      induction a as [|c a IH]; cbn in Hn.
      * discriminate.
      * apply orb_false_elim in Hn. destruct Hn as [_ Hn]. now apply IH.
    + rewrite Hp. destruct (parse_time line) as [s|err].
      * exists ValueError. reflexivity.
      * exists err. reflexivity.
Qed.

End SrtFacts.

(** ** config.py and cli.py *)

Section KeywordFacts.
Import PyStr PyList PyRaise Transitions Exports Config.
Local Open Scope string_scope.

Lemma mem_In (k : string) (l : list string) : mem k l = true <-> In k l.
Proof.
  unfold mem. rewrite existsb_exists. split.
  - intros (x & Hx & E). apply String.eqb_eq in E. now subst.
  - intros H. exists k. split; [trivial | apply String.eqb_refl].
Qed.

Lemma mem_not_In (k : string) (l : list string) :
  mem k l = false <-> ~ In k l.
Proof.
  rewrite <- mem_In. destruct (mem k l); split; congruence.
Qed.

Lemma has_dup_NoDup (l : list string) : has_dup l = false <-> NoDup l.
Proof.
  induction l as [|k r IH]; cbn.
  - split; [constructor | reflexivity].
  - rewrite orb_false_iff, mem_not_In, IH. split.
    + intros [H1 H2]. now constructor.
    + intros H. inversion H; subst. auto.
Qed.

Lemma has_dup_shared (a b : list string) (k : string) :
  In k a -> In k b -> has_dup (a ++ b) = true.
Proof.
  intros Ha Hb. destruct (has_dup (a ++ b)) eqn:E; [reflexivity|].
  apply has_dup_NoDup in E. exfalso. revert E.
  induction a as [|x a IH]; [destruct Ha|]. cbn. intros E.
  inversion E as [|? ? Hx Hn]; subst.
  destruct Ha as [->|Ha]; [|auto].
  apply Hx, in_or_app. now right.
Qed.

Lemma has_dup_app_shared (a b : list string) :
  has_dup a = false -> has_dup b = false -> has_dup (a ++ b) = true ->
  exists k, In k a /\ In k b.
Proof.
  intros Ha Hb. induction a as [|x a IH]; cbn.
  - congruence.
  - cbn in Ha. apply orb_false_elim in Ha. destruct Ha as [Hx Ha].
    intros H. apply orb_true_iff in H. destruct H as [H|H].
    + apply mem_In, in_app_or in H. destruct H as [H|H].
      * apply mem_In in H. congruence.
      * exists x. split; [now left | trivial].
    + destruct (IH Ha H) as (k & H1 & H2). exists k. split; [now right|trivial].
Qed.

Lemma forallb_false_ex {A : Type} (f : A -> bool) (l : list A) :
  forallb f l = false -> exists x, In x l /\ f x = false.
Proof.
  induction l as [|a l IH]; cbn; [discriminate|].
  destruct (f a) eqn:E; cbn.
  - intros H. destruct (IH H) as (x & Hx & Hf). exists x. auto.
  - intros _. exists a. auto.
Qed.

Lemma dict_get_In {V : Type} (d : list (string * V)) (k : string) (v : V) :
  dict_get d k = Some v -> In k (map fst d).
Proof.
  induction d as [|[k' v'] d IH]; cbn; [discriminate|].
  destruct (String.eqb k k') eqn:E.
  - apply String.eqb_eq in E. auto.
  - auto.
Qed.

Lemma dict_get_absent {V : Type} (d : list (string * V)) (k : string) :
  ~ In k (map fst d) -> dict_get d k = None.
Proof.
  intros H. destruct (dict_get d k) eqn:E; [|reflexivity].
  apply dict_get_In in E. contradiction.
Qed.

Lemma dict_get_app {V : Type} (a b : list (string * V)) (k : string) :
  dict_get (a ++ b) k =
  match dict_get a k with
  | Some v => Some v
  | None => dict_get b k
  end.
Proof.
  induction a as [|[k' v'] a IH]; cbn; [reflexivity|].
  now destruct (String.eqb k k').
Qed.

(** The keyword test of [new_StyleConfig] on a first group of keywords
    that is in order, followed by the items of a dict. *)
Lemma keywords_rejected (first items : list (string * pyval)) :
  NoDup (map fst first) -> Forall (fun k => In k fields) (map fst first) ->
  NoDup (map fst items) ->
  has_dup (map fst (first ++ items)) ||
    negb (forallb (fun k => mem k fields) (map fst (first ++ items))) = true <->
  exists k, In k (map fst items) /\
            (In k (map fst first) \/ ~ In k fields).
Proof.
  intros Nf Ff Ni. rewrite map_app.
  apply has_dup_NoDup in Nf, Ni.
  assert (forallb (fun k => mem k fields) (map fst first) = true) as Af.
  { apply forallb_forall. intros k Hk. apply mem_In.
    exact (proj1 (Forall_forall _ _) Ff k Hk). }
  split.
  - intros H. apply orb_true_iff in H. destruct H as [H|H].
    + destruct (has_dup_app_shared _ _ Nf Ni H) as (k & H1 & H2).
      exists k. auto.
    + apply negb_true_iff in H. rewrite forallb_app, Af in H. cbn [andb] in H.
      destruct (forallb_false_ex _ _ H) as (k & Hk & Hm).
      apply mem_not_In in Hm. exists k. auto.
  - intros (k & Hk & [H|H]).
    + rewrite (has_dup_shared _ _ k H Hk). reflexivity.
    + apply orb_true_iff. right. apply negb_true_iff.
      destruct (forallb (fun k => mem k fields)
                  (map fst first ++ map fst items)) eqn:E; [|reflexivity].
      exfalso. apply H, mem_In.
      apply (proj1 (forallb_forall _ _) E). apply in_or_app. now right.
Qed.

Lemma preset_of_cases (l : string) :
  preset_of l = [] \/
  exists e c, preset_of l = [("exposure_boost", e); ("contrast_gain", c)].
Proof.
  unfold preset_of.
  destruct (String.eqb l "cinematic"); [right; eauto|].
  destruct (String.eqb l "vlog"); [right; eauto|].
  destruct (mem l _); [right; eauto|].
  destruct (String.eqb l "youtube"); [right; eauto|].
  now left.
Qed.

Lemma preset_keywords (style : pyval) (l : string) :
  NoDup (map fst (("name", style) :: preset_of l)) /\
  Forall (fun k => In k fields) (map fst (("name", style) :: preset_of l)).
Proof.
  destruct (preset_of_cases l) as [->|(e & c & ->)]; cbn [map fst].
  - split.
    + constructor; [intros [] | constructor].
    + constructor; [cbn; tauto | constructor].
  - split.
    + constructor; [cbn; intuition discriminate|].
      constructor; [cbn; intuition discriminate|].
      constructor; [intros [] | constructor].
    + constructor; [cbn; tauto|].
      constructor; [cbn; tauto|].
      constructor; [cbn; tauto | constructor].
Qed.

Lemma style_preset_of_option (style : option string) :
  _style_preset (of_option style) =
  Return (preset_of (lower (style_name style))).
Proof.
  destruct style as [s|]; [|reflexivity].
  unfold _style_preset. cbn [of_option truth style_name].
  destruct s; reflexivity.
Qed.

End KeywordFacts.

Section StyleFacts.
Import PyStr PyList PyRaise Transitions Exports Config.
Local Open Scope string_scope.

Lemma arg_merge (n : pyval) (preset items : list (string * pyval))
    (k : string) :
  k <> "name" ->
  (forall v, dict_get items k = Some v -> dict_get preset k = None) ->
  arg (("name", n) :: preset ++ items) k =
  match dict_get items k with
  | Some v => v
  | None => arg preset k
  end.
Proof.
  intros Hk Hd. unfold arg. cbn [dict_get].
  apply String.eqb_neq in Hk. rewrite Hk, dict_get_app.
  destruct (dict_get items k) as [v|] eqn:E.
  - now rewrite (Hd v).
  - now destruct (dict_get preset k).
Qed.

(** X18. With a dict under [style] in the metadata, the style settings
    are built from the command-line style as [name], the two parameters of
    its preset, and the items of the dict as further keywords. The call
    fails with [TypeError] exactly when the dict has the key ["name"], a
    key the preset sets already, or a key that is no field of
    [StyleConfig]: once a known preset is chosen on the command line, the
    metadata can set neither [exposure_boost] nor [contrast_gain]. When the
    call returns, each field other than [name] has the value from the dict
    if the dict gives one, else the preset's, else the default. *)
Theorem style_dict_cannot_override (style : option string)
    (items : list (string * pyval)) :
  NoDup (map fst items) ->
  let preset := preset_of (lower (style_name style)) in
  (style_cfg style (SDict items) = Throw TypeError <->
   exists k, In k (map fst items) /\
             (k = "name" \/ In k (map fst preset) \/ ~ In k fields)) /\
  style_cfg style (SDict items) <> Throw AttributeError /\
  (forall cfg,
     style_cfg style (SDict items) = Return cfg ->
     name cfg = of_option style /\
     forall k, In k fields -> k <> "name" ->
       field cfg k = Some (match dict_get items k with
                           | Some v => v
                           | None => arg preset k
                           end)).
Proof.
  intros Ni preset. unfold style_cfg.
  rewrite style_preset_of_option. fold preset. cbn [and_then].
  unfold new_StyleConfig.
  destruct (preset_keywords (of_option style) (lower (style_name style)))
    as [Np Fp]. fold preset in Np, Fp.
  pose proof (keywords_rejected (("name", of_option style) :: preset) items
                Np Fp Ni) as K.
  change ((("name", of_option style) :: preset) ++ items)%list
    with (("name", of_option style) :: preset ++ items)%list in K.
  set (kwargs := (("name", of_option style) :: preset ++ items)%list) in *.
  destruct (has_dup (map fst kwargs) ||
            negb (forallb (fun k => mem k fields) (map fst kwargs))) eqn:T.
  - split; [|split; [discriminate | discriminate]].
    split; [|reflexivity]. intros _.
    destruct (proj1 K eq_refl) as (k & Hk & H). exists k. split; [trivial|].
    destruct H as [[H|H]|H]; auto.
  - split; [|split; [discriminate|]].
    + split; [discriminate|].
      intros (k & Hk & H). assert (false = true) as F; [|discriminate F].
      apply (proj2 K). exists k. split; [trivial|].
      destruct H as [H|[H|H]]; [left; left; now symmetry | left; now right | now right].
    + intros cfg H. apply (f_equal (returned cfg)) in H. cbn [returned] in H.
      subst cfg. cbn [name]. split; [reflexivity|].
      assert (forall k v, dict_get items k = Some v ->
                          dict_get preset k = None) as D.
      { intros k v Hv. apply dict_get_absent. intros Hp.
        assert (false = true) as F; [|discriminate F].
        apply (proj2 K). exists k. split; [now apply dict_get_In in Hv|].
        left. now right. }
      intros k Hk Hn.
      rewrite <- (arg_merge (of_option style) preset items k Hn (D k)).
      fold kwargs. cbn in Hk.
      destruct Hk as [<-|[<-|[<-|[<-|[<-|[<-|[]]]]]]];
        [congruence | reflexivity ..].
Qed.

Lemma new_StyleConfig_preset (n : pyval) (l : string) :
  new_StyleConfig (("name", n) :: preset_of l) =
  Return {| name := n; stabilize := PBool true; color_correct := PBool true;
            denoise_video := PBool false;
            exposure_boost := arg (preset_of l) "exposure_boost";
            contrast_gain := arg (preset_of l) "contrast_gain" |}.
Proof.
  destruct (preset_of_cases l) as [->|(e & c & ->)]; reflexivity.
Qed.

Lemma lower_empty (s : string) : lower s = "" -> s = "".
Proof. destruct s; [reflexivity | discriminate]. Qed.

(** What [style_cfg] does with a value that is no dict, by the name. *)
Lemma style_cfg_value (n : pyval) :
  (preset_params <~ _style_preset n ;;
   new_StyleConfig (("name", n) :: preset_params)) =
  if truth n &&
     match n with
     | PStr _ | PBytes _ => false
     | _ => true
     end
  then Throw AttributeError
  else Return {| name := n; stabilize := PBool true;
                 color_correct := PBool true; denoise_video := PBool false;
                 exposure_boost := arg (preset_for n) "exposure_boost";
                 contrast_gain := arg (preset_for n) "contrast_gain" |}.
Proof.
  unfold _style_preset.
  destruct (truth n) eqn:T; cbn [negb andb and_then].
  - destruct n; cbn [and_then preset_for]; try reflexivity.
    + apply new_StyleConfig_preset.
  - change (lower "") with "". rewrite (new_StyleConfig_preset n "").
    destruct n as [| b | z | f | s | b | t]; cbn [preset_for]; try reflexivity.
    cbn [truth] in T. apply negb_false_iff, is_empty_true in T. now subst s.
Qed.

(** X19. With any other value under [style] (or none), the name is the
    command-line style if that is given and not empty, else the metadata
    value. The call never fails with [TypeError]; it fails, with
    [AttributeError], exactly when that name is a true value that is
    neither a string nor bytes. Otherwise the preset is looked up by the
    lowered name when it is a string, so capitals in it do not matter, and
    is empty for every other name, bytes included; [stabilize] and
    [color_correct] are on and [denoise_video] is off; and a name that is
    none of the six known ones gives the default parameters without any
    error. *)
Theorem style_name_outcomes (style : option string) (v : pyval) :
  let n := style_or style v in
  (style_cfg style (SVal v) = Throw AttributeError <->
   truth n = true /\ (forall s, n <> PStr s) /\ (forall b, n <> PBytes b)) /\
  style_cfg style (SVal v) <> Throw TypeError /\
  (forall cfg,
     style_cfg style (SVal v) = Return cfg ->
     cfg = {| name := n; stabilize := PBool true;
              color_correct := PBool true; denoise_video := PBool false;
              exposure_boost := arg (preset_for n) "exposure_boost";
              contrast_gain := arg (preset_for n) "contrast_gain" |}) /\
  (forall b, preset_for (PBytes b) = []) /\
  (forall l,
     preset_of l = [] <->
     ~ In l ["cinematic"; "vlog"; "reel"; "instagram"; "short"; "youtube"]) /\
  (forall s s',
     lower s = lower s' -> _style_preset (PStr s) = _style_preset (PStr s')).
Proof.
  intros n. unfold style_cfg. fold n. clearbody n.
  rewrite style_cfg_value.
  split; [|split; [|split; [|split; [|split]]]].
  - destruct (truth n) eqn:T; cbn [andb].
    + destruct n as [| b | z | f | s | b | t];
        try (split; [intros _; split; [reflexivity|]; split; discriminate
                    | reflexivity]).
      * split; [discriminate | intros (_ & H & _); now destruct (H s)].
      * split; [discriminate | intros (_ & _ & H); now destruct (H b)].
    + split; [discriminate | intros [? _]; discriminate].
  - destruct (truth n && _); discriminate.
  - intros cfg. destruct (truth n && _); [discriminate|].
    intros H. apply (f_equal (returned cfg)) in H. cbn [returned] in H.
    now symmetry.
  - reflexivity.
  - intros l. unfold preset_of, mem. cbn [existsb In].
    destruct (String.eqb_spec l "cinematic");
      [split; [discriminate | intros H; exfalso; apply H; auto]|].
    destruct (String.eqb_spec l "vlog");
      [split; [discriminate | intros H; exfalso; apply H; auto]|].
    destruct (String.eqb_spec l "reel");
      [split; [discriminate | intros H; exfalso; apply H; auto]|].
    destruct (String.eqb_spec l "instagram");
      [split; [discriminate | intros H; exfalso; apply H; auto 6]|].
    destruct (String.eqb_spec l "short");
      [split; [discriminate | intros H; exfalso; apply H; auto 7]|].
    cbn [orb].
    destruct (String.eqb_spec l "youtube");
      [split; [discriminate | intros H; exfalso; apply H; auto 8]|].
    split; [|reflexivity]. intros _ H. intuition congruence.
  - intros s s' E. unfold _style_preset. cbn [truth].
    destruct s as [|c s], s' as [|c' s']; cbn [is_empty negb].
    + reflexivity.
    + symmetry in E. apply lower_empty in E. discriminate.
    + apply lower_empty in E. discriminate.
    + now rewrite E.
Qed.

End StyleFacts.

Section ResolutionsOption.
Import PyStr PyList Config.
Local Open Scope string_scope.

Lemma lstrip_idem (s : string) : lstrip (lstrip s) = lstrip s.
Proof.
  induction s as [|c r IH]; cbn; [reflexivity|].
  destruct (is_space c) eqn:E; [exact IH|]. cbn. now rewrite E.
Qed.

Lemma rstrip_idem (s : string) : rstrip (rstrip s) = rstrip s.
Proof.
  induction s as [|c r IH]; cbn; [reflexivity|].
  destruct (is_space c && is_empty (rstrip r)) eqn:E; [reflexivity|].
  cbn. now rewrite IH, E.
Qed.

Lemma rstrip_fixed_tail (c : ascii) (r : string) :
  rstrip (String c r) = String c r -> rstrip r = r.
Proof.
  cbn. destruct (is_space c && is_empty (rstrip r)); [discriminate|].
  intros [= H]. exact H.
Qed.

Lemma rstrip_lstrip (s : string) :
  rstrip s = s -> rstrip (lstrip s) = lstrip s.
Proof.
  induction s as [|c r IH]; [reflexivity|]. intros H. cbn [lstrip].
  destruct (is_space c); [|exact H].
  apply IH. now apply rstrip_fixed_tail in H.
Qed.

Lemma strip_tight_or_empty (s : string) : strip s <> "" -> tight (strip s).
Proof.
  intros H. split; [exact H|]. unfold strip. split.
  - apply lstrip_idem.
  - apply rstrip_lstrip, rstrip_idem.
Qed.

Lemma contains_char_lstrip (c : ascii) (s : string) :
  contains_char c s = false -> contains_char c (lstrip s) = false.
Proof.
  induction s as [|x r IH]; cbn; [trivial|].
  intros H. apply orb_false_elim in H. destruct H as [Hx Hr].
  destruct (is_space x); [auto|]. cbn. now rewrite Hx, Hr.
Qed.

Lemma contains_char_rstrip (c : ascii) (s : string) :
  contains_char c s = false -> contains_char c (rstrip s) = false.
Proof.
  induction s as [|x r IH]; cbn; [trivial|].
  intros H. apply orb_false_elim in H. destruct H as [Hx Hr].
  destruct (is_space x && is_empty (rstrip r)); [reflexivity|].
  cbn. now rewrite Hx, IH.
Qed.

(** X20. The resolutions of a run: the option is cut at the commas,
    each piece is stripped, and blank pieces are dropped, so every
    resolution is non-empty, free of commas and of outer whitespace; and
    the configuration never has an empty list, since an option that leaves
    nothing gives ["1080p", "720p"]. *)
Theorem resolutions_option_parsed (option : string) :
  Forall (fun r => tight r /\ contains_char "," r = false)
         (parse_resolutions option) /\
  (parse_resolutions option = [] <->
   Forall (fun x => strip x = "") (split_char "," option)) /\
  config_resolutions (parse_resolutions option) <> [] /\
  (parse_resolutions option = [] ->
   config_resolutions (parse_resolutions option) = ["1080p"; "720p"]) /\
  (parse_resolutions option <> [] ->
   config_resolutions (parse_resolutions option) = parse_resolutions option).
Proof.
  unfold parse_resolutions.
  pose proof (split_char_pieces "," option) as Hp.
  induction (split_char "," option) as [|x l IH].
  - cbn. split; [constructor|]. split; [split; constructor|].
    split; [discriminate|]. split; [reflexivity | congruence].
  - apply Forall_cons_iff in Hp. destruct Hp as [Hx Hl].
    destruct (IH Hl) as (I1 & I2 & I3 & I4 & I5). clear IH.
    cbn [flat_map]. destruct (is_empty (strip x)) eqn:E; cbn [app].
    + apply is_empty_true in E.
      split; [exact I1|]. split; [|split; [exact I3 | split; [exact I4 | exact I5]]].
      rewrite I2. split.
      * intros H. now constructor.
      * intros H. now apply Forall_cons_iff in H.
    + apply is_empty_false in E.
      split; [|split; [|split; [discriminate | split; [discriminate | reflexivity]]]].
      * constructor; [|exact I1].
        split; [now apply strip_tight_or_empty|].
        unfold strip. now apply contains_char_lstrip, contains_char_rstrip.
      * split; [discriminate|]. intros H.
        apply Forall_cons_iff in H. destruct H as [H _]. contradiction.
Qed.

End ResolutionsOption.

(** ** audio.py *)

Section TrackChoice.
Import PyFloat PyList Transitions Audio.
Local Open Scope string_scope.

Variable Path : Type.
Variable suffix : Path -> string.
Variable duration_seconds : Path -> float.

Let dur := duration_seconds.
Let sort := sort_by_duration Path duration_seconds.

Lemma sort_by_duration_nil (l : list Path) : sort l = [] -> l = [].
Proof.
  destruct l as [|x l]; [reflexivity|]. unfold sort. cbn.
  destruct (fold_right _ _ l) as [|q r]; cbn; [discriminate|].
  destruct (_ <? _)%float; discriminate.
Qed.

(** The head of the sorted list is the first of the shortest. *)
Lemma sort_by_duration_hd (l : list Path) (t : Path) (rest : list Path) :
  Forall (fun p => is_nan (dur p) = false) l ->
  sort l = t :: rest ->
  exists before after,
    l = (before ++ t :: after)%list /\
    Forall (fun b => (dur t <? dur b)%float = true) before /\
    Forall (fun a => (dur t <=? dur a)%float = true) after.
Proof.
  intros Hn. revert t rest.
  induction Hn as [|x l Hx Hl IH]; intros t rest; [discriminate|].
  unfold sort. cbn [sort_by_duration fold_right].
  fold (sort_by_duration Path duration_seconds l). fold sort.
  destruct (sort l) as [|y r] eqn:E.
  - apply sort_by_duration_nil in E. subst l. cbn. intros [= <- <-].
    exists [], []. split; [reflexivity|]. split; constructor.
  - destruct (IH y r eq_refl) as (before & after & -> & Hb & Ha).
    cbn [insert_by_duration]. fold dur.
    destruct (dur y <? dur x)%float eqn:L.
    + intros [= <- <-]. exists (x :: before), after.
      split; [reflexivity|]. split; [now constructor | exact Ha].
    + intros [= <- <-]. exists [], (before ++ y :: after)%list.
      split; [reflexivity|]. split; [constructor|].
      assert (is_nan (dur y) = false) as Ny.
      { apply Forall_app in Hl. destruct Hl as [_ Hl].
        now apply Forall_cons_iff in Hl. }
      assert ((dur x <=? dur y)%float = true) as Lxy
        by now apply ltb_false_leb.
      apply Forall_app. split; [|constructor].
      * apply Forall_impl with (2 := Hb). intros b Hyb.
        apply leb_trans with (1 := Lxy). now apply ltb_leb.
      * exact Lxy.
      * apply Forall_impl with (2 := Ha). intros a Hya.
        now apply leb_trans with (1 := Lxy).
Qed.

(** X21. The background track. There is none exactly when the music
    folder is missing or holds no file with one of the four supported
    suffixes, in any mix of capitals. Otherwise the track chosen is a
    supported file of the folder that is no longer than any other supported
    file and, among those of its length, the first in the folder's order. *)
Theorem shortest_track_is_chosen (listing : option (list Path)) :
  (forall entries p,
     listing = Some entries -> In p (filter (is_supported Path suffix) entries) ->
     is_nan (duration_seconds p) = false) ->
  (choose_background_track Path suffix duration_seconds listing = None <->
   listing = None \/
   exists entries,
     listing = Some entries /\ filter (is_supported Path suffix) entries = []) /\
  (forall t,
     choose_background_track Path suffix duration_seconds listing = Some t ->
     exists entries before after,
       listing = Some entries /\
       filter (is_supported Path suffix) entries = (before ++ t :: after)%list /\
       Forall (fun b => (duration_seconds t <? duration_seconds b)%float = true)
              before /\
       Forall (fun a => (duration_seconds t <=? duration_seconds a)%float = true)
              after).
Proof.
  intros Hn. unfold choose_background_track.
  destruct listing as [entries|].
  - assert (Forall (fun p => is_nan (dur p) = false)
                   (filter (is_supported Path suffix) entries)) as Ht.
    { apply Forall_forall. intros p Hp. now apply (Hn entries). }
    cbv zeta.
    destruct (filter (is_supported Path suffix) entries) as [|x l] eqn:Et;
      cbn [nonempty negb].
    + split.
      * split; [intros _; right; exists entries; now split | reflexivity].
      * discriminate.
    + fold sort. destruct (sort (x :: l)) as [|t rest] eqn:E.
      * apply sort_by_duration_nil in E. discriminate.
      * cbn [hd_error]. split.
        -- split; [discriminate|].
           intros [H|(e' & He & H)]; [discriminate|].
           assert (entries = e') as <-.
           { apply (f_equal (fun o => match o with
                                      | Some e => e
                                      | None => entries
                                      end)) in He. exact He. }
           rewrite Et in H. discriminate.
        -- intros t' H.
           apply (f_equal (fun o => match o with Some p => p | None => t end)) in H.
           subst t'.
           destruct (sort_by_duration_hd (x :: l) t rest Ht E)
             as (before & after & H1 & H2 & H3).
           exists entries, before, after. rewrite Et. auto.
  - split; [split; [auto | reflexivity] | discriminate].
Qed.

End TrackChoice.

(** ** enhancements.py: the presets brighten *)

Section ColourCorrection.
Import PyStr Exports Config Enhancements.
Local Open Scope Z_scope.

Lemma brightens_from_sound (e c : float) (n : nat) :
  forall v prev,
  brightens_from e c n v prev = true ->
  forall w, v <= w < v + Z.of_nat n ->
  exists o,
    _fx e c w = Some o /\ w <= o /\ prev <= o /\ o <= 255 /\
    (w < o \/ o = 255) /\
    forall w', w <= w' < v + Z.of_nat n ->
    exists o', _fx e c w' = Some o' /\ o <= o'.
Proof.
  induction n as [|n IH]; intros v prev H w Hw; [lia|].
  cbn [brightens_from] in H.
  destruct (_fx e c v) as [o|] eqn:E; [|discriminate].
  apply andb_true_iff in H. destruct H as [H Hrest].
  apply andb_true_iff in H. destruct H as [H Hs].
  apply andb_true_iff in H. destruct H as [H H255].
  apply andb_true_iff in H. destruct H as [Hv Hp].
  apply Z.leb_le in Hv, Hp, H255.
  assert (v < o \/ o = 255) as Hs'.
  { apply orb_true_iff in Hs. destruct Hs as [Hs|Hs];
      [left; now apply Z.ltb_lt | right; now apply Z.eqb_eq]. }
  destruct (Z.eq_dec w v) as [->|Hne].
  - exists o. repeat (split; [first [assumption | lia]|]).
    intros w' Hw'. destruct (Z.eq_dec w' v) as [->|Hne'].
    + exists o. split; [exact E | lia].
    + destruct (IH (v + 1) o Hrest w' ltac:(lia))
        as (o' & E' & _ & Ho & _). exists o'. auto.
  - destruct (IH (v + 1) o Hrest w ltac:(lia))
      as (ow & Ew & H1 & H2 & H3 & H4 & H5).
    exists ow. split; [exact Ew|]. split; [exact H1|]. split; [lia|].
    split; [exact H3|]. split; [exact H4|].
    intros w' Hw'. apply H5. lia.
Qed.

Lemma preset_of_values (l : string) :
  In (preset_of l)
     [[]; preset_of "cinematic"; preset_of "vlog"; preset_of "reel";
      preset_of "youtube"].
Proof.
  unfold preset_of at 1.
  destruct (String.eqb l "cinematic"); [cbn; auto|].
  destruct (String.eqb l "vlog"); [cbn; auto|].
  destruct (mem l _); [cbn; auto 6|].
  destruct (String.eqb l "youtube"); [cbn; auto 6|].
  now left.
Qed.

(** X22. Colour correction with the parameters of any style name,
    known or not: every channel value 0 .. 255 has a result, which is never
    darker than the value and is brighter unless it is 255; a brighter
    value never gets a darker result; and nothing exceeds 255. *)
Theorem presets_never_darken (l : string) :
  exists e c,
    arg (preset_of l) "exposure_boost" = PFloat e /\
    arg (preset_of l) "contrast_gain" = PFloat c /\
    forall v v',
      0 <= v <= v' -> v' <= 255 ->
      exists o o',
        _fx e c v = Some o /\ _fx e c v' = Some o' /\
        v <= o /\ o <= o' /\ o' <= 255 /\ (v < o \/ o = 255).
Proof.
  assert (forall e c,
            brightens_from e c 256 0 0 = true ->
            forall v v',
              0 <= v <= v' -> v' <= 255 ->
              exists o o',
                _fx e c v = Some o /\ _fx e c v' = Some o' /\
                v <= o /\ o <= o' /\ o' <= 255 /\ (v < o \/ o = 255)) as S.
  { intros e c B v v' Hv Hv'.
    destruct (brightens_from_sound e c 256 0 0 B v ltac:(lia))
      as (o & E & H1 & _ & _ & H4 & H5).
    destruct (H5 v' ltac:(lia)) as (o' & E' & Ho).
    destruct (brightens_from_sound e c 256 0 0 B v' ltac:(lia))
      as (o'' & E'' & _ & _ & H3 & _).
    rewrite E' in E''. injection E'' as <-.
    exists o, o'. auto 10. }
  pose proof (preset_of_values l) as P. cbn [In] in P.
  destruct P as [<-|[<-|[<-|[<-|[<-|[]]]]]];
    eexists; eexists; (split; [reflexivity|]); (split; [reflexivity|]);
    apply S; vm_compute; reflexivity.
Qed.

End ColourCorrection.

(** ** The further properties on the small instance *)

Section DemoMore.
Import PyErr PyFloat PyList PyStr PyRaise Highlight.
Local Open Scope string_scope.

(** A frame 280 pixels wide leaves 200 pixels, ten characters of the
    fixed-pitch font, to a line. *)
Example demo_wrap :
  Captions.wrap_text DemoText.fixed_pitch 280
    "the quick  brown fox jumps over the lazy dog" =
  ["the quick"; "brown fox"; "jumps over"; "the lazy"; "dog"].
Proof. reflexivity. Qed.

Example demo_wrap_long_word :
  Captions.wrap_text DemoText.fixed_pitch 280 "an extraordinarily long word" =
  ["an"; "extraordinarily"; "long word"].
Proof. reflexivity. Qed.

Example demo_caption_clips :
  Captions.caption_clips DemoText.fixed_pitch 280
    [(1, 3, "hello there"); (3, 4, "   "); (5, 5, "bye")]%float =
  [ {| Captions.cap_start := 1; Captions.cap_duration := 2;
       Captions.cap_lines := ["hello"; "there"] |};
    {| Captions.cap_start := 5;
       Captions.cap_duration := Captions.min_caption_duration;
       Captions.cap_lines := ["bye"] |} ]%float.
Proof. reflexivity. Qed.

Example demo_detect_no_frames_zero_fallback :
  Demo.detect {| isOpened := true; CAP_PROP_FPS := 0; frames := [] |} 2 1 0 =
  Raise ZeroDivisionError.
Proof. reflexivity. Qed.

Example demo_negative_top_k :
  py_slice [(3, 7, 0.25); (0, 3, 0.125)]%float None (Some (-1)%Z) =
  [(3, 7, 0.25)]%float.
Proof. reflexivity. Qed.

Example demo_export :
  Exports.export_resolutions DemoText.int_of_digits string DemoText.produce
    "clip_1" ".mp4" ["1080p"; "640x360"; "4k"; "720P"; "1920X1080"] =
  ([("clip_1_1080p.mp4", (1920, 1080)); ("clip_1_640x360.mp4", (640, 360));
    ("clip_1_720P.mp4", (1280, 720))]%Z,
   Return ["clip_1_1080p.mp4"; "clip_1_640x360.mp4"; "clip_1_720P.mp4"]).
Proof. reflexivity. Qed.

Example demo_export_raises :
  Exports.export_resolutions DemoText.int_of_digits string DemoText.produce
    "clip_1" ".mp4" ["720p"; "1x2x3"; "480p"] =
  ([("clip_1_720p.mp4", (1280, 720))]%Z,
   Throw (Exports.Reading
            (ValueError "too many values to unpack (expected 2)"))).
Proof. reflexivity. Qed.

Example demo_export_zero_size :
  Exports.export_resolutions DemoText.int_of_digits string DemoText.produce
    "clip_1" ".mp4" ["720p"; "0x0"; "480p"] =
  ([("clip_1_720p.mp4", (1280, 720))]%Z,
   Throw (Exports.Library "resize failed")).
Proof. reflexivity. Qed.

Example demo_dry_run :
  Exports.dry_run_outputs "clip_1" ["1080p"; "4k"] true =
  ["clip_1.mp4"; "clip_1_1080p.mp4"; "clip_1_4k.mp4"; "clip_1_preview.mp4"].
Proof. reflexivity. Qed.

Example demo_real_run :
  Exports.real_run_outputs DemoText.int_of_digits string DemoText.produce
    DemoText.produce_preview "clip_1" ["1080p"; "4k"] true =
  (["clip_1.mp4"; "clip_1_1080p.mp4"; "clip_1_preview.mp4"],
   Return ["clip_1.mp4"; "clip_1_1080p.mp4"; "clip_1_preview.mp4"]).
Proof. reflexivity. Qed.

Example demo_real_run_zero_size :
  Exports.real_run_outputs DemoText.int_of_digits string DemoText.produce
    DemoText.produce_preview "clip_1" ["0x0"] false =
  (["clip_1.mp4"], Throw (Exports.Library "resize failed")).
Proof. reflexivity. Qed.

Example demo_srt_time :
  Transcription._srt_time_to_seconds DemoText.digits "00:01:02,500" =
  Return 62.5%float.
Proof. reflexivity. Qed.

Example demo_srt_range :
  Transcription._srt_time_range_to_seconds DemoText.digits
    "00:00:01,000 --> 00:00:02,500" = Return (1, 2.5)%float.
Proof. reflexivity. Qed.

Example demo_srt_no_arrow :
  Transcription._srt_time_range_to_seconds DemoText.digits "00:00:01,000" =
  Throw Transcription.ValueError.
Proof. reflexivity. Qed.

Example demo_resolutions_option :
  Config.parse_resolutions " 1080p, ,720p ," = ["1080p"; "720p"] /\
  Config.config_resolutions (Config.parse_resolutions " , ") =
    ["1080p"; "720p"].
Proof. split; reflexivity. Qed.

Example demo_style_dict :
  Config.style_cfg (Some "Cinematic")
    (Config.SDict [("stabilize", Config.PBool false)]) =
  Return {| Config.name := Config.PStr "Cinematic";
            Config.stabilize := Config.PBool false;
            Config.color_correct := Config.PBool true;
            Config.denoise_video := Config.PBool false;
            Config.exposure_boost := Config.PFloat 0x1.47ae147ae147bp-6;
            Config.contrast_gain := Config.PFloat 0x1.147ae147ae148p+0 |}.
Proof. reflexivity. Qed.

Lemma style_dict_cannot_override_witness :
  let items := [("exposure_boost", Config.PFloat 0.5)] in
  NoDup (map fst items) /\
  Config.style_cfg (Some "Cinematic") (Config.SDict items) =
    Throw Config.TypeError.
Proof.
  intros items.
  assert (NoDup (map fst items)) as N.
  { constructor; [intros [] | constructor]. }
  split; [exact N|].
  apply (proj1 (style_dict_cannot_override (Some "Cinematic") items N)).
  exists "exposure_boost". split; [now left|]. right. left. now left.
Defined.

Example demo_colour_correction :
  map (Enhancements._fx 0x1.47ae147ae147bp-7 0x1.0cccccccccccdp+0)
      [0; 10; 128; 240; 255]%Z =
  [Some 2; Some 13; Some 136; Some 254; Some 255]%Z.
Proof. vm_compute. reflexivity. Qed.

Example demo_track :
  Audio.choose_background_track (string * float) DemoText.track_suffix
    DemoText.track_seconds (Some DemoText.music_folder) =
  Some (".wav", 12%float).
Proof. reflexivity. Qed.

Lemma shortest_track_is_chosen_witness :
  let listing := Some DemoText.music_folder in
  let t := (".wav", 12%float) in
  Audio.choose_background_track (string * float) DemoText.track_suffix
    DemoText.track_seconds listing = Some t /\
  exists entries before after,
    listing = Some entries /\
    filter (Audio.is_supported (string * float) DemoText.track_suffix) entries =
      (before ++ t :: after)%list /\
    Forall (fun b => (DemoText.track_seconds t <? DemoText.track_seconds b)%float
                     = true) before /\
    Forall (fun a => (DemoText.track_seconds t <=? DemoText.track_seconds a)%float
                     = true) after.
Proof.
  intros listing t.
  assert (forall entries p,
            listing = Some entries ->
            In p (filter (Audio.is_supported (string * float)
                            DemoText.track_suffix) entries) ->
            is_nan (DemoText.track_seconds p) = false) as N.
  { intros entries p He.
    apply (f_equal (fun o => match o with Some e => e | None => [] end)) in He.
    cbn in He. subst entries. intros [<-|[<-|[<-|[]]]]; reflexivity. }
  assert (Audio.choose_background_track (string * float) DemoText.track_suffix
            DemoText.track_seconds listing = Some t) as E by reflexivity.
  split; [exact E|].
  exact (proj2 (shortest_track_is_chosen (string * float)
                  DemoText.track_suffix DemoText.track_seconds listing N) t E).
Defined.

Example demo_nan_frame_rate :
  Demo.detect DemoText.nan_cap 100 1 30 =
  Ok [(nan, nan, 0.25); (nan, nan, 0.125)]%float.
Proof. reflexivity. Qed.

Lemma nan_frame_rate_keeps_short_scenes_witness :
  isOpened DemoText.nan_cap = true /\
  is_nan (CAP_PROP_FPS DemoText.nan_cap) = true /\
  exists out,
    Demo.detect DemoText.nan_cap 100 1 30 = Ok out /\
    (In (nan, nan, 0.125)%float out <->
     exists s e,
       In (s, e) (neighbours (Demo.boundaries_of Demo.footage)) /\
       let score :=
         scene_score Demo.seq_mean
           (motion_scores (run_loop Demo.to_gray Demo.to_hist Demo.distance
                             Demo.distance Demo.footage)) s e in
       (1 * threshold_scale <=? score)%float = true /\
       (nan, nan, 0.125)%float = (nan, nan, score)).
Proof.
  assert (isOpened DemoText.nan_cap = true) as Ho by reflexivity.
  assert (is_nan (CAP_PROP_FPS DemoText.nan_cap) = true) as Hn by reflexivity.
  split; [exact Ho|]. split; [exact Hn|].
  destruct (nan_frame_rate_keeps_short_scenes float float float Demo.to_gray
              Demo.to_hist Demo.distance Demo.distance Demo.seq_mean
              DemoText.nan_cap 100 1 30 Ho Hn) as (out & E & H).
  exists out. split; [exact E | exact (H (nan, nan, 0.125)%float)].
Defined.

End DemoMore.

